(** * cf-origin-pl: the CloudFront origin prefix-list source of Caddy

    A shallow embedding of [cloudfront_origin_pl.go].  The Go methods of
    [*Source] become programs over a small set of atomic operations (lock
    and unlock of [s.mu], reads and writes of [s.current], the Go builtins
    on slices and channels, the calls to the AWS SDK).  A program is a tree
    of such operations; [run] executes one goroutine alone, [step]
    interleaves several of them.  [UnmarshalCaddyfile], which runs before the
    [Source] is shared, is a function of the [Source] and of the cursor over
    the Caddyfile. *)

From stdpp Require Import gmap strings list fin_maps.

#[local] Set Warnings "-clear-no-such-hyp".

(** ** External types *)

(** [net/netip]: the parsed prefix type, its parser (the error result is
    [None]) and the zero value [netip.Prefix{}] that [make] fills a fresh
    slice with. *)
Class NetIP := {
  Prefix : Type;
  ParsePrefix : string → option Prefix;
  zeroPrefix : Prefix
}.

(** The part of the AWS SDK types the code reads.  Go's [*string] is an
    [option string]. *)
Module ec2types.
Record PrefixListEntry := { Cidr : option string }.
Record ManagedPrefixList := {
  PrefixListId : option string;
  PrefixListName : option string
}.
End ec2types.

Module ec2.
Record GetManagedPrefixListEntriesOutput := {
  Entries : list ec2types.PrefixListEntry;
  NextToken : option string
}.
End ec2.

(** An error value returned by the SDK. *)
Definition aws_error := string.

(** [aws.Config] as far as the code determines it: the region and profile
    options given to [LoadDefaultConfig] and the role of the assume-role
    credentials provider. *)
Record aws_Config := {
  cfg_region : string;
  cfg_profile : option string;
  cfg_role : option string
}.

(** The provider and the process environment.  [W] is the state of the
    outside world; every call may change it, so that the same request can be
    answered differently at different times. *)
Class AWS (W : Type) := {
  LoadDefaultConfig : W → string → option string → option aws_error * W;
  DescribeManagedPrefixLists :
    W → aws_Config → string → Z → (aws_error + list ec2types.ManagedPrefixList) * W;
  GetManagedPrefixListEntries :
    W → aws_Config → string → Z → option string →
    (aws_error + ec2.GetManagedPrefixListEntriesOutput) * W;
  Getenv : W → string → string
}.

(** ** The module's own types *)

(** The exported fields of [Source].  [Refresh] is a [caddy.Duration], a
    count of nanoseconds. *)
Record Source := {
  Region : string;
  PrefixListID : string;
  PrefixListName : string;
  IncludeIPv6 : bool;
  Refresh : Z;
  AWSProfile : string;
  RoleARN : string;
  RequireNonEmpty : bool
}.

(** The errors the module builds with [fmt.Errorf], one constructor per
    format string. *)
Inductive error :=
| ErrAwsConfig (e : aws_error)
    (* "cloudfront_origin_pl: aws config: %w" *)
| ErrGetEntries (id : string) (e : aws_error)
    (* "cloudfront_origin_pl: get entries %s: %w" *)
| ErrResolvedZero
    (* "cloudfront_origin_pl: resolved zero prefixes (empty on first load and
        require_nonempty=true)" *)
| ErrNoPrefixesInitial
    (* "cloudfront_origin_pl: no prefixes found on initial fetch" *)
| ErrDescribe (e : aws_error)
    (* "describe prefix lists: %w" *)
| ErrNotFound (name region : string).
    (* "managed prefix list %q not found in region %s" *)

Definition defaultRegion : string := "us-east-1"%string.
Definition defaultRefresh : Z := (12 * 3600 * 1000000000)%Z.
Definition defaultPLNameV4 : string := "com.amazonaws.global.cloudfront.origin-facing"%string.
Definition defaultPLNameV6 : string := "com.amazonaws.global.cloudfront.origin-facing-ipv6"%string.
Definition maxResultsPerPage : Z := 100%Z.

(** ** Memory *)

(** A slice header: the backing array ([None] for the nil slice) and the
    length.  The program never reslices, so offset and capacity are left
    out. *)
Definition loc := positive.
Record slice := { s_ptr : option loc; s_len : nat }.
Definition nil_slice : slice := {| s_ptr := None; s_len := 0 |}.

(** [sync.RWMutex]: one writer, or any number of readers. *)
Record RWMutex := { writer : bool; readers : nat }.
Definition unlocked : RWMutex := {| writer := false; readers := 0 |}.

(** A [chan struct{}] that nothing is ever sent on. *)
Inductive chan := ChNil | ChOpen | ChClosed.

(** The [*time.Ticker] of the refresher: its channel [t.C] holds at most
    one tick. *)
Inductive ticker := TkNone | TkRunning (pending : bool) | TkStopped (pending : bool).

(** The case [select] took. *)
Inductive selected := SelTick | SelStop.

(** What the outside world and the log saw, oldest first. *)
Inductive event :=
| EvLoadDefaultConfig (region : string) (profile : option string) (r : option aws_error)
| EvDescribe (c : aws_Config) (name : string)
    (r : aws_error + list ec2types.ManagedPrefixList)
| EvGetEntries (c : aws_Config) (id : string) (tok : option string)
    (r : aws_error + ec2.GetManagedPrefixListEntriesOutput)
| EvWarn (msg : string).


(** ** A parser and a provider to run the code on *)

(** A stand-in for [netip.ParsePrefix] that accepts the texts with a slash
    and keeps them as they are. *)
Definition slash_parse (s : string) : option string :=
  match String.index 0 "/" s with
  | Some _ => Some s
  | None => None
  end.

#[global] Instance text_netip : NetIP :=
  {| Prefix := string; ParsePrefix := slash_parse; zeroPrefix := ""%string |}.

(** A provider that answers from a script: the environment variables, the
    result of loading the configuration, the answer to every name lookup,
    and the answers to the successive page requests, one per request; when
    they are used up the answer is an empty last page. *)
Record Script := {
  sc_env : list (string * string);
  sc_load : option aws_error;
  sc_describe : aws_error + list ec2types.ManagedPrefixList;
  sc_pages : list (aws_error + ec2.GetManagedPrefixListEntriesOutput)
}.

Fixpoint env_lookup (env : list (string * string)) (name : string) : string :=
  match env with
  | [] => ""%string
  | (k, v) :: rest => if decide (k = name) then v else env_lookup rest name
  end.

Definition script_getenv (w : Script) (name : string) : string :=
  env_lookup (sc_env w) name.

Definition script_pop (w : Script)
  : (aws_error + ec2.GetManagedPrefixListEntriesOutput) * Script :=
  match sc_pages w with
  | [] => (inr {| ec2.Entries := []; ec2.NextToken := None |}, w)
  | r :: rest =>
      (r, {| sc_env := sc_env w; sc_load := sc_load w;
             sc_describe := sc_describe w; sc_pages := rest |})
  end.

#[global] Instance script_aws : AWS Script :=
  {| LoadDefaultConfig w _ _ := (sc_load w, w);
     DescribeManagedPrefixLists w _ _ _ := (sc_describe w, w);
     GetManagedPrefixListEntries w _ _ _ _ := script_pop w;
     Getenv := script_getenv |}.

Definition entry (c : string) : ec2types.PrefixListEntry :=
  {| ec2types.Cidr := Some c |}.

(** ** The Caddyfile *)

(** [caddyfile.Dispenser], the cursor over the tokens of a Caddyfile, as far
    as [UnmarshalCaddyfile] uses it.  [D] is the state of the cursor: [Next],
    [NextBlock] and [NextArg] say whether there was a token to move to and
    give the cursor after the call; [Val] is the token under the cursor. *)
Class Dispenser (D : Type) := {
  Next : D → bool * D;
  NextBlock : D → Z → bool * D;
  NextArg : D → bool * D;
  Val : D → string
}.

(** [time.ParseDuration], which gives an error or a count of nanoseconds,
    and [strings.ToLower]. *)
Class GoText := {
  ParseDuration : string → string + Z;
  ToLower : string → string
}.

(** The errors [UnmarshalCaddyfile] returns, one constructor per call that
    builds one; the position in the file that the dispenser adds to the
    message is left out. *)
Inductive caddyfile_error :=
| ArgErr
    (* d.ArgErr() *)
| ErrInvalidRefresh (err : string)
    (* d.Errf("invalid refresh: %v", err) *)
| ErrUnknownOption (opt : string).
    (* d.Errf("unknown option %q", d.Val()) *)

(** Assignments to the exported fields. *)
Definition set_Region (v : string) (s : Source) : Source :=
  {| Region := v; PrefixListID := PrefixListID s; PrefixListName := PrefixListName s;
     IncludeIPv6 := IncludeIPv6 s; Refresh := Refresh s; AWSProfile := AWSProfile s;
     RoleARN := RoleARN s; RequireNonEmpty := RequireNonEmpty s |}.
Definition set_PrefixListID (v : string) (s : Source) : Source :=
  {| Region := Region s; PrefixListID := v; PrefixListName := PrefixListName s;
     IncludeIPv6 := IncludeIPv6 s; Refresh := Refresh s; AWSProfile := AWSProfile s;
     RoleARN := RoleARN s; RequireNonEmpty := RequireNonEmpty s |}.
Definition set_PrefixListName (v : string) (s : Source) : Source :=
  {| Region := Region s; PrefixListID := PrefixListID s; PrefixListName := v;
     IncludeIPv6 := IncludeIPv6 s; Refresh := Refresh s; AWSProfile := AWSProfile s;
     RoleARN := RoleARN s; RequireNonEmpty := RequireNonEmpty s |}.
Definition set_IncludeIPv6 (v : bool) (s : Source) : Source :=
  {| Region := Region s; PrefixListID := PrefixListID s; PrefixListName := PrefixListName s;
     IncludeIPv6 := v; Refresh := Refresh s; AWSProfile := AWSProfile s;
     RoleARN := RoleARN s; RequireNonEmpty := RequireNonEmpty s |}.
Definition set_Refresh (v : Z) (s : Source) : Source :=
  {| Region := Region s; PrefixListID := PrefixListID s; PrefixListName := PrefixListName s;
     IncludeIPv6 := IncludeIPv6 s; Refresh := v; AWSProfile := AWSProfile s;
     RoleARN := RoleARN s; RequireNonEmpty := RequireNonEmpty s |}.
Definition set_AWSProfile (v : string) (s : Source) : Source :=
  {| Region := Region s; PrefixListID := PrefixListID s; PrefixListName := PrefixListName s;
     IncludeIPv6 := IncludeIPv6 s; Refresh := Refresh s; AWSProfile := v;
     RoleARN := RoleARN s; RequireNonEmpty := RequireNonEmpty s |}.
Definition set_RoleARN (v : string) (s : Source) : Source :=
  {| Region := Region s; PrefixListID := PrefixListID s; PrefixListName := PrefixListName s;
     IncludeIPv6 := IncludeIPv6 s; Refresh := Refresh s; AWSProfile := AWSProfile s;
     RoleARN := v; RequireNonEmpty := RequireNonEmpty s |}.
Definition set_RequireNonEmpty (v : bool) (s : Source) : Source :=
  {| Region := Region s; PrefixListID := PrefixListID s; PrefixListName := PrefixListName s;
     IncludeIPv6 := IncludeIPv6 s; Refresh := Refresh s; AWSProfile := AWSProfile s;
     RoleARN := RoleARN s; RequireNonEmpty := v |}.

(** What [UnmarshalCaddyfile] has done when it stops: it returned, with an
    error or nil, or the bound of a loop was reached.  The [Source] is the
    receiver as the call leaves it, the cursor is where the call leaves it. *)
Inductive parsed (D : Type) :=
| Returned (err : option caddyfile_error) (s : Source) (d : D)
| Unfinished (s : Source) (d : D).
Arguments Returned {D} err s d.
Arguments Unfinished {D} s d.

Section Caddyfile.
Context {D : Type} `{Dispenser D} `{GoText}.

(** The body of the [switch], lines 157-196: one option.  The result is the
    error the function returns there, if it does. *)
Definition option_case (s : Source) (d : D) : option caddyfile_error * Source * D :=
  let v := Val d in
  if decide (v = "region"%string) then
    let '(ok, d1) := NextArg d in
    if ok then (None, set_Region (Val d1) s, d1) else (Some ArgErr, s, d1)
  else if decide (v = "refresh"%string) then
    let '(ok, d1) := NextArg d in
    if ok then
      match ParseDuration (Val d1) with
      | inl err => (Some (ErrInvalidRefresh err), s, d1)
      | inr dur => (None, set_Refresh dur s, d1)
      end
    else (Some ArgErr, s, d1)
  else if decide (v = "prefix_list_id"%string) then
    let '(ok, d1) := NextArg d in
    if ok then (None, set_PrefixListID (Val d1) s, d1) else (Some ArgErr, s, d1)
  else if decide (v = "prefix_list_name"%string) then
    let '(ok, d1) := NextArg d in
    if ok then (None, set_PrefixListName (Val d1) s, d1) else (Some ArgErr, s, d1)
  else if decide (v = "include_ipv6"%string) then
    let '(ok, d1) := NextArg d in
    if ok then
      let val := ToLower (Val d1) in
      (None,
       set_IncludeIPv6 (bool_decide (val = "true"%string) || bool_decide (val = "1"%string)
                        || bool_decide (val = "yes"%string)) s,
       d1)
    else (None, set_IncludeIPv6 true s, d1)
  else if decide (v = "aws_profile"%string) then
    let '(ok, d1) := NextArg d in
    if ok then (None, set_AWSProfile (Val d1) s, d1) else (Some ArgErr, s, d1)
  else if decide (v = "role_arn"%string) then
    let '(ok, d1) := NextArg d in
    if ok then (None, set_RoleARN (Val d1) s, d1) else (Some ArgErr, s, d1)
  else if decide (v = "require_nonempty"%string) then
    let '(ok, d1) := NextArg d in
    if ok then
      let val := ToLower (Val d1) in
      (None,
       set_RequireNonEmpty (bool_decide (val = "true"%string) || bool_decide (val = "1"%string)
                            || bool_decide (val = "yes"%string)) s,
       d1)
    else (None, set_RequireNonEmpty true s, d1)
  else (Some (ErrUnknownOption v), s, d).

(** The loop [for d.NextBlock(0)], lines 156-197.  [fuel] bounds the number
    of its iterations; the Go loop has no bound.  [Returned None] is the loop
    that ended, [Returned (Some err)] the function that returned [err]. *)
Fixpoint block_loop (fuel : nat) (s : Source) (d : D) : parsed D :=
  match fuel with
  | 0 => Unfinished s d
  | S fuel' =>
      let '(more, d1) := NextBlock d 0 in
      if more then
        match option_case s d1 with
        | (Some err, s', d2) => Returned (Some err) s' d2
        | (None, s', d2) => block_loop fuel' s' d2
        end
      else Returned None s d1
  end.

(** [UnmarshalCaddyfile], lines 154-200.  [segs] bounds the iterations of
    the loop [for d.Next()]. *)
Fixpoint UnmarshalCaddyfile (segs fuel : nat) (s : Source) (d : D) : parsed D :=
  match segs with
  | 0 => Unfinished s d
  | S segs' =>
      let '(more, d1) := Next d in
      if more then
        match block_loop fuel s d1 with
        | Returned None s' d2 => UnmarshalCaddyfile segs' fuel s' d2
        | r => r
        end
      else Returned None s d1
  end.

(** *** Notions the statements use *)

(** The names of the options. *)
Definition text_options : list string :=
  ["region"; "refresh"; "prefix_list_id"; "prefix_list_name"; "aws_profile";
   "role_arn"]%string.
Definition flag_options : list string := ["include_ipv6"; "require_nonempty"]%string.

(** The values of a flag that count as true, once in lower case. *)
Definition truthy (val : string) : bool :=
  bool_decide (val ∈ ["true"; "1"; "yes"]%string).

(** An option as the function reads it: its name, and the argument
    [NextArg] moved to, if it did. *)
Record item := { i_name : string; i_arg : option string }.

(** From [d] on, the cursor hands out the options [items] and is then at
    [d']: for each of them [NextBlock] moves to a name and [NextArg] to its
    argument, or to nothing. *)
Inductive reads_items : D → list item → D → Prop :=
| reads_nil d : reads_items d [] d
| reads_cons d d1 ok d2 items d' :
    NextBlock d 0 = (true, d1) →
    NextArg d1 = (ok, d2) →
    reads_items d2 items d' →
    reads_items d
      ({| i_name := Val d1; i_arg := if ok then Some (Val d2) else None |} :: items) d'.

(** What a well-formed option does to the [Source]; an option that
    [UnmarshalCaddyfile] rejects does nothing. *)
Definition apply_item (it : item) (s : Source) : Source :=
  match i_name it, i_arg it with
  | "region"%string, Some v => set_Region v s
  | "refresh"%string, Some v =>
      match ParseDuration v with inr dur => set_Refresh dur s | inl _ => s end
  | "prefix_list_id"%string, Some v => set_PrefixListID v s
  | "prefix_list_name"%string, Some v => set_PrefixListName v s
  | "aws_profile"%string, Some v => set_AWSProfile v s
  | "role_arn"%string, Some v => set_RoleARN v s
  | "include_ipv6"%string, Some v => set_IncludeIPv6 (truthy (ToLower v)) s
  | "include_ipv6"%string, None => set_IncludeIPv6 true s
  | "require_nonempty"%string, Some v => set_RequireNonEmpty (truthy (ToLower v)) s
  | "require_nonempty"%string, None => set_RequireNonEmpty true s
  | _, _ => s
  end.

(** The options [UnmarshalCaddyfile] accepts: a flag with or without an
    argument, the refresh period with a duration that parses, another text
    option with its argument. *)
Definition accepted_item (it : item) : Prop :=
  i_name it ∈ flag_options ∨
  (i_name it = "refresh"%string ∧
   ∃ v dur, i_arg it = Some v ∧ ParseDuration v = inr dur) ∨
  (i_name it ∈ text_options ∧ i_name it ≠ "refresh"%string ∧ is_Some (i_arg it)).

End Caddyfile.

(** A dispenser over the option lines of one block: a line is the name of
    an option and the arguments that follow it. *)
Record tape := {
  t_entered : bool;
  t_val : string;
  t_line : list string;
  t_lines : list (list string)
}.

Definition tape_next_line (d : tape) : bool * tape :=
  match t_lines d with
  | (name :: args) :: rest =>
      (true, {| t_entered := t_entered d; t_val := name; t_line := args; t_lines := rest |})
  | _ => (false, {| t_entered := t_entered d; t_val := t_val d; t_line := []; t_lines := [] |})
  end.

Definition tape_next_arg (d : tape) : bool * tape :=
  match t_line d with
  | a :: rest =>
      (true, {| t_entered := t_entered d; t_val := a; t_line := rest; t_lines := t_lines d |})
  | [] => (false, d)
  end.

#[global] Instance tape_dispenser : Dispenser tape :=
  {| Next d := (negb (t_entered d),
                {| t_entered := true; t_val := t_val d; t_line := t_line d;
                   t_lines := t_lines d |});
     NextBlock d _ := tape_next_line d;
     NextArg := tape_next_arg;
     Val := t_val |}.

Definition block_of (lines : list (list string)) : tape :=
  {| t_entered := false; t_val := "cloudfront_origin_pl"; t_line := []; t_lines := lines |}.

(** Durations in whole seconds, with or without a sign, stand in for
    [time.ParseDuration]; lower case is that of the ASCII letters. *)
Fixpoint digits_value (acc : Z) (s : string) : option Z :=
  match s with
  | EmptyString => None
  | String c rest =>
      let n := Z.of_N (Ascii.N_of_ascii c) in
      if bool_decide (n = 115)%Z then
        match rest with EmptyString => Some acc | _ => None end
      else if bool_decide (48 ≤ n ≤ 57)%Z then digits_value (acc * 10 + (n - 48)) rest
      else None
  end.

Definition seconds (s : string) : string + Z :=
  let r := match s with
           | String c rest =>
               if bool_decide (Ascii.N_of_ascii c = 45%N)
               then option_map Z.opp (digits_value 0 rest)
               else digits_value 0 s
           | EmptyString => None
           end in
  match r with
  | Some n => inr (n * 1000000000)%Z
  | None => inl ("time: invalid duration " ++ s)%string
  end.

Definition ascii_lower (c : Ascii.ascii) : Ascii.ascii :=
  let n := Ascii.N_of_ascii c in
  if bool_decide (65 ≤ n ≤ 90)%N then Ascii.ascii_of_N (n + 32) else c.

Fixpoint string_lower (s : string) : string :=
  match s with
  | EmptyString => EmptyString
  | String c rest => String (ascii_lower c) (string_lower rest)
  end.

#[global] Instance ascii_text : GoText :=
  {| ParseDuration := seconds; ToLower := string_lower |}.
Section Model.
Context `{NetIP} {W : Type} `{AWS W}.

(** All that the goroutines share: the [Source] value with its unexported
    fields [mu], [current] and [stopCh], the heap of backing arrays, the
    ticker, the number of refresher goroutines started, and the world. *)
Record state := {
  src : Source;
  mu : RWMutex;
  current : slice;
  stopCh : chan;
  heap : gmap loc (list Prefix);
  tick : ticker;
  started : nat;
  world : W;
  trace : list event
}.

Definition set_src (f : Source → Source) (st : state) : state :=
  {| src := f (src st); mu := mu st; current := current st; stopCh := stopCh st;
     heap := heap st; tick := tick st; started := started st;
     world := world st; trace := trace st |}.
Definition set_mu (m : RWMutex) (st : state) : state :=
  {| src := src st; mu := m; current := current st; stopCh := stopCh st;
     heap := heap st; tick := tick st; started := started st;
     world := world st; trace := trace st |}.
Definition set_current (c : slice) (st : state) : state :=
  {| src := src st; mu := mu st; current := c; stopCh := stopCh st;
     heap := heap st; tick := tick st; started := started st;
     world := world st; trace := trace st |}.
Definition set_stopCh (c : chan) (st : state) : state :=
  {| src := src st; mu := mu st; current := current st; stopCh := c;
     heap := heap st; tick := tick st; started := started st;
     world := world st; trace := trace st |}.
Definition set_heap (h : gmap loc (list Prefix)) (st : state) : state :=
  {| src := src st; mu := mu st; current := current st; stopCh := stopCh st;
     heap := h; tick := tick st; started := started st;
     world := world st; trace := trace st |}.
Definition set_tick (t : ticker) (st : state) : state :=
  {| src := src st; mu := mu st; current := current st; stopCh := stopCh st;
     heap := heap st; tick := t; started := started st;
     world := world st; trace := trace st |}.
Definition set_started (n : nat) (st : state) : state :=
  {| src := src st; mu := mu st; current := current st; stopCh := stopCh st;
     heap := heap st; tick := tick st; started := n;
     world := world st; trace := trace st |}.
Definition set_world (w : W) (e : event) (st : state) : state :=
  {| src := src st; mu := mu st; current := current st; stopCh := stopCh st;
     heap := heap st; tick := tick st; started := started st;
     world := w; trace := trace st ++ [e] |}.
Definition log (e : event) (st : state) : state := set_world (world st) e st.

(** The elements a slice header denotes in a heap. *)
Definition elems (h : gmap loc (list Prefix)) (sl : slice) : list Prefix :=
  match s_ptr sl with
  | None => []
  | Some l => take (s_len sl) (default [] (h !! l))
  end.

(** The snapshot that is published in a state. *)
Definition published (st : state) : list Prefix := elems (heap st) (current st).

(** ** Atomic operations *)

Inductive op : Type → Type :=
(* the receiver's exported fields *)
| GetSource : op Source
| SetSource (s : Source) : op unit
(* s.mu *)
| RLock : op unit
| RUnlock : op unit
| Lock : op unit
| Unlock : op unit
(* s.current *)
| LoadCurrent : op slice
| StoreCurrent (sl : slice) : op unit
(* slices *)
| MakeSlice (n : nat) : op slice
| CopyElem (dst from : slice) (i : nat) : op unit
| AllocSlice (l : list Prefix) : op slice
| SliceSet (sl : slice) (i : nat) (v : Prefix) : op unit
(* s.stopCh, the ticker, the goroutine *)
| StopChIsNil : op bool
| MakeStopCh : op unit
| CloseStopCh : op unit
| GoRefresher : op unit
| NewTicker (d : Z) : op unit
| StopTicker : op unit
| Select : op selected
(* the world *)
| OsGetenv (name : string) : op string
| AwsLoadDefaultConfig (region : string) (profile : option string) : op (option aws_error)
| Ec2Describe (c : aws_Config) (name : string) (maxResults : Z)
    : op (aws_error + list ec2types.ManagedPrefixList)
| Ec2GetEntries (c : aws_Config) (id : string) (maxResults : Z) (tok : option string)
    : op (aws_error + ec2.GetManagedPrefixListEntriesOutput)
| Warn (msg : string) : op unit.

(** What one operation does: it completes with a value, it panics, or it
    cannot proceed in this state (a lock that is held, a [select] with no
    ready case). *)
Inductive result (X : Type) :=
| Ok (x : X) (st : state)
| Fault
| Wait.
Arguments Ok {X} x st.
Arguments Fault {X}.
Arguments Wait {X}.

(** [choice] settles which case [select] takes when both are ready: Go
    picks one at random. *)
Definition exec (choice : selected) {X} (o : op X) (st : state) : result X :=
  match o in op X return result X with
  | GetSource => Ok (src st) st
  | SetSource s => Ok tt (set_src (λ _, s) st)
  | RLock =>
      if writer (mu st) then Wait
      else Ok tt (set_mu {| writer := false; readers := S (readers (mu st)) |} st)
  | RUnlock =>
      match readers (mu st) with
      | 0 => Fault
      | S n => Ok tt (set_mu {| writer := writer (mu st); readers := n |} st)
      end
  | Lock =>
      if writer (mu st) then Wait
      else match readers (mu st) with
           | 0 => Ok tt (set_mu {| writer := true; readers := 0 |} st)
           | S _ => Wait
           end
  | Unlock =>
      if writer (mu st)
      then Ok tt (set_mu {| writer := false; readers := readers (mu st) |} st)
      else Fault
  | LoadCurrent => Ok (current st) st
  | StoreCurrent sl => Ok tt (set_current sl st)
  | MakeSlice n =>
      let l := fresh (dom (heap st)) in
      Ok {| s_ptr := Some l; s_len := n |}
         (set_heap (<[l := replicate n zeroPrefix]> (heap st)) st)
  | CopyElem dst from i =>
      match s_ptr dst, s_ptr from with
      | Some ld, Some lf =>
          match heap st !! ld, heap st !! lf with
          | Some a, Some b =>
              if decide (i < s_len dst ∧ i < s_len from ∧ i < length a) then
                match b !! i with
                | Some v => Ok tt (set_heap (<[ld := <[i := v]> a]> (heap st)) st)
                | None => Fault
                end
              else Fault
          | _, _ => Fault
          end
      | _, _ => Fault
      end
  | AllocSlice l =>
      let p := fresh (dom (heap st)) in
      Ok {| s_ptr := Some p; s_len := length l |} (set_heap (<[p := l]> (heap st)) st)
  | SliceSet sl i v =>
      match s_ptr sl with
      | None => Fault
      | Some l =>
          match heap st !! l with
          | None => Fault
          | Some a =>
              if decide (i < s_len sl)
              then Ok tt (set_heap (<[l := <[i := v]> a]> (heap st)) st)
              else Fault
          end
      end
  | StopChIsNil => Ok (match stopCh st with ChNil => true | _ => false end) st
  | MakeStopCh => Ok tt (set_stopCh ChOpen st)
  | CloseStopCh =>
      match stopCh st with
      | ChOpen => Ok tt (set_stopCh ChClosed st)
      | ChNil | ChClosed => Fault
      end
  | GoRefresher => Ok tt (set_started (S (started st)) st)
  | NewTicker d =>
      if decide (0 < d)%Z then Ok tt (set_tick (TkRunning false) st) else Fault
  | StopTicker =>
      match tick st with
      | TkRunning p => Ok tt (set_tick (TkStopped p) st)
      | _ => Ok tt st
      end
  | Select =>
      let pending := match tick st with TkRunning p | TkStopped p => p | TkNone => false end in
      let take_tick :=
        match tick st with
        | TkRunning _ => Ok SelTick (set_tick (TkRunning false) st)
        | TkStopped _ => Ok SelTick (set_tick (TkStopped false) st)
        | TkNone => Wait
        end in
      match pending, stopCh st with
      | true, ChClosed => match choice with SelTick => take_tick | SelStop => Ok SelStop st end
      | true, _ => take_tick
      | false, ChClosed => Ok SelStop st
      | false, _ => Wait
      end
  | OsGetenv name => Ok (Getenv (world st) name) st
  | AwsLoadDefaultConfig region profile =>
      let '(r, w) := LoadDefaultConfig (world st) region profile in
      Ok r (set_world w (EvLoadDefaultConfig region profile r) st)
  | Ec2Describe c name m =>
      let '(r, w) := DescribeManagedPrefixLists (world st) c name m in
      Ok r (set_world w (EvDescribe c name r) st)
  | Ec2GetEntries c id m tok =>
      let '(r, w) := GetManagedPrefixListEntries (world st) c id m tok in
      Ok r (set_world w (EvGetEntries c id tok r) st)
  | Warn msg => Ok tt (log (EvWarn msg) st)
  end.

(** ** Programs *)

(** A goroutine: it has returned, it performs an operation and goes on with
    the result, or it is in a loop that the bound given to the embedding did
    not reach the end of. *)
Inductive prog (A : Type) : Type :=
| Ret (a : A)
| Vis {X : Type} (o : op X) (k : X → prog A)
| Spin.
Arguments Ret {A} a.
Arguments Vis {A X} o k.
Arguments Spin {A}.

Fixpoint bind {A B} (p : prog A) (f : A → prog B) : prog B :=
  match p with
  | Ret a => f a
  | Vis o k => Vis o (λ x, bind (k x) f)
  | Spin => Spin
  end.

#[export] Instance prog_ret : MRet prog := @Ret.
#[export] Instance prog_bind : MBind prog := λ A B f p, bind p f.

Definition call {X} (o : op X) : prog X := Vis o Ret.

(** The outcome of a goroutine that runs alone, with the state it stopped
    in: it returned, it panicked, it waits for something no other goroutine
    is there to provide, or the bound of a loop was reached. *)
Inductive outcome (A : Type) :=
| Done (a : A) (st : state)
| Panicked (st : state)
| Blocked (st : state)
| OutOfFuel (st : state).
Arguments Done {A} a st.
Arguments Panicked {A} st.
Arguments Blocked {A} st.
Arguments OutOfFuel {A} st.

Definition state_of {A} (o : outcome A) : state :=
  match o with Done _ st | Panicked st | Blocked st | OutOfFuel st => st end.

Fixpoint run {A} (p : prog A) (st : state) : outcome A :=
  match p with
  | Ret a => Done a st
  | Vis o k =>
      match exec SelStop o st with
      | Ok x st' => run (k x) st'
      | Fault => Panicked st
      | Wait => Blocked st
      end
  | Spin => OutOfFuel st
  end.

(** ** The methods of [*Source] *)

(** [pageTokenOrNil]: the nil pointer and the pointer to the empty string
    both give nil. *)
Definition pageTokenOrNil (t : option string) : option string :=
  match t with
  | None => None
  | Some s => if decide (s = ""%string) then None else Some s
  end.

(** The loop over [out.PrefixLists] of [resolvePrefixListID]: the first list
    whose name is non-nil and equal to [n] and whose id is non-nil. *)
Fixpoint scanPrefixLists (n : string) (pls : list ec2types.ManagedPrefixList)
  : option string :=
  match pls with
  | [] => None
  | pl :: rest =>
      match ec2types.PrefixListName pl, ec2types.PrefixListId pl with
      | Some nm, Some id => if decide (nm = n) then Some id else scanPrefixLists n rest
      | _, _ => scanPrefixLists n rest
      end
  end.

(** [resolvePrefixListID] returns a string and an error, as in Go. *)
Definition resolvePrefixListID (s : Source) (ec2c : aws_Config)
    (explicitID name defaultName : string) : prog (string * option error) :=
  if decide (explicitID = ""%string) then
    let n := if decide (name = ""%string) then defaultName else name in
    r ← call (Ec2Describe ec2c n 100%Z);
    match r with
    | inl err => Ret (""%string, Some (ErrDescribe err))
    | inr pls =>
        match scanPrefixLists n pls with
        | Some id => Ret (id, None)
        | None => Ret (""%string, Some (ErrNotFound n (Region s)))
        end
    end
  else Ret (explicitID, None).

Definition loadAWSConfig (s : Source) : prog (aws_error + aws_Config) :=
  let profile := if decide (AWSProfile s = ""%string) then None else Some (AWSProfile s) in
  r ← call (AwsLoadDefaultConfig (Region s) profile);
  match r with
  | Some err => Ret (inl err)
  | None =>
      Ret (inr {| cfg_region := Region s;
                  cfg_profile := profile;
                  cfg_role := if decide (RoleARN s = ""%string) then None
                              else Some (RoleARN s) |})
  end.

(** The builtin [copy]: it moves the first elements of [from], as many as
    both slices have, one after the other, and returns their number.  Another
    goroutine may run between two of the moves. *)
Fixpoint copy_from (dst from : slice) (i n : nat) : prog unit :=
  match n with
  | 0 => Ret tt
  | S n' => _ ← call (CopyElem dst from i); copy_from dst from (S i) n'
  end.

Definition copy (dst from : slice) : prog nat :=
  _ ← copy_from dst from 0 (s_len dst `min` s_len from);
  Ret (s_len dst `min` s_len from).

(** [snapshot]: a copy of [s.current] made under the read lock.  The
    deferred [RUnlock] runs when the function returns. *)
Definition snapshot : prog slice :=
  _ ← call RLock;
  c ← call LoadCurrent;
  out ← call (MakeSlice (s_len c));
  c' ← call LoadCurrent;
  _ ← copy out c';
  _ ← call RUnlock;
  Ret out.

(** [GetIPRanges] has the body of [snapshot]; its request argument is not
    used. *)
Definition GetIPRanges : prog slice :=
  _ ← call RLock;
  c ← call LoadCurrent;
  out ← call (MakeSlice (s_len c));
  c' ← call LoadCurrent;
  _ ← copy out c';
  _ ← call RUnlock;
  Ret out.

(** [refreshOnce], lines 209-226: the ids to fetch, v4 first. *)
Definition refreshOnce_resolve (s : Source) (ec2c : aws_Config) : prog (list string) :=
  '(idV4, err) ← resolvePrefixListID s ec2c (PrefixListID s) (PrefixListName s)
                   defaultPLNameV4;
  _ ← (if err is Some _
       then call (Warn "cloudfront_origin_pl: could not resolve IPv4 prefix list; continuing"%string)
       else Ret tt);
  let ids := if decide (idV4 = ""%string) then [] else [idV4] in
  if IncludeIPv6 s then
    '(idV6, err) ← resolvePrefixListID s ec2c ""%string defaultPLNameV6 defaultPLNameV6;
    _ ← (if err is Some _
         then call (Warn "cloudfront_origin_pl: skipping IPv6 list"%string)
         else Ret tt);
    Ret (if decide (idV6 = ""%string) then ids else ids ++ [idV6])
  else Ret ids.

(** The loop over [out.Entries], lines 242-250, on the map [seen] and the
    slice [all]. *)
Fixpoint scanEntries (es : list ec2types.PrefixListEntry)
    (seen : gset string) (all : list Prefix) : gset string * list Prefix :=
  match es with
  | [] => (seen, all)
  | e :: rest =>
      match ec2types.Cidr e with
      | None => scanEntries rest seen all
      | Some c =>
          if decide (c ∈ seen) then scanEntries rest seen all
          else match ParsePrefix c with
               | None => scanEntries rest seen all
               | Some pfx => scanEntries rest ({[c]} ∪ seen) (all ++ [pfx])
               end
      end
  end.

(** The paging loop of one list, lines 233-255.  [fuel] bounds the number
    of pages asked for; the Go loop has no bound. *)
Fixpoint fetchPages (fuel : nat) (ec2c : aws_Config) (id : string)
    (pageToken : option string) (seen : gset string) (all : list Prefix)
  : prog (error + gset string * list Prefix) :=
  match fuel with
  | 0 => Spin
  | S fuel' =>
      r ← call (Ec2GetEntries ec2c id maxResultsPerPage (pageTokenOrNil pageToken));
      match r with
      | inl err => Ret (inl (ErrGetEntries id err))
      | inr out =>
          let '(seen', all') := scanEntries (ec2.Entries out) seen all in
          match ec2.NextToken out with
          | None => Ret (inr (seen', all'))
          | Some t =>
              if decide (t = ""%string) then Ret (inr (seen', all'))
              else fetchPages fuel' ec2c id (ec2.NextToken out) seen' all'
          end
      end
  end.

(** The loop over [ids], lines 231-256. *)
Fixpoint fetchLists (fuel : nat) (ec2c : aws_Config) (ids : list string)
    (seen : gset string) (all : list Prefix)
  : prog (error + gset string * list Prefix) :=
  match ids with
  | [] => Ret (inr (seen, all))
  | id :: rest =>
      r ← fetchPages fuel ec2c id (Some ""%string) seen all;
      match r with
      | inl err => Ret (inl err)
      | inr (seen', all') => fetchLists fuel ec2c rest seen' all'
      end
  end.

(** [refreshOnce], lines 228-256. *)
Definition refreshOnce_fetch (fuel : nat) (ec2c : aws_Config) (ids : list string)
  : prog (error + list Prefix) :=
  r ← fetchLists fuel ec2c ids ∅ [];
  match r with
  | inl err => Ret (inl err)
  | inr (_, all) => Ret (inr all)
  end.

(** [refreshOnce], lines 258-281.  The slice [all] is local to the pass
    until it is stored in [s.current]; it is kept as the list of its
    elements, and its backing array enters the heap when it is stored. *)
Definition refreshOnce_install (s : Source) (all : list Prefix) : prog (option error) :=
  if decide (length all = 0) then
    prev ← snapshot;
    if bool_decide (s_len prev = 0) && RequireNonEmpty s then Ret (Some ErrResolvedZero)
    else if decide (s_len prev = 0) then
      _ ← call (Warn "cloudfront_origin_pl: resolved zero prefixes; leaving empty set (will retry)"%string);
      _ ← call Lock;
      _ ← call (StoreCurrent nil_slice);
      _ ← call Unlock;
      Ret None
    else
      _ ← call (Warn "cloudfront_origin_pl: refresh yielded zero prefixes; keeping previous set"%string);
      Ret None
  else
    a ← call (AllocSlice all);
    _ ← call Lock;
    _ ← call (StoreCurrent a);
    _ ← call Unlock;
    Ret None.

(** [refreshOnce], lines 203-256: what the pass gathers, or the error it
    returns before it looks at [s.current]. *)
Definition refreshOnce_gather (s : Source) (fuel : nat) : prog (error + list Prefix) :=
  r ← loadAWSConfig s;
  match r with
  | inl err => Ret (inl (ErrAwsConfig err))
  | inr ec2c =>
      ids ← refreshOnce_resolve s ec2c;
      refreshOnce_fetch fuel ec2c ids
  end.

Definition refreshOnce (fuel : nat) : prog (option error) :=
  s ← call GetSource;
  r ← refreshOnce_gather s fuel;
  match r with
  | inl err => Ret (Some err)
  | inr all => refreshOnce_install s all
  end.

(** The goroutine that [Provision] starts, lines 112-123.  [rounds] bounds
    the number of iterations of its loop; the Go loop has no bound. *)
Fixpoint refresher_loop (rounds fuel : nat) : prog unit :=
  match rounds with
  | 0 => Spin
  | S rounds' =>
      c ← call Select;
      match c with
      | SelTick => _ ← refreshOnce fuel; refresher_loop rounds' fuel
      | SelStop => Ret tt
      end
  end.

Definition refresher (rounds fuel : nat) : prog unit :=
  s ← call GetSource;
  _ ← call (NewTicker (Refresh s));
  _ ← refresher_loop rounds fuel;
  call StopTicker.

Definition Provision (fuel : nat) : prog (option error) :=
  s ← call GetSource;
  region ← (if decide (Region s = ""%string) then
              env ← call (OsGetenv "AWS_REGION"%string);
              if decide (env = ""%string) then
                env ← call (OsGetenv "AWS_DEFAULT_REGION"%string);
                if decide (env = ""%string) then Ret defaultRegion else Ret env
              else Ret env
            else Ret (Region s));
  let refresh := if decide (Refresh s = 0%Z) then defaultRefresh else Refresh s in
  let name := if bool_decide (PrefixListID s = ""%string) && bool_decide (PrefixListName s = ""%string)
              then defaultPLNameV4 else PrefixListName s in
  _ ← call (SetSource {| Region := region; PrefixListID := PrefixListID s;
                         PrefixListName := name; IncludeIPv6 := IncludeIPv6 s;
                         Refresh := refresh; AWSProfile := AWSProfile s;
                         RoleARN := RoleARN s; RequireNonEmpty := RequireNonEmpty s |});
  err ← refreshOnce fuel;
  match err with
  | Some e => Ret (Some e)
  | None =>
      snap ← snapshot;
      let start : prog (option error) :=
        _ ← call MakeStopCh;
        _ ← call GoRefresher;
        Ret None in
      if decide (s_len snap = 0) then
        if RequireNonEmpty s then Ret (Some ErrNoPrefixesInitial)
        else
          _ ← call (Warn "cloudfront_origin_pl: initial fetch returned zero prefixes; running with empty set"%string);
          start
      else start
  end.

Definition Cleanup : prog (option error) :=
  isnil ← call StopChIsNil;
  _ ← (if negb isnil then call CloseStopCh else Ret tt);
  Ret None.


(** ** Notions the statements use *)

(** A program all of whose operations satisfy [P]. *)
Fixpoint only (P : ∀ X, op X → Prop) {A} (p : prog A) : Prop :=
  match p with
  | Ret _ => True
  | Vis o k => P _ o ∧ ∀ x, only P (k x)
  | Spin => True
  end.

(** The operations that talk to the world and touch nothing of the
    [Source] but its exported fields, which they read. *)
Definition world_op {X} (o : op X) : Prop :=
  match o with
  | GetSource | OsGetenv _ | AwsLoadDefaultConfig _ _
  | Ec2Describe _ _ _ | Ec2GetEntries _ _ _ _ | Warn _ => True
  | _ => False
  end.

(** The world operations other than the page request. *)
Definition lookup_op {X} (o : op X) : Prop :=
  match o with
  | GetSource | OsGetenv _ | AwsLoadDefaultConfig _ _
  | Ec2Describe _ _ _ | Warn _ => True
  | _ => False
  end.

(** The page request. *)
Definition page_op {X} (o : op X) : Prop :=
  match o with
  | Ec2GetEntries _ _ _ _ => True
  | _ => False
  end.

(** The operations other than a name lookup for a name that is not [n]. *)
Definition describes_only (n : string) {X} (o : op X) : Prop :=
  match o with
  | Ec2Describe _ name _ => name = n
  | _ => True
  end.

Definition describe_of (n : string) (e : event) : Prop :=
  match e with
  | EvDescribe _ name _ => name = n
  | _ => True
  end.

(** A program without a loop cut short by its bound. *)
Fixpoint returns {A} (p : prog A) : Prop :=
  match p with
  | Ret _ => True
  | Vis o k => ∀ x, returns (k x)
  | Spin => False
  end.

Definition not_describe {X} (o : op X) : Prop :=
  match o with
  | Ec2Describe _ _ _ => False
  | _ => True
  end.

(** Two states with the same [Source], memory, ticker and goroutines. *)
Definition same_memory (st st' : state) : Prop :=
  src st' = src st ∧ mu st' = mu st ∧ current st' = current st ∧
  stopCh st' = stopCh st ∧ heap st' = heap st ∧ tick st' = tick st ∧
  started st' = started st.

(** The events of a run from [st] to [st']. *)
Definition events_since (st st' : state) : list event :=
  drop (length (trace st)) (trace st').

Definition is_describe (e : event) : bool :=
  match e with EvDescribe _ _ _ => true | _ => false end.

(** The number of calls of [DescribeManagedPrefixLists] in a trace. *)
Definition describe_calls (tr : list event) : nat :=
  length (filter (λ e, is_describe e = true) tr).

(** The entries a trace delivered, page after page. *)
Definition delivered_by (e : event) : list ec2types.PrefixListEntry :=
  match e with
  | EvGetEntries _ _ _ (inr out) => ec2.Entries out
  | _ => []
  end.
Definition delivered (tr : list event) : list ec2types.PrefixListEntry :=
  concat (delivered_by <$> tr).

(** The address-range strings of entries, those with a nil [Cidr] left
    out. *)
Definition cidrs (es : list ec2types.PrefixListEntry) : list string :=
  omap ec2types.Cidr es.

(** A list without its repetitions, every element at the place of its first
    occurrence. *)
Fixpoint first_seen (l : list string) : list string :=
  match l with
  | [] => []
  | x :: r => x :: filter (λ y, y ≠ x) (first_seen r)
  end.

(** The keys a pass accepts from the strings it is delivered when it starts
    with the keys [seen]: those that parse and are not in [seen], without
    repetitions, in first-seen order. *)
Definition accepted (seen : gset string) (cs : list string) : list string :=
  first_seen (filter (λ c, (c ∉ seen) ∧ is_Some (ParsePrefix c)) cs).

(** [s.mu] is held by nobody. *)
Definition mutex_free (st : state) : Prop := mu st = unlocked.

(** A slice header that points into the heap, at an array of its length. *)
Definition slice_ok (h : gmap loc (list Prefix)) (sl : slice) : Prop :=
  match s_ptr sl with
  | None => s_len sl = 0
  | Some l => ∃ a, h !! l = Some a ∧ length a = s_len sl
  end.

(** Sequencing of outcomes. *)
Definition andthen {A B} (o : outcome A) (f : A → state → outcome B) : outcome B :=
  match o with
  | Done a st => f a st
  | Panicked st => Panicked st
  | Blocked st => Blocked st
  | OutOfFuel st => OutOfFuel st
  end.


(** The error a pass returns for an event, when the event is a page request
    that failed. *)
Definition page_failure (e : event) : option error :=
  match e with
  | EvGetEntries _ id _ (inl err) => Some (ErrGetEntries id err)
  | _ => None
  end.

Definition no_failure (evs : list event) : Prop :=
  Forall (λ e, page_failure e = None) evs.

Definition is_get_entries (e : event) : Prop :=
  match e with EvGetEntries _ _ _ _ => True | _ => False end.

Definition not_get_entries {X} (o : op X) : Prop :=
  match o with
  | Ec2GetEntries _ _ _ _ => False
  | _ => True
  end.

(** What the outcome of the paging loops has to do with the events [evs] of
    their run, when they start with [seen] and [all]. *)
Definition fetch_spec (seen : gset string) (all : list Prefix) (evs : list event)
    (o : outcome (error + gset string * list Prefix)) : Prop :=
  match o with
  | Done (inr sa) _ =>
      no_failure evs ∧ sa = scanEntries (delivered evs) seen all
  | Done (inl err) _ =>
      ∃ evs0 ev, evs = evs0 ++ [ev] ∧ page_failure ev = Some err ∧ no_failure evs0
  | OutOfFuel _ => no_failure evs
  | _ => False
  end.

(** The same for the pass up to line 256. *)
Definition gather_spec (evs : list event) (o : outcome (error + list Prefix)) : Prop :=
  match o with
  | Done (inr all) _ =>
      no_failure evs ∧ all = (scanEntries (delivered evs) ∅ []).2
  | Done (inl err) _ =>
      (no_failure evs ∧ ∃ e, err = ErrAwsConfig e) ∨
      (∃ evs0 ev, evs = evs0 ++ [ev] ∧ page_failure ev = Some err ∧ no_failure evs0)
  | OutOfFuel _ => no_failure evs
  | _ => False
  end.

(** A state further on in time: another world, more events. *)
Definition advance (w : W) (evs : list event) (st : state) : state :=
  {| src := src st; mu := mu st; current := current st; stopCh := stopCh st;
     heap := heap st; tick := tick st; started := started st;
     world := w; trace := trace st ++ evs |}.

(** A page after which the provider announces no further page: the
    continuation token is absent or empty. *)
Definition last_page (out : ec2.GetManagedPrefixListEntriesOutput) : Prop :=
  ec2.NextToken out = None ∨ ec2.NextToken out = Some ""%string.

(** From the world [w] on, the provider answers the request for list [id] with
    token [tok], and the requests with the tokens it hands out, with the
    pages [outs], the last of which is a last page, and is then in [w']. *)
Inductive answers (c : aws_Config) (id : string)
  : W → option string → list ec2.GetManagedPrefixListEntriesOutput → W → Prop :=
| answers_last w tok out w' :
    GetManagedPrefixListEntries w c id maxResultsPerPage tok = (inr out, w') →
    last_page out →
    answers c id w tok [out] w'
| answers_more w tok out w1 outs w' :
    GetManagedPrefixListEntries w c id maxResultsPerPage tok = (inr out, w1) →
    ¬ last_page out →
    answers c id w1 (ec2.NextToken out) outs w' →
    answers c id w tok (out :: outs) w'.

(** The requests that ask for these pages, each with the token of the page
    before. *)
Fixpoint page_events (c : aws_Config) (id : string) (tok : option string)
    (outs : list ec2.GetManagedPrefixListEntriesOutput) : list event :=
  match outs with
  | [] => []
  | out :: rest =>
      EvGetEntries c id tok (inr out) :: page_events c id (ec2.NextToken out) rest
  end.

(** The same for several lists, one after the other, each from its first
    page. *)
Inductive serves (c : aws_Config)
  : W → list string → list (list ec2.GetManagedPrefixListEntriesOutput) → W → Prop :=
| serves_nil w : serves c w [] [] w
| serves_cons w id ids outs outss w1 w' :
    answers c id w None outs w1 →
    serves c w1 ids outss w' →
    serves c w (id :: ids) (outs :: outss) w'.

Fixpoint lists_events (c : aws_Config) (ids : list string)
    (outss : list (list ec2.GetManagedPrefixListEntriesOutput)) : list event :=
  match ids, outss with
  | id :: ids', outs :: outss' => page_events c id None outs ++ lists_events c ids' outss'
  | _, _ => []
  end.

(** All entries of some pages. *)
Definition entries_of (outs : list ec2.GetManagedPrefixListEntriesOutput)
  : list ec2types.PrefixListEntry :=
  concat (ec2.Entries <$> outs).

(** The client configuration a pass of [s] works with. *)
Definition config_of (s : Source) : aws_Config :=
  {| cfg_region := Region s;
     cfg_profile := if decide (AWSProfile s = ""%string) then None else Some (AWSProfile s);
     cfg_role := if decide (RoleARN s = ""%string) then None else Some (RoleARN s) |}.

(** The name a pass of [s] looks up for IPv4. *)
Definition name_of (s : Source) : string :=
  if decide (PrefixListName s = ""%string) then defaultPLNameV4 else PrefixListName s.

(** A pass from [st] finds the world like this: no explicit identifier and
    no IPv6; the configuration loads; the lookup of the name answers with
    candidates among which the first with that name and an id has the
    non-empty id [id]; the provider then answers the requests for the pages
    of [id] with [outs]. *)
Definition single_list_pass (st : state) (id : string)
    (outs : list ec2.GetManagedPrefixListEntriesOutput) : Prop :=
  PrefixListID (src st) = ""%string ∧ IncludeIPv6 (src st) = false ∧
  id ≠ ""%string ∧
  ∃ w1 pls w2 w3,
    LoadDefaultConfig (world st) (Region (src st)) (cfg_profile (config_of (src st)))
      = (None, w1) ∧
    DescribeManagedPrefixLists w1 (config_of (src st)) (name_of (src st)) 100
      = (inr pls, w2) ∧
    scanPrefixLists (name_of (src st)) pls = Some id ∧
    answers (config_of (src st)) id w2 None outs w3.

(** Every array of [h] is in [h'] as it is. *)
Definition heap_kept (h h' : gmap loc (list Prefix)) : Prop :=
  ∀ l a, h !! l = Some a → h' !! l = Some a.

(** The operations that store into no array that exists. *)
Definition keeps_arrays {X} (o : op X) : Prop :=
  match o with
  | CopyElem _ _ _ | SliceSet _ _ _ => False
  | _ => True
  end.

(** ** Notions for the life cycle of the module *)

(** The operations that leave the exported fields, the stop channel, the
    ticker and the goroutines alone. *)
Definition quiet_op {X} (o : op X) : Prop :=
  match o with
  | SetSource _ | MakeStopCh | CloseStopCh | GoRefresher
  | NewTicker _ | StopTicker | Select => False
  | _ => True
  end.

(** Two states with the same [Source] fields, stop channel, ticker and
    goroutines. *)
Definition same_control (st st' : state) : Prop :=
  src st' = src st ∧ stopCh st' = stopCh st ∧ tick st' = tick st ∧
  started st' = started st.

(** The errors a pass builds itself, as opposed to those of the name
    lookups. *)
Definition pass_error (e : error) : Prop :=
  match e with
  | ErrAwsConfig _ | ErrGetEntries _ _ | ErrResolvedZero => True
  | _ => False
  end.

(** The region [Provision] settles on, lines 82-90. *)
Definition region_of (w : W) (s : Source) : string :=
  if decide (Region s = ""%string) then
    if decide (Getenv w "AWS_REGION" = ""%string) then
      if decide (Getenv w "AWS_DEFAULT_REGION" = ""%string) then defaultRegion
      else Getenv w "AWS_DEFAULT_REGION"
    else Getenv w "AWS_REGION"
  else Region s.

(** The exported fields as [Provision] leaves them, lines 82-97. *)
Definition with_defaults (w : W) (s : Source) : Source :=
  {| Region := region_of w s;
     PrefixListID := PrefixListID s;
     PrefixListName :=
       if bool_decide (PrefixListID s = ""%string) && bool_decide (PrefixListName s = ""%string)
       then defaultPLNameV4 else PrefixListName s;
     IncludeIPv6 := IncludeIPv6 s;
     Refresh := if decide (Refresh s = 0%Z) then defaultRefresh else Refresh s;
     AWSProfile := AWSProfile s;
     RoleARN := RoleARN s;
     RequireNonEmpty := RequireNonEmpty s |}.

(** The state in which [Provision] has started its refresher, line 111
    on. *)
Definition refresher_started (st : state) : state :=
  set_started (S (started st)) (set_stopCh ChOpen st).

(** A value a program can return. *)
Fixpoint leaf {A} (p : prog A) (a : A) : Prop :=
  match p with
  | Ret b => a = b
  | Vis o k => ∃ x, leaf (k x) a
  | Spin => False
  end.

(** What a pass of [s] may ask of the provider: everything through the
    client made of the region, profile and role of [s]; the pages of a list
    whose id is not empty, and is the configured id when there is one and
    IPv6 is off; the lists of the configured name, or of the IPv4 default
    name when none is configured, and of the IPv6 default name. *)
Definition request_op (s : Source) {X} (o : op X) : Prop :=
  match o with
  | AwsLoadDefaultConfig region profile =>
      region = Region s ∧ profile = cfg_profile (config_of s)
  | Ec2Describe c n m =>
      c = config_of s ∧ m = 100%Z ∧ (n = name_of s ∨ n = defaultPLNameV6)
  | Ec2GetEntries c id m _ =>
      c = config_of s ∧ m = 100%Z ∧ id ≠ ""%string ∧
      (PrefixListID s ≠ ""%string → IncludeIPv6 s = false → id = PrefixListID s)
  | _ => True
  end.

Definition request_ok (s : Source) (e : event) : Prop :=
  match e with
  | EvLoadDefaultConfig region profile _ =>
      region = Region s ∧ profile = cfg_profile (config_of s)
  | EvDescribe c n _ =>
      c = config_of s ∧ (n = name_of s ∨ n = defaultPLNameV6)
  | EvGetEntries c id _ _ =>
      c = config_of s ∧ id ≠ ""%string ∧
      (PrefixListID s ≠ ""%string → IncludeIPv6 s = false → id = PrefixListID s)
  | EvWarn _ => True
  end.

(** A name lookup that gives no id for the name [n]: it failed, or no list
    it returned has the name [n] and an id. *)
Definition finds_nothing (n : string)
    (r : aws_error + list ec2types.ManagedPrefixList) : Prop :=
  match r with
  | inl _ => True
  | inr pls => scanPrefixLists n pls = None
  end.

(** A list that the loop of [resolvePrefixListID] passes over when it looks
    for [n]. *)
Definition passed_over (n : string) (pl : ec2types.ManagedPrefixList) : Prop :=
  ec2types.PrefixListName pl ≠ Some n ∨ ec2types.PrefixListId pl = None.

(** The two warnings of the name lookups. *)
Definition warn_v4 : event :=
  EvWarn "cloudfront_origin_pl: could not resolve IPv4 prefix list; continuing".
Definition warn_v6 : event := EvWarn "cloudfront_origin_pl: skipping IPv6 list".

(** ** Several goroutines *)

(** What a goroutine returned. *)
Inductive value := VSlice (sl : slice) | VErr (e : option error) | VUnit.

(** The goroutines of the module and of its host: a request that reads the
    ranges, a refresh pass, the host's calls of [Provision] and [Cleanup],
    and the refresher that [Provision] starts. *)
Definition go_read : prog value := out ← GetIPRanges; Ret (VSlice out).
Definition go_refresh (fuel : nat) : prog value := e ← refreshOnce fuel; Ret (VErr e).
Definition go_provision (fuel : nat) : prog value := e ← Provision fuel; Ret (VErr e).
Definition go_refresher (rounds fuel : nat) : prog value :=
  _ ← refresher rounds fuel; Ret VUnit.

(** The goroutines with the state they share, or a process that died of a
    panic. *)
Inductive system :=
| Running (ts : list (prog value)) (st : state)
| Crashed (st : state).

(** What happens next: goroutine [i] performs its next operation (and
    [select], should both its cases be ready, takes [c]), or the ticker puts
    a tick into its channel, which keeps one tick at most. *)
Inductive decision := Go (i : nat) (c : selected) | TickArrives.

Definition spawned (rounds fuel : nat) {X} (o : op X) : list (prog value) :=
  match o with
  | GoRefresher => [go_refresher rounds fuel]
  | _ => []
  end.

Definition schedule (rounds fuel : nat) (d : decision) (s : system) : option system :=
  match s with
  | Crashed _ => None
  | Running ts st =>
      match d with
      | TickArrives =>
          match tick st with
          | TkRunning _ => Some (Running ts (set_tick (TkRunning true) st))
          | _ => None
          end
      | Go i c =>
          match ts !! i with
          | Some (Vis o k) =>
              match exec c o st with
              | Ok x st' => Some (Running (<[i := k x]> ts ++ spawned rounds fuel o) st')
              | Fault => Some (Crashed st)
              | Wait => None
              end
          | _ => None
          end
      end
  end.

Fixpoint schedules (rounds fuel : nat) (ds : list decision) (s : system) : option system :=
  match ds with
  | [] => Some s
  | d :: ds' =>
      match schedule rounds fuel d s with
      | Some s' => schedules rounds fuel ds' s'
      | None => None
      end
  end.

Definition step (rounds fuel : nat) (s s' : system) : Prop :=
  ∃ d, schedule rounds fuel d s = Some s'.








(** *** Where a goroutine is *)

(** The rest of [snapshot], which is also the rest of [GetIPRanges], after
    each of its operations; [snap_copying out c i n] has [n] more elements
    to copy, from index [i] on. *)
Definition snap_locked : prog slice :=
  c ← call LoadCurrent;
  out ← call (MakeSlice (s_len c));
  c' ← call LoadCurrent;
  _ ← copy out c';
  _ ← call RUnlock;
  Ret out.

Definition snap_loaded (c : slice) : prog slice :=
  out ← call (MakeSlice (s_len c));
  c' ← call LoadCurrent;
  _ ← copy out c';
  _ ← call RUnlock;
  Ret out.

Definition snap_made (out : slice) : prog slice :=
  c' ← call LoadCurrent;
  _ ← copy out c';
  _ ← call RUnlock;
  Ret out.

Definition snap_copying (out c' : slice) (i n : nat) : prog slice :=
  _ ← (_ ← copy_from out c' i n; Ret (s_len out `min` s_len c'));
  _ ← call RUnlock;
  Ret out.

(** The rest of [refreshOnce] after its [snapshot], lines 260-274, and
    after the gathering, lines 258-281. *)
Definition install_after (s : Source) (prev : slice) : prog (option error) :=
  if bool_decide (s_len prev = 0) && RequireNonEmpty s then Ret (Some ErrResolvedZero)
  else if decide (s_len prev = 0) then
    _ ← call (Warn "cloudfront_origin_pl: resolved zero prefixes; leaving empty set (will retry)"%string);
    _ ← call Lock;
    _ ← call (StoreCurrent nil_slice);
    _ ← call Unlock;
    Ret None
  else
    _ ← call (Warn "cloudfront_origin_pl: refresh yielded zero prefixes; keeping previous set"%string);
    Ret None.

Definition pass_rest (s : Source) (r : error + list Prefix) : prog (option error) :=
  match r with
  | inl err => Ret (Some err)
  | inr all => refreshOnce_install s all
  end.

Definition store_rest (sl : slice) : prog (option error) :=
  _ ← call (StoreCurrent sl);
  _ ← call Unlock;
  Ret None.

Definition lock_rest (sl : slice) : prog (option error) :=
  _ ← call Lock;
  store_rest sl.

Definition unlock_rest : prog (option error) :=
  _ ← call Unlock;
  Ret None.

Definition finish (e : option error) : prog value := Ret (VErr e).

(** Who called [snapshot]: a read, or the pass of [s]. *)
Inductive caller := ByRead | ByPass (s : Source).

Definition resume (k : caller) (out : slice) : prog value :=
  match k with
  | ByRead => Ret (VSlice out)
  | ByPass s => e ← install_after s out; finish e
  end.

(** A stage [p] of [snapshot] in its caller: [GetIPRanges] called by a
    read, [refreshOnce] called by a pass. *)
Definition after (k : caller) (p : prog slice) : prog value :=
  match k with
  | ByRead => out ← p; Ret (VSlice out)
  | ByPass s => e ← (prev ← p; install_after s prev); finish e
  end.

(** The points of a read and of a pass at which another goroutine may
    run. *)
Inductive point :=
| AtSnapshot (k : caller)
| AtLocked (k : caller)
| AtLoaded (k : caller) (c : slice)
| AtMade (k : caller) (out : slice)
| AtCopying (k : caller) (out c : slice) (i n : nat)
| AtReturned (out : slice)
| AtPass (fuel : nat)
| AtGather (s : Source) (p : prog (error + list Prefix))
| AtWarnLock
| AtLock (sl : slice)
| AtStore (sl : slice)
| AtUnlock
| AtWarnKeep
| AtDone (e : option error).

Definition prog_at (pt : point) : prog value :=
  match pt with
  | AtSnapshot k => after k snapshot
  | AtLocked k => after k snap_locked
  | AtLoaded k c => after k (snap_loaded c)
  | AtMade k out => after k (snap_made out)
  | AtCopying k out c i n => after k (snap_copying out c i n)
  | AtReturned out => Ret (VSlice out)
  | AtPass fuel => go_refresh fuel
  | AtGather s p => e ← (r ← p; pass_rest s r); finish e
  | AtWarnLock =>
      e ← (_ ← call (Warn "cloudfront_origin_pl: resolved zero prefixes; leaving empty set (will retry)"%string);
           lock_rest nil_slice);
      finish e
  | AtLock sl => e ← lock_rest sl; finish e
  | AtStore sl => e ← store_rest sl; finish e
  | AtUnlock => e ← unlock_rest; finish e
  | AtWarnKeep =>
      e ← (_ ← call (Warn "cloudfront_origin_pl: refresh yielded zero prefixes; keeping previous set"%string);
           Ret None);
      finish e
  | AtDone e => finish e
  end.

(** Whether a goroutine at a point holds the read lock, the write lock. *)
Definition reading (pt : point) : nat :=
  match pt with
  | AtLocked _ | AtLoaded _ _ | AtMade _ _ | AtCopying _ _ _ _ _ => 1
  | _ => 0
  end.

Definition writing (pt : point) : nat :=
  match pt with
  | AtStore _ | AtUnlock => 1
  | _ => 0
  end.

(** The array a goroutine at a point has allocated and still uses: the copy
    that [snapshot] fills and returns, the array a pass is about to
    publish. *)
Definition cell_of (pt : point) : option loc :=
  match pt with
  | AtMade _ out | AtCopying _ out _ _ _ | AtReturned out => s_ptr out
  | AtLock sl | AtStore sl => s_ptr sl
  | _ => None
  end.

(** What a goroutine at a point knows of the state [st], [h] being the
    snapshots that have been published so far. *)
Definition knows (st : state) (h : list (list Prefix)) (pt : point) : Prop :=
  match pt with
  | AtLoaded _ c => c = current st
  | AtMade _ out =>
      s_len out = s_len (current st) ∧
      ∃ l a, s_ptr out = Some l ∧ heap st !! l = Some a ∧ length a = s_len out
  | AtCopying _ out c i n =>
      c = current st ∧ s_len out = s_len (current st) ∧ i + n = s_len out ∧
      ∃ l a, s_ptr out = Some l ∧ heap st !! l = Some a ∧ length a = s_len out ∧
             take i a = take i (published st)
  | AtReturned out =>
      is_Some (s_ptr out) ∧ elems (heap st) out ∈ h
  | AtGather _ p => only (@world_op) p
  | AtLock sl | AtStore sl => slice_ok (heap st) sl
  | _ => True
  end.

Definition state_in (s : system) : state :=
  match s with Running _ st | Crashed st => st end.

(** The runs of a system, with the snapshots that were published in the
    states they went through. *)
Inductive history (rounds fuel : nat) : system → list (list Prefix) → system → Prop :=
| history_start s : history rounds fuel s [published (state_in s)] s
| history_step s h s1 s2 :
    history rounds fuel s h s1 → step rounds fuel s1 s2 →
    history rounds fuel s (h ++ [published (state_in s2)]) s2.

(** What holds of goroutines at the points [pts] and the state they share
    all along a run of reads and passes. *)
Record consistent (pts : list point) (st : state) (h : list (list Prefix)) : Prop := {
  cons_knows : ∀ i pt, pts !! i = Some pt → knows st h pt;
  cons_cells : ∀ i pt l, pts !! i = Some pt → cell_of pt = Some l →
               is_Some (heap st !! l) ∧ s_ptr (current st) ≠ Some l;
  cons_apart : ∀ i j pi pj l, pts !! i = Some pi → pts !! j = Some pj →
               cell_of pi = Some l → cell_of pj = Some l → i = j;
  cons_current : slice_ok (heap st) (current st);
  cons_readers : readers (mu st) = sum_list (reading <$> pts);
  cons_writer : sum_list (writing <$> pts) = if writer (mu st) then 1 else 0;
  cons_exclusive : writer (mu st) = true → readers (mu st) = 0;
  cons_published : published st ∈ h
}.

(** The snapshots published in the states a list of decisions leads
    through. *)
Fixpoint trail (rounds fuel : nat) (ds : list decision) (s : system)
  : list (list Prefix) :=
  match ds with
  | [] => []
  | d :: ds' =>
      match schedule rounds fuel d s with
      | Some s' => published (state_in s') :: trail rounds fuel ds' s'
      | None => []
      end
  end.

(** *** Goroutines that can go on *)

(** A goroutine that has an operation left to do. *)
Definition unfinished (t : prog value) : Prop :=
  match t with
  | Vis _ _ => True
  | _ => False
  end.

(** A goroutine whose next operation completes in [st]. *)
Definition can_step (st : state) (t : prog value) : Prop :=
  match t with
  | Vis o _ => ∃ x st', exec SelStop o st = Ok x st'
  | _ => False
  end.

(** A goroutine whose next operation takes [s.mu]. *)
Definition at_lock (t : prog value) : Prop :=
  match t with
  | Vis RLock _ | Vis Lock _ => True
  | _ => False
  end.

(** * Properties *)

Ltac prog_simpl :=
  unfold mbind, prog_bind, mret, prog_ret, call in *; cbn [bind] in *.

(** ** Running programs *)

Lemma run_bind {A B} (p : prog A) (f : A → prog B) st :
  run (bind p f) st = andthen (run p st) (λ a st', run (f a) st').
Proof.
  revert st. induction p as [a|X o k IH|]; intros st; cbn; try done.
  destruct (exec SelStop o st); cbn; auto.
Qed.

Lemma only_bind P {A B} (p : prog A) (f : A → prog B) :
  only P p → (∀ a, only P (f a)) → only P (bind p f).
Proof.
  intros Hp Hf. induction p as [a|X o k IH|]; cbn in *; auto.
  destruct Hp as [Ho Hk]. split; auto.
Qed.

Lemma only_weaken (P Q : ∀ X, op X → Prop) {A} (p : prog A) :
  (∀ X (o : op X), P X o → Q X o) → only P p → only Q p.
Proof.
  intros HPQ. induction p as [a|X o k IH|]; cbn; auto.
  intros [Ho Hk]. split; auto.
Qed.

Lemma copy_from_only (P : ∀ X, op X → Prop) dst from i n :
  (∀ j, P _ (CopyElem dst from j)) → only P (copy_from dst from i n).
Proof.
  intros HP. revert i. induction n as [|n IH]; intros i; [done|].
  cbn. split; [apply HP|]. intros _. apply IH.
Qed.

Lemma snapshot_only (P : ∀ X, op X → Prop) :
  P _ RLock → P _ LoadCurrent → (∀ n, P _ (MakeSlice n)) →
  (∀ dst from j, P _ (CopyElem dst from j)) → P _ RUnlock →
  only P snapshot.
Proof.
  intros H1 H2 H3 H4 H5. unfold snapshot, copy. prog_simpl.
  split; [done|]. intros _. split; [done|]. intros c. split; [done|]. intros out.
  split; [done|]. intros c'.
  apply only_bind; [|intros _; by split].
  apply only_bind; [by apply copy_from_only|done].
Qed.

Lemma refreshOnce_install_only (P : ∀ X, op X → Prop) s all :
  P _ RLock → P _ LoadCurrent → (∀ n, P _ (MakeSlice n)) →
  (∀ dst from j, P _ (CopyElem dst from j)) → P _ RUnlock →
  (∀ msg, P _ (Warn msg)) → P _ Lock → (∀ sl, P _ (StoreCurrent sl)) → P _ Unlock →
  (∀ l, P _ (AllocSlice l)) →
  only P (refreshOnce_install s all).
Proof.
  intros. unfold refreshOnce_install. destruct (decide (length all = 0)).
  - apply only_bind; [by apply snapshot_only|]. intros prev.
    prog_simpl. repeat case_match; cbn; auto 20.
  - prog_simpl. cbn. auto 20.
Qed.

Lemma andthen_assoc {A B C} (o : outcome A) (f : A → state → outcome B)
    (g : B → state → outcome C) :
  andthen (andthen o f) g = andthen o (λ a st, andthen (f a st) g).
Proof. by destruct o. Qed.

Lemma state_of_andthen {A B} (o : outcome A) (f : A → state → outcome B) :
  state_of (andthen o f) =
  match o with Done a st => state_of (f a st) | _ => state_of o end.
Proof. by destruct o. Qed.

(** Every operation leaves the trace it found and appends to it. *)
Lemma exec_trace c {X} (o : op X) st x st' :
  exec c o st = Ok x st' → ∃ evs, trace st' = trace st ++ evs.
Proof.
  destruct o; cbn; intros Hx;
    repeat (case_match; try done);
    simplify_eq; cbn;
    try (by exists []; rewrite app_nil_r);
    by eexists [_].
Qed.

Lemma exec_world_op c {X} (o : op X) st :
  world_op o → ∃ x st', exec c o st = Ok x st' ∧ same_memory st st'.
Proof.
  destruct o; cbn; try done; intros _;
    repeat case_match; eexists _, _; (split; [done|]); by repeat split.
Qed.

Lemma same_memory_refl st : same_memory st st.
Proof. by repeat split. Qed.

Lemma same_memory_trans st1 st2 st3 :
  same_memory st1 st2 → same_memory st2 st3 → same_memory st1 st3.
Proof.
  unfold same_memory. intros (?&?&?&?&?&?&?) (?&?&?&?&?&?&?).
  repeat split; congruence.
Qed.

(** A program of world operations neither panics nor waits, and leaves the
    memory alone. *)
Lemma run_world_only {A} (p : prog A) st :
  only (@world_op) p →
  same_memory st (state_of (run p st)) ∧
  (∀ st', run p st ≠ Panicked st') ∧ (∀ st', run p st ≠ Blocked st').
Proof.
  revert st. induction p as [a|X o k IH|]; intros st Hp; cbn in *.
  - split; [apply same_memory_refl|done].
  - destruct Hp as [Ho Hk].
    destruct (exec_world_op SelStop o st Ho) as (x & st' & -> & Hm).
    destruct (IH x st' (Hk x)) as (Hm' & ? & ?).
    split; [by eapply same_memory_trans|done].
  - split; [apply same_memory_refl|done].
Qed.

Lemma run_trace {A} (p : prog A) st :
  ∃ evs, trace (state_of (run p st)) = trace st ++ evs.
Proof.
  revert st. induction p as [a|X o k IH|]; intros st; cbn;
    try (by exists []; rewrite app_nil_r).
  destruct (exec SelStop o st) as [x st'| |] eqn:Hx; cbn;
    try (by exists []; rewrite app_nil_r).
  destruct (exec_trace _ _ _ _ _ Hx) as [evs1 E1].
  destruct (IH x st') as [evs2 E2].
  exists (evs1 ++ evs2). by rewrite E2, E1, app_assoc.
Qed.

Lemma events_since_app st st' evs :
  trace st' = trace st ++ evs → events_since st st' = evs.
Proof. unfold events_since. intros ->. by rewrite drop_app_length. Qed.

Lemma events_since_trans st1 st2 st3 evs1 evs2 :
  trace st2 = trace st1 ++ evs1 → trace st3 = trace st2 ++ evs2 →
  events_since st1 st3 = evs1 ++ evs2.
Proof.
  intros E1 E2. apply events_since_app. by rewrite E2, E1, app_assoc.
Qed.

(** ** The programs of the fetch are world programs *)

Ltac only_tac :=
  repeat first
    [ progress (unfold mbind, prog_bind, mret, prog_ret, call; cbn)
    | split; [done|]
    | done
    | intros ?
    | case_match ].

Lemma returns_bind {A B} (p : prog A) (f : A → prog B) :
  returns p → (∀ a, returns (f a)) → returns (bind p f).
Proof.
  intros Hp Hf. induction p as [a|X o k IH|]; cbn in *; auto.
Qed.

Lemma lookup_world {A} (p : prog A) : only (@lookup_op) p → only (@world_op) p.
Proof. apply only_weaken. by intros X []. Qed.

Lemma lookup_not_get_entries {A} (p : prog A) :
  only (@lookup_op) p → only (@not_get_entries) p.
Proof. apply only_weaken. by intros X []. Qed.

Lemma run_world_returns {A} (p : prog A) st :
  only (@world_op) p → returns p → ∃ a st', run p st = Done a st'.
Proof.
  revert st. induction p as [a|X o k IH|]; intros st Hp Hr; cbn in *; [by eauto| |done].
  destruct Hp as [Ho Hk].
  destruct (exec_world_op SelStop o st Ho) as (x & st' & -> & _). by apply IH.
Qed.

Lemma resolvePrefixListID_lookup s c e n d :
  only (@lookup_op) (resolvePrefixListID s c e n d) ∧
  returns (resolvePrefixListID s c e n d).
Proof. unfold resolvePrefixListID. split; only_tac. Qed.

Lemma loadAWSConfig_lookup s :
  only (@lookup_op) (loadAWSConfig s) ∧ returns (loadAWSConfig s).
Proof. unfold loadAWSConfig. split; only_tac. Qed.

Lemma refreshOnce_resolve_lookup s c :
  only (@lookup_op) (refreshOnce_resolve s c) ∧ returns (refreshOnce_resolve s c).
Proof.
  unfold refreshOnce_resolve. split.
  - apply only_bind; [apply resolvePrefixListID_lookup|intros [idV4 err]].
    apply only_bind; [only_tac|intros _].
    case_match; [|done].
    apply only_bind; [apply resolvePrefixListID_lookup|intros [idV6 err']].
    apply only_bind; [only_tac|intros _]. only_tac.
  - apply returns_bind; [apply resolvePrefixListID_lookup|intros [idV4 err]].
    apply returns_bind; [only_tac|intros _].
    case_match; [|done].
    apply returns_bind; [apply resolvePrefixListID_lookup|intros [idV6 err']].
    apply returns_bind; [only_tac|intros _]. only_tac.
Qed.

Lemma fetchPages_pages fuel c id tok seen all :
  only (@page_op) (fetchPages fuel c id tok seen all).
Proof.
  revert tok seen all. induction fuel as [|fuel IH]; intros tok seen all; [done|].
  cbn. split; [done|]. intros [err|out]; cbn; [done|].
  destruct (scanEntries _ _ _) as [seen' all'].
  repeat case_match; try done; apply IH.
Qed.

Lemma fetchLists_pages fuel c ids seen all :
  only (@page_op) (fetchLists fuel c ids seen all).
Proof.
  revert seen all. induction ids as [|id ids IH]; intros seen all; [done|].
  cbn. apply only_bind; [apply fetchPages_pages|].
  intros [err|[seen' all']]; [done|apply IH].
Qed.

Lemma refreshOnce_fetch_pages fuel c ids :
  only (@page_op) (refreshOnce_fetch fuel c ids).
Proof.
  apply only_bind; [apply fetchLists_pages|]. by intros [err|[seen all]].
Qed.

Lemma pages_world {A} (p : prog A) : only (@page_op) p → only (@world_op) p.
Proof. apply only_weaken. by intros X []. Qed.

Lemma pages_not_describe {A} (p : prog A) : only (@page_op) p → only (@not_describe) p.
Proof. apply only_weaken. by intros X []. Qed.

Lemma refreshOnce_fetch_world fuel c ids :
  only (@world_op) (refreshOnce_fetch fuel c ids).
Proof. apply pages_world, refreshOnce_fetch_pages. Qed.

Lemma refreshOnce_gather_world s fuel : only (@world_op) (refreshOnce_gather s fuel).
Proof.
  apply only_bind; [apply lookup_world, loadAWSConfig_lookup|]. intros [err|c]; [done|].
  apply only_bind; [apply lookup_world, refreshOnce_resolve_lookup|].
  intros ids. apply refreshOnce_fetch_world.
Qed.

(** ** Deduplication *)

Lemma filter_comm (P Q : string → Prop) `{∀ x, Decision (P x)} `{∀ x, Decision (Q x)}
    (l : list string) :
  filter P (filter Q l) = filter Q (filter P l).
Proof.
  rewrite !list_filter_filter. apply list_filter_iff. intros x. split; intros [? ?]; by split.
Qed.

Lemma filter_ne_id (x : string) (l : list string) : x ∉ l → filter (λ y, y ≠ x) l = l.
Proof.
  induction l as [|y l IH]; [done|]. intros Hx.
  rewrite filter_cons_True by set_solver. f_equal. apply IH. set_solver.
Qed.

Lemma filter_first_seen (P : string → Prop) `{∀ x, Decision (P x)} (l : list string) :
  filter P (first_seen l) = first_seen (filter P l).
Proof.
  induction l as [|x l IH]; [done|]. cbn [first_seen].
  rewrite !filter_cons. destruct (decide (P x)).
  - cbn [first_seen]. f_equal. by rewrite filter_comm, IH.
  - rewrite <- IH. rewrite list_filter_filter. apply list_filter_iff.
    intros y. split; [by intros [? ?]|]. intros Hy. split; [done|]. by intros ->.
Qed.

Lemma elem_of_first_seen (x : string) (l : list string) : x ∈ first_seen l ↔ x ∈ l.
Proof.
  induction l as [|y l IH]; [done|]. cbn [first_seen].
  rewrite !elem_of_cons, list_elem_of_filter, IH.
  destruct (decide (x = y)); intuition congruence.
Qed.

Lemma NoDup_first_seen (l : list string) : NoDup (first_seen l).
Proof.
  induction l as [|x l IH]; cbn [first_seen]; [constructor|].
  constructor; [|by apply NoDup_filter].
  rewrite list_elem_of_filter. intros [Hx _]. by apply Hx.
Qed.

Lemma first_seen_NoDup (l : list string) : NoDup l → first_seen l = l.
Proof.
  induction 1 as [|x l Hx Hl IH]; [done|]. cbn [first_seen].
  by rewrite IH, filter_ne_id.
Qed.

Lemma accepted_cons_skip seen c cs :
  ¬ ((c ∉ seen) ∧ is_Some (ParsePrefix c)) →
  accepted seen (c :: cs) = accepted seen cs.
Proof. intros Hc. unfold accepted. by rewrite filter_cons_False. Qed.

Lemma accepted_cons_take seen c cs :
  c ∉ seen → is_Some (ParsePrefix c) →
  accepted seen (c :: cs) = c :: accepted ({[c]} ∪ seen) cs.
Proof.
  intros Hc Hp. unfold accepted. rewrite filter_cons_True by done.
  cbn [first_seen]. f_equal. rewrite filter_first_seen. f_equal.
  rewrite list_filter_filter. apply list_filter_iff. intros y.
  rewrite not_elem_of_union, not_elem_of_singleton. tauto.
Qed.

Lemma cidrs_cons e es :
  cidrs (e :: es) =
  match ec2types.Cidr e with Some c => c :: cidrs es | None => cidrs es end.
Proof. unfold cidrs. cbn. by destruct (ec2types.Cidr e). Qed.

Lemma cidrs_app es1 es2 : cidrs (es1 ++ es2) = cidrs es1 ++ cidrs es2.
Proof. apply omap_app. Qed.

(** What the loop over the entries of a page computes: the keys it accepts
    join [seen], their prefixes are appended to [all] in the same order. *)
Lemma scanEntries_spec es seen all :
  ∃ ps, scanEntries es seen all
          = (list_to_set (accepted seen (cidrs es)) ∪ seen, all ++ ps) ∧
        Forall2 (λ k p, ParsePrefix k = Some p) (accepted seen (cidrs es)) ps.
Proof.
  revert seen all. induction es as [|e es IH]; intros seen all.
  - exists []. cbn. split; [|constructor].
    f_equal; [set_solver|by rewrite app_nil_r].
  - cbn [scanEntries]. rewrite cidrs_cons.
    destruct (ec2types.Cidr e) as [c|]; [|apply IH].
    destruct (decide (c ∈ seen)) as [Hin|Hin].
    { rewrite accepted_cons_skip by tauto. apply IH. }
    destruct (ParsePrefix c) as [pfx|] eqn:Hp.
    + rewrite accepted_cons_take by (by rewrite ?Hp).
      destruct (IH ({[c]} ∪ seen) (all ++ [pfx])) as (ps & -> & Hps).
      exists (pfx :: ps). split; [|by constructor].
      f_equal; [set_solver|by rewrite <- app_assoc].
    + rewrite accepted_cons_skip; [apply IH|].
      rewrite Hp. intros [_ [? ?]]. done.
Qed.

Lemma scanEntries_app es1 es2 seen all :
  scanEntries (es1 ++ es2) seen all =
  scanEntries es2 (scanEntries es1 seen all).1 (scanEntries es1 seen all).2.
Proof.
  revert seen all. induction es1 as [|e es1 IH]; intros seen all; [done|].
  cbn. repeat case_match; apply IH.
Qed.

(** ** The events of a run *)

Lemma run_only_events (P : ∀ X, op X → Prop) (Q : event → Prop) {A} (p : prog A) st :
  (∀ X (o : op X) c st x st',
     P X o → exec c o st = Ok x st' → Forall Q (events_since st st')) →
  only P p → Forall Q (events_since st (state_of (run p st))).
Proof.
  intros HPQ. revert st. induction p as [a|X o k IH|]; intros st Hp; cbn in *;
    try (by unfold events_since; rewrite drop_all).
  destruct Hp as [Ho Hk].
  destruct (exec SelStop o st) as [x st'| |] eqn:Hx; cbn;
    try (by unfold events_since; rewrite drop_all).
  destruct (exec_trace _ _ _ _ _ Hx) as [evs1 E1].
  destruct (run_trace (k x) st') as [evs2 E2].
  rewrite (events_since_trans _ _ _ _ _ E1 E2). apply Forall_app. split.
  - rewrite <- (events_since_app _ _ _ E1). by eapply HPQ.
  - rewrite <- (events_since_app _ _ _ E2). by apply IH.
Qed.

Lemma exec_not_get_entries c {X} (o : op X) st x st' :
  not_get_entries o → exec c o st = Ok x st' →
  Forall (λ e, ¬ is_get_entries e) (events_since st st').
Proof.
  intros Ho Hx. destruct o; cbn in *; try done;
    repeat (case_match; try done); simplify_eq;
    unfold events_since; cbn; rewrite ?drop_all, ?drop_app_length;
    repeat constructor; auto.
Qed.

Lemma exec_not_describe c {X} (o : op X) st x st' :
  not_describe o → exec c o st = Ok x st' →
  Forall (λ e, is_describe e = false) (events_since st st').
Proof.
  intros Ho Hx. destruct o; cbn in *; try done;
    repeat (case_match; try done); simplify_eq;
    unfold events_since; cbn; rewrite ?drop_all, ?drop_app_length;
    repeat constructor; auto.
Qed.

Lemma no_failure_quiet evs : Forall (λ e, ¬ is_get_entries e) evs → no_failure evs.
Proof.
  intros Hq. eapply Forall_impl; [done|].
  intros [] Hn; try done; by destruct Hn.
Qed.

Lemma delivered_quiet evs : Forall (λ e, ¬ is_get_entries e) evs → delivered evs = [].
Proof.
  induction 1 as [|e evs He _ IH]; [done|].
  unfold delivered in *. cbn. rewrite IH.
  destruct e; try done; by destruct He.
Qed.

Lemma delivered_app evs1 evs2 : delivered (evs1 ++ evs2) = delivered evs1 ++ delivered evs2.
Proof. unfold delivered. by rewrite fmap_app, concat_app. Qed.

Lemma no_failure_app evs1 evs2 : no_failure evs1 → no_failure evs2 → no_failure (evs1 ++ evs2).
Proof. intros. apply Forall_app. by split. Qed.

(** ** The paging loops *)

Lemma fetchPages_run fuel c id tok seen all st :
  ∃ evs, trace (state_of (run (fetchPages fuel c id tok seen all) st)) = trace st ++ evs ∧
         fetch_spec seen all evs (run (fetchPages fuel c id tok seen all) st).
Proof.
  revert tok seen all st. induction fuel as [|fuel IH]; intros tok seen all st.
  { exists []. cbn. split; [by rewrite app_nil_r|constructor]. }
  cbn [fetchPages]. prog_simpl. cbn [run exec].
  destruct (GetManagedPrefixListEntries _ _ _ _ _) as [[err|out] w] eqn:Hget.
  - eexists [_]. cbn. split; [done|]. eexists [], _. repeat split; constructor.
  - destruct (scanEntries (ec2.Entries out) seen all) as [seen' all'] eqn:Hscan.
    set (ev := EvGetEntries c id (pageTokenOrNil tok) (inr out)).
    assert (Hlast : fetch_spec seen all [ev] (Done (inr (seen', all')) (set_world w ev st))).
    { split; [by repeat constructor|].
      unfold delivered. cbn. by rewrite app_nil_r, Hscan. }
    destruct (ec2.NextToken out) as [t|] eqn:Htok; [|by exists [ev]].
    destruct (decide (t = ""%string)); [by exists [ev]|].
    destruct (IH (Some t) seen' all' (set_world w ev st)) as (evs & Etr & Hspec).
    exists (ev :: evs). split; [by rewrite Etr; cbn; rewrite <- app_assoc|].
    destruct (run _ _) as [[err|sa] st'|?|?|?]; cbn in *; try done.
    + destruct Hspec as (evs0 & ev' & -> & ? & ?).
      exists (ev :: evs0), ev'. repeat split; try done. by constructor.
    + destruct Hspec as [? ->]. split; [by constructor|].
      change (delivered (ev :: evs)) with (ec2.Entries out ++ delivered evs).
      by rewrite scanEntries_app, Hscan.
    + by constructor.
Qed.

Lemma fetchLists_run fuel c ids seen all st :
  ∃ evs, trace (state_of (run (fetchLists fuel c ids seen all) st)) = trace st ++ evs ∧
         fetch_spec seen all evs (run (fetchLists fuel c ids seen all) st).
Proof.
  revert seen all st. induction ids as [|id ids IH]; intros seen all st.
  { exists []. cbn. split; [by rewrite app_nil_r|]. split; [constructor|done]. }
  cbn [fetchLists]. prog_simpl. rewrite run_bind.
  destruct (fetchPages_run fuel c id (Some ""%string) seen all st) as (evs1 & E1 & S1).
  destruct (run (fetchPages _ _ _ _ _ _) st) as [[err|[seen' all']] st1|?|?|?];
    cbn in *; try done; try by exists evs1.
  destruct S1 as [Hn1 Hsa].
  destruct (IH seen' all' st1) as (evs2 & E2 & S2).
  exists (evs1 ++ evs2). split; [by rewrite E2, E1, app_assoc|].
  destruct (run (fetchLists _ _ _ _ _) st1) as [[err|sa] st2|?|?|?];
    cbn in *; try done.
  - destruct S2 as (evs0 & ev & -> & ? & ?).
    exists (evs1 ++ evs0), ev. rewrite app_assoc.
    repeat split; try done. by apply no_failure_app.
  - destruct S2 as [? ->]. split; [by apply no_failure_app|].
    rewrite delivered_app, scanEntries_app. by rewrite <- Hsa.
  - by apply no_failure_app.
Qed.

(** A program of lookups returns; its events deliver nothing and are no
    page failures. *)
Lemma run_lookup {A} (p : prog A) st :
  only (@lookup_op) p → returns p →
  ∃ a st' evs, run p st = Done a st' ∧ same_memory st st' ∧
               trace st' = trace st ++ evs ∧ Forall (λ e, ¬ is_get_entries e) evs.
Proof.
  intros Hp Hr.
  destruct (run_world_returns p st (lookup_world _ Hp) Hr) as (a & st' & Hrun).
  destruct (run_trace p st) as [evs E].
  pose proof (run_only_events (@not_get_entries) _ p st
                (λ X o c, exec_not_get_entries c o) (lookup_not_get_entries _ Hp)) as Q.
  pose proof (run_world_only p st (lookup_world _ Hp)) as (Hm & _).
  rewrite Hrun in *. cbn in *. rewrite (events_since_app _ _ _ E) in Q.
  by exists a, st', evs.
Qed.

Lemma refreshOnce_fetch_run fuel c ids st :
  ∃ evs, trace (state_of (run (refreshOnce_fetch fuel c ids) st)) = trace st ++ evs ∧
         gather_spec evs (run (refreshOnce_fetch fuel c ids) st).
Proof.
  unfold refreshOnce_fetch. prog_simpl. rewrite run_bind.
  destruct (fetchLists_run fuel c ids ∅ [] st) as (evs & E & S).
  exists evs.
  destruct (run (fetchLists _ _ _ _ _) st) as [[err|[seen all]] st1|?|?|?];
    cbn in *; try done.
  - split; [done|]. by right.
  - destruct S as [? <-]. done.
Qed.

Lemma gather_spec_quiet evs1 evs2 o :
  Forall (λ e, ¬ is_get_entries e) evs1 → gather_spec evs2 o → gather_spec (evs1 ++ evs2) o.
Proof.
  intros Hq. pose proof (no_failure_quiet _ Hq) as Hn.
  destruct o as [[err|all] st|?|?|?]; cbn; try done.
  - intros [[? ?]|(evs0 & ev & -> & ? & ?)]; [left|right].
    + split; [by apply no_failure_app|done].
    + exists (evs1 ++ evs0), ev. rewrite app_assoc. repeat split; try done.
      by apply no_failure_app.
  - intros [? ->]. split; [by apply no_failure_app|].
    by rewrite delivered_app, (delivered_quiet _ Hq).
  - by apply no_failure_app.
Qed.

Lemma refreshOnce_gather_run s fuel st :
  same_memory st (state_of (run (refreshOnce_gather s fuel) st)) ∧
  ∃ evs, trace (state_of (run (refreshOnce_gather s fuel) st)) = trace st ++ evs ∧
         gather_spec evs (run (refreshOnce_gather s fuel) st).
Proof.
  split; [apply run_world_only, refreshOnce_gather_world|].
  unfold refreshOnce_gather. prog_simpl. rewrite run_bind.
  destruct (loadAWSConfig_lookup s) as [L1 L2].
  destruct (run_lookup _ st L1 L2) as (r & st1 & evs1 & -> & _ & E1 & Q1). cbn.
  destruct r as [err|c]; cbn.
  { exists evs1. split; [done|]. left. split; [by apply no_failure_quiet|by eexists]. }
  rewrite run_bind.
  destruct (refreshOnce_resolve_lookup s c) as [L3 L4].
  destruct (run_lookup _ st1 L3 L4) as (ids & st2 & evs2 & -> & _ & E2 & Q2). cbn.
  destruct (refreshOnce_fetch_run fuel c ids st2) as (evs3 & E3 & S3).
  exists (evs1 ++ evs2 ++ evs3). split.
  - by rewrite E3, E2, E1, <- !app_assoc.
  - rewrite app_assoc. apply gather_spec_quiet; [|done]. apply Forall_app. by split.
Qed.

(** ** Memory *)

Lemma GetIPRanges_snapshot : GetIPRanges = snapshot.
Proof. reflexivity. Qed.

Lemma elems_ok h sl :
  slice_ok h sl →
  elems h sl = match s_ptr sl with Some l => default [] (h !! l) | None => [] end ∧
  length (elems h sl) = s_len sl.
Proof.
  unfold slice_ok, elems. destruct (s_ptr sl) as [l|]; [|by intros ->].
  intros (a & -> & <-). cbn. by rewrite firstn_all.
Qed.

Lemma elems_insert_ne h sl l a :
  slice_ok h sl → h !! l = None → elems (<[l := a]> h) sl = elems h sl.
Proof.
  unfold slice_ok, elems. destruct (s_ptr sl) as [l'|]; [|done].
  intros (a' & Ha' & _) Hl. rewrite lookup_insert_ne; [done|]. congruence.
Qed.

Lemma fresh_heap (h : gmap loc (list Prefix)) : h !! fresh (dom h) = None.
Proof. apply not_elem_of_dom, is_fresh. Qed.

Lemma set_heap_id (st : state) : set_heap (heap st) st = st.
Proof. by destruct st. Qed.

Lemma set_heap_set_heap h1 h2 (st : state) : set_heap h2 (set_heap h1 st) = set_heap h2 st.
Proof. done. Qed.

(** The loop of [copy] from index [i] on, between two different arrays that
    agree below [i]: it returns, and the arrays agree below [i + n] then. *)
Lemma copy_from_run dst from ld lf b n i a st :
  s_ptr dst = Some ld → s_ptr from = Some lf → ld ≠ lf →
  heap st !! ld = Some a → heap st !! lf = Some b →
  i + n ≤ s_len dst → i + n ≤ s_len from →
  s_len dst ≤ length a → s_len from ≤ length b →
  take i a = take i b →
  ∃ a', run (copy_from dst from i n) st
          = Done tt (set_heap (<[ld := a']> (heap st)) st) ∧
        length a' = length a ∧ take (i + n) a' = take (i + n) b.
Proof.
  intros Hd Hf Hne. revert i a st.
  induction n as [|n IH]; intros i a st Ha Hb Hid Hif Hla Hlb Hpre.
  { exists a. cbn. rewrite insert_id by done. by rewrite set_heap_id, Nat.add_0_r. }
  destruct (lookup_lt_is_Some_2 b i) as [v Hv]; [lia|].
  cbn [copy_from]. prog_simpl. cbn [run exec]. rewrite Hd, Hf, Ha, Hb, Hv.
  rewrite decide_True by lia.
  destruct (IH (S i) (<[i := v]> a) (set_heap (<[ld := <[i := v]> a]> (heap st)) st))
    as (a' & Hrun & Hlen & Htake); cbn;
    rewrite ?lookup_insert_eq, ?length_insert; try done; try lia.
  - by rewrite lookup_insert_ne.
  - rewrite (take_S_r _ _ v) by (apply list_lookup_insert_eq; lia).
    rewrite take_insert_ge by lia. by rewrite (take_S_r b i v), Hpre.
  - exists a'. rewrite Hrun. cbn. rewrite insert_insert_eq.
    rewrite length_insert in Hlen. split; [done|]. split; [done|].
    by replace (i + S n) with (S i + n) by lia.
Qed.

(** [copy] stores into the array of its destination only, however it
    ends. *)
Lemma copy_from_heap dst from n i st l :
  s_ptr dst ≠ Some l →
  heap (state_of (run (copy_from dst from i n) st)) !! l = heap st !! l.
Proof.
  intros Hl. revert i st. induction n as [|n IH]; intros i st; [done|].
  cbn [copy_from]. prog_simpl. cbn [run exec].
  repeat case_match; cbn; try done. rewrite IH. simplify_eq. cbn.
  rewrite lookup_insert_ne; [done|congruence].
Qed.

(** [snapshot] returns a slice of the length of [s.current] on a fresh
    array, which holds the published elements; nothing else changes. *)
Lemma snapshot_run st :
  writer (mu st) = false → slice_ok (heap st) (current st) →
  run snapshot st =
  Done {| s_ptr := Some (fresh (dom (heap st))); s_len := s_len (current st) |}
       (set_heap (<[fresh (dom (heap st)) := published st]> (heap st)) st).
Proof.
  intros Hw Hok. unfold snapshot, copy. prog_simpl. cbn [run exec]. rewrite Hw.
  cbn [current set_mu set_heap s_len]. rewrite Nat.min_id.
  change (heap (set_mu _ st)) with (heap st).
  set (l := fresh (dom (heap st))).
  set (out := {| s_ptr := Some l; s_len := s_len (current st) |}).
  set (st1 := set_heap _ _).
  assert (Hend : ∀ a, a = published st →
            Done out (set_mu {| writer := false; readers := readers (mu st) |}
                        (set_heap (<[l := a]> (heap st)) st1))
            = Done out (set_heap (<[l := published st]> (heap st)) st)).
  { intros a ->. f_equal. subst st1.
    destruct st as [s m cur ch h tk n w tr]; destruct m as [wr rd]; cbn in *.
    by subst wr. }
  rewrite !run_bind.
  destruct (elems_ok _ _ Hok) as [Hel Hlen].
  unfold slice_ok in Hok. destruct (s_ptr (current st)) as [lf|] eqn:Hlf.
  - destruct Hok as (b & Hb & Hlb).
    assert (Hne : l ≠ lf).
    { intros <-. subst l. by rewrite fresh_heap in Hb. }
    destruct (copy_from_run out (current st) l lf b (s_len (current st)) 0
                (replicate (s_len (current st)) zeroPrefix) st1)
      as (a' & Hrun & Hla & Hta).
    { done. }
    { done. }
    { done. }
    { subst st1. cbn. apply lookup_insert_eq. }
    { subst st1. cbn. by rewrite lookup_insert_ne. }
    { cbn. lia. }
    { lia. }
    { rewrite length_replicate. cbn. lia. }
    { lia. }
    { done. }
    rewrite Hrun. cbn. rewrite insert_insert_eq. apply Hend.
    rewrite length_replicate in Hla.
    rewrite !take_ge in Hta by lia. subst a'.
    unfold published, elems. rewrite Hlf, Hb. cbn. by rewrite take_ge by lia.
  - rewrite Hok. cbn.
    rewrite <- (Hend (replicate (s_len (current st)) zeroPrefix)).
    + done.
    + rewrite Hok. unfold published, elems. by rewrite Hlf.
Qed.

Lemma published_set_heap_fresh st a :
  slice_ok (heap st) (current st) →
  published (set_heap (<[fresh (dom (heap st)) := a]> (heap st)) st) = published st.
Proof. intros Hok. unfold published. cbn. apply elems_insert_ne; [done|apply fresh_heap]. Qed.

Lemma published_nil_iff st :
  slice_ok (heap st) (current st) → published st = [] ↔ s_len (current st) = 0.
Proof.
  intros Hok. destruct (elems_ok _ _ Hok) as [_ Hlen]. unfold published.
  rewrite <- Hlen. split; [by intros ->|apply nil_length_inv].
Qed.

Lemma refreshOnce_run fuel st :
  run (refreshOnce fuel) st =
  andthen (run (refreshOnce_gather (src st) fuel) st)
    (λ r st1, match r with
              | inl err => Done (Some err) st1
              | inr all => run (refreshOnce_install (src st) all) st1
              end).
Proof.
  unfold refreshOnce. prog_simpl. cbn [run exec]. rewrite run_bind.
  destruct (run (refreshOnce_gather _ _) st) as [[err|all] st1|?|?|?]; done.
Qed.

(** The pass that gathered nothing, lines 258-275. *)
Lemma install_empty_run s st :
  mutex_free st → slice_ok (heap st) (current st) →
  let st1 := set_heap (<[fresh (dom (heap st)) := published st]> (heap st)) st in
  run (refreshOnce_install s []) st =
  if bool_decide (s_len (current st) = 0) && RequireNonEmpty s
  then Done (Some ErrResolvedZero) st1
  else if decide (s_len (current st) = 0)
  then Done None
         (set_current nil_slice
            (log (EvWarn "cloudfront_origin_pl: resolved zero prefixes; leaving empty set (will retry)") st1))
  else Done None
         (log (EvWarn "cloudfront_origin_pl: refresh yielded zero prefixes; keeping previous set") st1).
Proof.
  intros Hmu Hok st1. unfold mutex_free in Hmu. unfold refreshOnce_install. cbn [length decide].
  destruct (decide (0 = 0)) as [_|]; [|done].
  prog_simpl. rewrite run_bind, snapshot_run by (done || by rewrite Hmu).
  cbn [andthen s_len]. fold st1.
  destruct (bool_decide (s_len (current st) = 0) && RequireNonEmpty s); [done|].
  destruct (decide (s_len (current st) = 0)); [|done].
  cbn. rewrite Hmu. cbn. f_equal.
  destruct st as [s0 m cur ch h tk n w tr]. cbn in *. subst m. done.
Qed.

(** The pass that gathered something, lines 277-281. *)
Lemma install_nonempty_run s all st :
  mutex_free st → all ≠ [] →
  run (refreshOnce_install s all) st =
  Done None
    (set_current {| s_ptr := Some (fresh (dom (heap st))); s_len := length all |}
       (set_heap (<[fresh (dom (heap st)) := all]> (heap st)) st)).
Proof.
  intros Hmu Hall. unfold mutex_free in Hmu. unfold refreshOnce_install.
  destruct (decide (length all = 0)) as [E|_]; [by apply nil_length_inv in E|].
  prog_simpl. cbn. rewrite Hmu. cbn. f_equal.
  destruct st as [s0 m cur ch h tk n w tr]. cbn in *. subst m. done.
Qed.

Lemma published_install st all :
  published
    (set_current {| s_ptr := Some (fresh (dom (heap st))); s_len := length all |}
       (set_heap (<[fresh (dom (heap st)) := all]> (heap st)) st)) = all.
Proof.
  unfold published, elems. cbn. rewrite lookup_insert_eq. cbn. apply firstn_all.
Qed.

Lemma same_memory_ok st st' :
  same_memory st st' →
  (slice_ok (heap st) (current st) → slice_ok (heap st') (current st')) ∧
  (mutex_free st → mutex_free st') ∧ published st' = published st.
Proof.
  unfold same_memory, mutex_free, published.
  intros (?&Hm&Hc&?&Hh&?&?). rewrite Hm, Hc, Hh. done.
Qed.

(** ** Install policy for an empty result *)

(** C1. A pass that completes its fetch with no prefix at all: over a
    non-empty published snapshot it returns nil and leaves [s.current] and
    its elements as they were; over an empty one it returns the
    resolved-zero-prefixes error and stores nothing when [RequireNonEmpty]
    is set, and stores the nil slice and returns nil when it is not. *)
Theorem C1_empty_result_policy fuel st st1 :
  mutex_free st → slice_ok (heap st) (current st) →
  run (refreshOnce_gather (src st) fuel) st = Done (inr []) st1 →
  (published st ≠ [] →
     ∃ st', run (refreshOnce fuel) st = Done None st' ∧
            current st' = current st ∧ published st' = published st ∧
            length (published st') = length (published st)) ∧
  (published st = [] → RequireNonEmpty (src st) = true →
     ∃ st', run (refreshOnce fuel) st = Done (Some ErrResolvedZero) st' ∧
            current st' = current st ∧ published st' = published st) ∧
  (published st = [] → RequireNonEmpty (src st) = false →
     ∃ st', run (refreshOnce fuel) st = Done None st' ∧
            current st' = nil_slice ∧ published st' = []).
Proof.
  intros Hmu Hok Hg.
  destruct (refreshOnce_gather_run (src st) fuel st) as [Hm _].
  rewrite Hg in Hm. cbn in Hm.
  destruct (same_memory_ok _ _ Hm) as (Hok1 & Hmu1 & Hpub).
  specialize (Hok1 Hok). specialize (Hmu1 Hmu).
  assert (Hcur : current st1 = current st) by apply Hm.
  rewrite refreshOnce_run, Hg. cbn [andthen].
  rewrite install_empty_run by done.
  rewrite <- Hpub, <- Hcur. rewrite (published_nil_iff st1 Hok1).
  repeat split.
  - intros Hne. rewrite bool_decide_eq_false_2 by done. cbn.
    destruct (decide _) as [|_]; [done|]. eexists. split; [done|].
    cbn. split; [done|]. unfold log. cbn.
    pose proof (published_set_heap_fresh st1 (published st1) Hok1) as E.
    unfold published in *. cbn in *. by rewrite E.
  - intros Hz Hreq. rewrite bool_decide_eq_true_2, Hreq by done. cbn.
    eexists. split; [done|]. split; [done|].
    apply (published_set_heap_fresh st1 _ Hok1).
  - intros Hz Hreq. rewrite Hreq, andb_false_r.
    destruct (decide _) as [_|]; [|done]. eexists. split; [done|]. done.
Qed.

(** ** Deduplication across the lists of a pass *)

Lemma parsed_NoDup (ks : list string) (ps : list Prefix) :
  NoDup ks → Forall2 (λ k p, ParsePrefix k = Some p) ks ps →
  (∀ k1 k2 p, k1 ∈ ks → k2 ∈ ks →
              ParsePrefix k1 = Some p → ParsePrefix k2 = Some p → k1 = k2) →
  NoDup ps.
Proof.
  intros Hnd Hps. induction Hps as [|k p ks ps Hk Hps IH]; intros Hinj; [constructor|].
  apply NoDup_cons in Hnd as [Hk' Hnd]. constructor.
  - intros Hin. apply list_elem_of_lookup in Hin as [i Hi].
    destruct (Forall2_lookup_r _ _ _ _ _ Hps Hi) as (k2 & Hk2 & Hp2).
    apply Hk'. rewrite (Hinj k k2 p); [by eapply list_elem_of_lookup_2| | |done|done].
    + apply list_elem_of_here.
    + apply list_elem_of_further. by eapply list_elem_of_lookup_2.
  - apply IH; [done|]. intros k1 k2 q H1 H2. apply Hinj; by apply list_elem_of_further.
Qed.

(** C3, as the code has it. The prefixes a pass has gathered when its fetch
    completes are the
    parses of pairwise distinct keys: the address-range strings the provider
    delivered in this pass, over all lists and pages, that parse, each kept
    once at the place of its first occurrence.  Where no two of these keys
    parse to the same prefix the prefixes are pairwise distinct themselves.
    A non-empty result is published as it is. *)
Theorem C3_accumulated_distinct fuel st all st1 :
  run (refreshOnce_gather (src st) fuel) st = Done (inr all) st1 →
  let keys := accepted ∅ (cidrs (delivered (events_since st st1))) in
  NoDup keys ∧
  Forall2 (λ k p, ParsePrefix k = Some p) keys all ∧
  ((∀ k1 k2 p, k1 ∈ keys → k2 ∈ keys →
               ParsePrefix k1 = Some p → ParsePrefix k2 = Some p → k1 = k2) →
   NoDup all) ∧
  (mutex_free st → all ≠ [] →
     ∃ st', run (refreshOnce fuel) st = Done None st' ∧ published st' = all).
Proof.
  intros Hg keys.
  destruct (refreshOnce_gather_run (src st) fuel st) as (Hm & evs & E & S).
  rewrite Hg in Hm, E, S. cbn in Hm, E, S. destruct S as [_ Hall].
  subst keys. rewrite (events_since_app _ _ _ E).
  destruct (scanEntries_spec (delivered evs) ∅ []) as (ps & Hscan & Hps).
  rewrite Hscan in Hall. cbn in Hall. subst all.
  split; [apply NoDup_first_seen|]. split; [done|]. split.
  - intros Hinj. eapply parsed_NoDup; [apply NoDup_first_seen|done|done].
  - intros Hmu Hne. rewrite refreshOnce_run, Hg. cbn [andthen].
    rewrite install_nonempty_run by (done || by apply (same_memory_ok _ _ Hm)).
    eexists. split; [done|]. apply published_install.
Qed.

(** ** Failure of a page request *)

Lemma refreshOnce_install_quiet s all :
  only (@not_get_entries) (refreshOnce_install s all).
Proof. by apply refreshOnce_install_only. Qed.

Lemma no_failure_elem evs c id tok err :
  no_failure evs → EvGetEntries c id tok (inl err) ∉ evs.
Proof.
  unfold no_failure. rewrite Forall_forall. intros Hn Hin. by apply Hn in Hin.
Qed.

(** C4. When a page request of a pass has failed, the pass has returned
    the get-entries error of that request, the request is the last thing it
    did, and it has written nothing: [s.current] and the heap are as they
    were, whatever had been gathered before is gone. *)
Theorem C4_page_failure_aborts fuel st c id tok err :
  EvGetEntries c id tok (inl err) ∈ events_since st (state_of (run (refreshOnce fuel) st)) →
  ∃ st' evs0,
    run (refreshOnce fuel) st = Done (Some (ErrGetEntries id err)) st' ∧
    same_memory st st' ∧ published st' = published st ∧
    events_since st st' = evs0 ++ [EvGetEntries c id tok (inl err)].
Proof.
  rewrite refreshOnce_run.
  destruct (refreshOnce_gather_run (src st) fuel st) as (Hm & evs & E & S).
  destruct (run (refreshOnce_gather _ _) st) as [[e|all] st1|?|?|?];
    cbn in *; try done.
  - rewrite (events_since_app _ _ _ E).
    destruct S as [[Hn _]|(evs0 & ev & -> & Hev & Hn)].
    { intros Hin. by apply no_failure_elem in Hin. }
    rewrite elem_of_app, list_elem_of_singleton.
    intros [Hin| <-]; [by apply no_failure_elem in Hin|].
    cbn in Hev. injection Hev as <-.
    exists st1, evs0. split; [done|]. split; [done|].
    split; [by apply same_memory_ok|by apply events_since_app].
  - destruct S as [Hn _].
    destruct (run_trace (refreshOnce_install (src st) all) st1) as [evs2 E2].
    pose proof (run_only_events (@not_get_entries) _ _ st1
                  (λ X o c, exec_not_get_entries c o)
                  (refreshOnce_install_quiet (src st) all)) as Q.
    rewrite (events_since_app _ _ _ E2) in Q.
    rewrite (events_since_trans _ _ _ _ _ E E2).
    rewrite elem_of_app. intros [Hin|Hin].
    + by apply no_failure_elem in Hin.
    + by apply no_failure_elem in Hin; [|apply no_failure_quiet].
  - rewrite (events_since_app _ _ _ E). intros Hin.
    by apply no_failure_elem in Hin.
Qed.

(** ** Resolution of the list *)

Lemma scanPrefixLists_Some n pls id :
  scanPrefixLists n pls = Some id →
  ∃ pl, pl ∈ pls ∧ ec2types.PrefixListName pl = Some n ∧
        ec2types.PrefixListId pl = Some id.
Proof.
  induction pls as [|pl pls IH]; [done|]. cbn.
  destruct (ec2types.PrefixListName pl) as [nm|] eqn:Hn;
    [destruct (ec2types.PrefixListId pl) as [i|] eqn:Hi;
     [destruct (decide (nm = n)) as [->|]|]|].
  - intros [= ->]. exists pl. by rewrite elem_of_cons; auto.
  - intros (pl' & ? & ?)%IH. exists pl'. rewrite elem_of_cons. auto.
  - intros (pl' & ? & ?)%IH. exists pl'. rewrite elem_of_cons. auto.
  - intros (pl' & ? & ?)%IH. exists pl'. rewrite elem_of_cons. auto.
Qed.

Lemma scanPrefixLists_None n pls :
  scanPrefixLists n pls = None →
  ∀ pl, pl ∈ pls → ec2types.PrefixListName pl = Some n →
        ec2types.PrefixListId pl = None.
Proof.
  induction pls as [|pl pls IH]; [by intros _ ? ?%elem_of_nil|]. cbn.
  intros Hscan pl' [->|Hin]%elem_of_cons Hname.
  - rewrite Hname in Hscan. destruct (ec2types.PrefixListId pl); [|done].
    by rewrite decide_True in Hscan.
  - apply IH; [|done..]. by repeat case_match.
Qed.

(** C10. Resolution by name: when the lookup of the name (the default name
    when none is configured) answers with candidates, the resolver returns
    the id of a candidate whose name is that very name, or, when it returns
    an error, the not-found error with the name and the region, and then no
    candidate with that name has an id; the latter is what happens when no
    candidate has the name. *)
Theorem C10_exact_name_match s c name d st pls w :
  let n := if decide (name = ""%string) then d else name in
  DescribeManagedPrefixLists (world st) c n 100 = (inr pls, w) →
  ∃ id err,
    run (resolvePrefixListID s c ""%string name d) st
      = Done (id, err) (set_world w (EvDescribe c n (inr pls)) st) ∧
    (err = None →
       ∃ pl, pl ∈ pls ∧ ec2types.PrefixListName pl = Some n ∧
             ec2types.PrefixListId pl = Some id) ∧
    (err ≠ None →
       id = ""%string ∧ err = Some (ErrNotFound n (Region s)) ∧
       ∀ pl, pl ∈ pls → ec2types.PrefixListName pl = Some n →
             ec2types.PrefixListId pl = None) ∧
    ((∀ pl, pl ∈ pls → ec2types.PrefixListName pl ≠ Some n) →
       err = Some (ErrNotFound n (Region s))).
Proof.
  intros n Hd. unfold resolvePrefixListID. cbn [decide].
  destruct (decide (""%string = ""%string)) as [_|]; [|done].
  prog_simpl. fold n. cbn [run exec]. rewrite Hd. cbn.
  destruct (scanPrefixLists n pls) as [id|] eqn:Hscan; cbn.
  - exists id, None. split; [done|].
    apply scanPrefixLists_Some in Hscan as (pl & Hin & Hn & Hi).
    split; [by eauto|]. split; [done|].
    intros Hno. by destruct (Hno pl Hin).
  - exists ""%string, (Some (ErrNotFound n (Region s))). split; [done|].
    split; [done|]. split; [|done]. intros _.
    split; [done|]. split; [done|]. by apply scanPrefixLists_None.
Qed.

(** ** Resolution by identifier *)

Lemma resolvePrefixListID_explicit s c id name d :
  id ≠ ""%string → resolvePrefixListID s c id name d = Ret (id, None).
Proof. intros Hid. unfold resolvePrefixListID. by rewrite decide_False. Qed.

Lemma exec_describes_only n c {X} (o : op X) st x st' :
  describes_only n o → exec c o st = Ok x st' →
  Forall (describe_of n) (events_since st st').
Proof.
  intros Ho Hx. destruct o; cbn in *; try done;
    repeat (case_match; try done); simplify_eq;
    unfold events_since; cbn; rewrite ?drop_all, ?drop_app_length;
    repeat constructor; auto.
Qed.

Lemma not_describe_describes_only n {A} (p : prog A) :
  only (@not_describe) p → only (@describes_only n) p.
Proof. apply only_weaken. by intros X []. Qed.

Lemma refreshOnce_install_not_describe s all :
  only (@not_describe) (refreshOnce_install s all).
Proof. by apply refreshOnce_install_only. Qed.

Lemma loadAWSConfig_not_describe s : only (@not_describe) (loadAWSConfig s).
Proof. unfold loadAWSConfig. only_tac. Qed.

Lemma refreshOnce_resolve_explicit s c :
  PrefixListID s ≠ ""%string →
  only (@describes_only defaultPLNameV6) (refreshOnce_resolve s c) ∧
  (IncludeIPv6 s = false → only (@not_describe) (refreshOnce_resolve s c)).
Proof.
  intros Hid. unfold refreshOnce_resolve.
  rewrite (resolvePrefixListID_explicit s c (PrefixListID s) _ _ Hid).
  prog_simpl. split.
  - destruct (IncludeIPv6 s); [|done]. unfold resolvePrefixListID. cbn. only_tac.
  - by intros ->.
Qed.

Lemma refreshOnce_gather_explicit s fuel :
  PrefixListID s ≠ ""%string →
  only (@describes_only defaultPLNameV6) (refreshOnce_gather s fuel) ∧
  (IncludeIPv6 s = false → only (@not_describe) (refreshOnce_gather s fuel)).
Proof.
  intros Hid. unfold refreshOnce_gather. split.
  - apply only_bind;
      [apply not_describe_describes_only, loadAWSConfig_not_describe|].
    intros [err|c]; [done|]. apply only_bind.
    + by apply refreshOnce_resolve_explicit.
    + intros ids. apply not_describe_describes_only, pages_not_describe,
        refreshOnce_fetch_pages.
  - intros Hv6. apply only_bind; [apply loadAWSConfig_not_describe|].
    intros [err|c]; [done|]. apply only_bind.
    + by apply refreshOnce_resolve_explicit.
    + intros ids. apply pages_not_describe, refreshOnce_fetch_pages.
Qed.

Lemma describe_calls_0 evs :
  Forall (λ e, is_describe e = false) evs → describe_calls evs = 0.
Proof.
  unfold describe_calls. induction 1 as [|e evs He _ IH]; [done|].
  by rewrite filter_cons_False by (by rewrite He).
Qed.

(** The events of a pass are those of its two halves. *)
Lemma refreshOnce_events (Q : event → Prop) fuel st :
  (∀ st0, Forall Q (events_since st0
                      (state_of (run (refreshOnce_gather (src st) fuel) st0)))) →
  (∀ all st1, Forall Q (events_since st1
                          (state_of (run (refreshOnce_install (src st) all) st1)))) →
  Forall Q (events_since st (state_of (run (refreshOnce fuel) st))).
Proof.
  intros Hg Hi. rewrite refreshOnce_run. specialize (Hg st).
  destruct (run_trace (refreshOnce_gather (src st) fuel) st) as [evs1 E1].
  rewrite (events_since_app _ _ _ E1) in Hg.
  destruct (run (refreshOnce_gather _ _) st) as [[err|all] st1|?|?|?];
    cbn in *; try by rewrite (events_since_app _ _ _ E1).
  specialize (Hi all st1).
  destruct (run_trace (refreshOnce_install (src st) all) st1) as [evs2 E2].
  rewrite (events_since_app _ _ _ E2) in Hi.
  rewrite (events_since_trans _ _ _ _ _ E1 E2). apply Forall_app. by split.
Qed.

(** C8, as the code has it. With an explicit list identifier the IPv4
    resolution is the identifier itself, returned without any operation;
    a pass then makes no name lookup at all when [IncludeIPv6] is off, and
    when it is on the only names it looks up are the IPv6 default name. *)
Theorem C8_identifier_bypass fuel st :
  PrefixListID (src st) ≠ ""%string →
  (∀ c name d,
     resolvePrefixListID (src st) c (PrefixListID (src st)) name d
       = Ret (PrefixListID (src st), None)) ∧
  (IncludeIPv6 (src st) = false →
     describe_calls (events_since st (state_of (run (refreshOnce fuel) st))) = 0) ∧
  (∀ c name r,
     EvDescribe c name r ∈ events_since st (state_of (run (refreshOnce fuel) st)) →
     name = defaultPLNameV6).
Proof.
  intros Hid. destruct (refreshOnce_gather_explicit (src st) fuel Hid) as [Hv6 Hno].
  split; [by intros; apply resolvePrefixListID_explicit|]. split.
  - intros Hoff. apply describe_calls_0, refreshOnce_events.
    + intros st0. eapply run_only_events; [|by apply Hno].
      intros X o c. apply exec_not_describe.
    + intros all st1. eapply run_only_events;
        [|apply refreshOnce_install_not_describe].
      intros X o c. apply exec_not_describe.
  - intros c name r Hin.
    assert (Hall : Forall (describe_of defaultPLNameV6)
                     (events_since st (state_of (run (refreshOnce fuel) st)))).
    { apply refreshOnce_events.
      - intros st0. eapply run_only_events; [|by apply Hv6].
        intros X o c'. apply exec_describes_only.
      - intros all st1. eapply run_only_events;
          [|apply not_describe_describes_only, refreshOnce_install_not_describe].
        intros X o c'. apply exec_describes_only. }
    rewrite Forall_forall in Hall. by apply Hall in Hin.
Qed.

(** ** Paging *)

Lemma set_world_advance w e st : set_world w e st = advance w [e] st.
Proof. done. Qed.

Lemma advance_advance w1 evs1 w2 evs2 st :
  advance w2 evs2 (advance w1 evs1 st) = advance w2 (evs1 ++ evs2) st.
Proof. unfold advance. cbn. by rewrite app_assoc. Qed.

Lemma advance_same_memory w evs st : same_memory st (advance w evs st).
Proof. by repeat split. Qed.

Lemma last_page_token out : last_page out ↔ pageTokenOrNil (ec2.NextToken out) = None.
Proof.
  unfold last_page, pageTokenOrNil. destruct (ec2.NextToken out) as [t|]; [|tauto].
  destruct (decide (t = ""%string)) as [->|]; [tauto|].
  split; [|done]. by intros [|[=]].
Qed.

Lemma not_last_page_token out :
  ¬ last_page out → pageTokenOrNil (ec2.NextToken out) = ec2.NextToken out.
Proof.
  rewrite last_page_token. unfold pageTokenOrNil.
  destruct (ec2.NextToken out) as [t|]; [|done]. by destruct (decide (t = ""%string)).
Qed.

(** The loop asks for page after page with the token of the page before,
    stops after the first last page, and has scanned all entries then. *)
Lemma fetchPages_answers fuel c id tok seen all st outs w' :
  answers c id (world st) (pageTokenOrNil tok) outs w' →
  length outs ≤ fuel →
  run (fetchPages fuel c id tok seen all) st =
  Done (inr (scanEntries (entries_of outs) seen all))
       (advance w' (page_events c id (pageTokenOrNil tok) outs) st).
Proof.
  intros Ha. remember (world st) as w eqn:Hw. remember (pageTokenOrNil tok) as tk eqn:Htk.
  revert fuel tok seen all st Hw Htk.
  induction Ha as [w tk out w' Hget Hlast|w tk out w1 outs w' Hget Hmore _ IH];
    intros fuel tok seen all st -> -> Hlen;
    (destruct fuel as [|fuel]; [cbn in Hlen; lia|]);
    cbn [fetchPages]; prog_simpl; cbn [run exec]; rewrite Hget;
    unfold entries_of; cbn [fmap list_fmap concat page_events];
    destruct (scanEntries (ec2.Entries out) seen all) as [seen' all'] eqn:Hscan.
  - rewrite app_nil_r, Hscan.
    destruct Hlast as [->| ->]; [done|]. by rewrite decide_True.
  - rewrite scanEntries_app, Hscan. cbn [fst snd].
    destruct (ec2.NextToken out) as [t|] eqn:Ht; [|by destruct Hmore; left].
    destruct (decide (t = ""%string)) as [->|Hne]; [by destruct Hmore; right|].
    rewrite (IH fuel (Some t) seen' all' (set_world w1 _ st) eq_refl);
      [|cbn; by rewrite decide_False|cbn in Hlen; lia].
    by rewrite set_world_advance, advance_advance.
Qed.

Lemma fetchLists_serves fuel c ids seen all st outss w' :
  serves c (world st) ids outss w' →
  Forall (λ outs, length outs ≤ fuel) outss →
  run (fetchLists fuel c ids seen all) st =
  Done (inr (scanEntries (concat (entries_of <$> outss)) seen all))
       (advance w' (lists_events c ids outss) st).
Proof.
  intros Hs. remember (world st) as w eqn:Hw. revert seen all st Hw.
  induction Hs as [w|w id ids outs outss w1 w' Ha _ IH]; intros seen all st -> Hfuel.
  { cbn. f_equal. unfold advance. destruct st; cbn. by rewrite app_nil_r. }
  apply Forall_cons in Hfuel as [Hlen Hfuel].
  cbn [fetchLists]. prog_simpl. rewrite run_bind.
  rewrite (fetchPages_answers fuel c id (Some ""%string) seen all st outs w1) by done.
  cbn [andthen fmap list_fmap concat lists_events].
  rewrite scanEntries_app.
  destruct (scanEntries (entries_of outs) seen all) as [seen' all'].
  rewrite (IH seen' all' (advance w1 _ st)) by done.
  by rewrite advance_advance.
Qed.

Lemma single_list_gather fuel st id outs :
  single_list_pass st id outs → length outs ≤ fuel →
  ∃ st1 evs0,
    run (refreshOnce_gather (src st) fuel) st
      = Done (inr (scanEntries (entries_of outs) ∅ []).2) st1 ∧
    same_memory st st1 ∧
    trace st1 = trace st ++ evs0 ++ page_events (config_of (src st)) id None outs ∧
    Forall (λ e, ¬ is_get_entries e) evs0.
Proof.
  intros (Hid & Hv6 & Hne & w1 & pls & w2 & w3 & Hload & Hdesc & Hscan & Hans) Hlen.
  unfold refreshOnce_gather, loadAWSConfig. prog_simpl. cbn [run exec].
  change (if decide (AWSProfile (src st) = ""%string) then None
          else Some (AWSProfile (src st))) with (cfg_profile (config_of (src st))).
  rewrite Hload. cbn [bind run]. rewrite run_bind.
  change {| cfg_region := _; cfg_profile := _; cfg_role := _ |} with (config_of (src st)).
  unfold refreshOnce_resolve, resolvePrefixListID. rewrite Hid, Hv6.
  destruct (decide (""%string = ""%string)) as [_|]; [|done].
  prog_simpl. cbn [run exec].
  change (if decide (PrefixListName (src st) = ""%string) then defaultPLNameV4
          else PrefixListName (src st)) with (name_of (src st)).
  cbn [world set_world]. rewrite Hdesc. cbn [bind]. rewrite Hscan. cbn [bind run andthen].
  rewrite decide_False by done.
  unfold refreshOnce_fetch. prog_simpl. rewrite run_bind.
  rewrite (fetchLists_serves fuel _ [id] ∅ [] _ [outs] w3);
    [|by repeat econstructor|by repeat constructor].
  cbn [andthen fmap list_fmap concat lists_events]. rewrite !app_nil_r.
  destruct (scanEntries (entries_of outs) ∅ []) as [seen all].
  eexists _, [_; _]. split; [done|]. split; [by repeat split|].
  split; [cbn; by rewrite <- !app_assoc|]. repeat constructor; auto.
Qed.

Lemma single_list_refresh fuel st id outs :
  single_list_pass st id outs → length outs ≤ fuel → mutex_free st →
  (scanEntries (entries_of outs) ∅ []).2 ≠ [] →
  ∃ st', run (refreshOnce fuel) st = Done None st' ∧
         published st' = (scanEntries (entries_of outs) ∅ []).2.
Proof.
  intros Hpass Hlen Hmu Hne.
  destruct (single_list_gather fuel st id outs Hpass Hlen) as (st1 & evs0 & Hg & Hm & _).
  rewrite refreshOnce_run, Hg. cbn [andthen].
  rewrite install_nonempty_run by (done || by apply (same_memory_ok _ _ Hm)).
  eexists. split; [done|]. apply published_install.
Qed.

Lemma accepted_one_malformed (cs : list string) m a b :
  cs ≡ₚ [m; a; b] → ParsePrefix m = None →
  is_Some (ParsePrefix a) → is_Some (ParsePrefix b) → a ≠ b →
  length (accepted ∅ cs) = 2.
Proof.
  intros Hperm Hm Ha Hb Hab. unfold accepted.
  set (l := filter _ cs).
  assert (Hf : l ≡ₚ [a; b]).
  { subst l. rewrite Hperm. rewrite filter_cons_False by (rewrite Hm; by intros [_ [? ?]]).
    rewrite filter_cons_True by (split; [set_solver|done]).
    by rewrite filter_cons_True by (split; [set_solver|done]). }
  rewrite first_seen_NoDup.
  - by rewrite Hf.
  - rewrite Hf. apply NoDup_cons. split; [set_solver|]. apply NoDup_singleton.
Qed.

(** ** Fetching and installing *)

(** C7. The fetch asks the provider for the pages of every resolved list,
    each request with the token of the page before, until a page comes with
    an absent or empty token; what it gathers is the parse of every
    delivered string that parses, at its first occurrence, and a string that
    does not parse adds nothing and raises no error.  A pass whose single
    list delivers one string that does not parse and two different ones that
    do returns nil and publishes two prefixes; a pass whose single list
    delivers the page [A, B] and then the last page [B, C] returns nil and
    publishes the prefixes of A, B and C. *)
Theorem C7_paging_and_install :
  (∀ fuel c ids outss st w',
     serves c (world st) ids outss w' →
     Forall (λ outs, length outs ≤ fuel) outss →
     ∃ all,
       run (refreshOnce_fetch fuel c ids) st
         = Done (inr all) (advance w' (lists_events c ids outss) st) ∧
       Forall2 (λ k p, ParsePrefix k = Some p)
         (accepted ∅ (cidrs (concat (entries_of <$> outss)))) all) ∧
  (∀ fuel st id outs m a b,
     single_list_pass st id outs → length outs ≤ fuel → mutex_free st →
     entries_of outs ≡ₚ [entry m; entry a; entry b] →
     ParsePrefix m = None → is_Some (ParsePrefix a) → is_Some (ParsePrefix b) →
     a ≠ b →
     ∃ st', run (refreshOnce fuel) st = Done None st' ∧ length (published st') = 2) ∧
  (∀ fuel st id p1 p2 A B C pa pb pc,
     Region (src st) = "us-east-1"%string →
     name_of (src st) = defaultPLNameV4 →
     single_list_pass st id [p1; p2] → 2 ≤ fuel → mutex_free st →
     ec2.Entries p1 = [entry A; entry B] → ec2.Entries p2 = [entry B; entry C] →
     ParsePrefix A = Some pa → ParsePrefix B = Some pb → ParsePrefix C = Some pc →
     A ≠ B → A ≠ C → B ≠ C →
     ∃ st', run (refreshOnce fuel) st = Done None st' ∧ published st' = [pa; pb; pc]).
Proof.
  split; [|split].
  - intros fuel c ids outss st w' Hs Hfuel.
    unfold refreshOnce_fetch. prog_simpl. rewrite run_bind.
    rewrite (fetchLists_serves fuel c ids ∅ [] st outss w') by done. cbn [andthen].
    destruct (scanEntries_spec (concat (entries_of <$> outss)) ∅ []) as (ps & -> & Hps).
    by exists ps.
  - intros fuel st id outs m a b Hpass Hlen Hmu Hperm Hm Ha Hb Hab.
    destruct (scanEntries_spec (entries_of outs) ∅ []) as (ps & Hscan & Hps).
    assert (Hlen2 : length ps = 2).
    { rewrite <- (Forall2_length _ _ _ Hps).
      apply (accepted_one_malformed _ m a b); try done.
      unfold cidrs. by rewrite Hperm. }
    destruct (single_list_refresh fuel st id outs Hpass Hlen Hmu) as (st' & Hrun & Hpub).
    { rewrite Hscan. cbn. by destruct ps. }
    exists st'. split; [done|]. by rewrite Hpub, Hscan.
  - intros fuel st id p1 p2 A B C pa pb pc _ _ Hpass Hfuel Hmu H1 H2 HA HB HC HAB HAC HBC.
    assert (Hscan : (scanEntries (entries_of [p1; p2]) ∅ []).2 = [pa; pb; pc]).
    { unfold entries_of. cbn [fmap list_fmap concat]. rewrite H1, H2. cbn.
      rewrite decide_False by set_solver. rewrite HA.
      rewrite decide_False by set_solver. rewrite HB.
      rewrite decide_True by set_solver.
      rewrite decide_False by set_solver. by rewrite HC. }
    destruct (single_list_refresh fuel st id [p1; p2] Hpass Hfuel Hmu) as (st' & Hrun & Hpub).
    { by rewrite Hscan. }
    exists st'. by rewrite Hpub, Hscan.
Qed.

(** ** Stopping *)

Lemma Cleanup_run st :
  run Cleanup st =
  match stopCh st with
  | ChNil => Done None st
  | ChOpen => Done None (set_stopCh ChClosed st)
  | ChClosed => Panicked st
  end.
Proof.
  unfold Cleanup. prog_simpl. cbn.
  destruct (stopCh st) eqn:Hch; cbn; by rewrite ?Hch.
Qed.

(** A second [Cleanup] after [Provision] has made the channel closes a
    closed channel. *)
Lemma Cleanup_twice st :
  stopCh st = ChOpen →
  run Cleanup st = Done None (set_stopCh ChClosed st) ∧
  run Cleanup (set_stopCh ChClosed st) = Panicked (set_stopCh ChClosed st).
Proof. intros Hch. by rewrite !Cleanup_run, Hch. Qed.

(** ** The copy a read returns *)

Lemma heap_kept_refl h : heap_kept h h.
Proof. by intros l a. Qed.

Lemma heap_kept_trans h1 h2 h3 : heap_kept h1 h2 → heap_kept h2 h3 → heap_kept h1 h3.
Proof. intros H12 H23 l a Hl. by apply H23, H12. Qed.

Lemma heap_kept_fresh (h : gmap loc (list Prefix)) a :
  heap_kept h (<[fresh (dom h) := a]> h).
Proof.
  intros l a' Hl. rewrite lookup_insert_ne; [done|].
  intros <-. by rewrite fresh_heap in Hl.
Qed.

Lemma heap_kept_elems h h' sl : heap_kept h h' → slice_ok h sl → elems h' sl = elems h sl.
Proof.
  unfold slice_ok, elems. intros Hk. destruct (s_ptr sl) as [l|]; [|done].
  intros (a & Ha & _). by rewrite Ha, (Hk _ _ Ha).
Qed.

(** [snapshot] overwrites no array, however it ends. *)
Lemma snapshot_heap_kept st : heap_kept (heap st) (heap (state_of (run snapshot st))).
Proof.
  unfold snapshot, copy. prog_simpl. cbn [run exec].
  destruct (writer (mu st)); [apply heap_kept_refl|]. cbn [current set_mu set_heap].
  change (heap (set_mu _ st)) with (heap st).
  set (l := fresh (dom (heap st))).
  rewrite !run_bind, andthen_assoc, state_of_andthen.
  set (st1 := set_heap _ _).
  set (o := run (copy_from _ _ _ _) st1).
  assert (Hk : heap_kept (heap st) (heap (state_of o))).
  { intros l' a Ha. subst o. rewrite copy_from_heap; cbn.
    - rewrite lookup_insert_ne; [done|]. intros <-. subst l. by rewrite fresh_heap in Ha.
    - intros [= <-]. subst l. by rewrite fresh_heap in Ha. }
  destruct o as [[] st2|?|?|?]; try done.
  cbn in *. by destruct (readers (mu st2)).
Qed.

Lemma andthen_heap_kept {A B} (o : outcome A) (f : A → state → outcome B) h :
  heap_kept h (heap (state_of o)) →
  (∀ a st, heap_kept (heap st) (heap (state_of (f a st)))) →
  heap_kept h (heap (state_of (andthen o f))).
Proof.
  intros Ho Hf. destruct o; cbn in *; try done. by eapply heap_kept_trans.
Qed.

Lemma exec_keeps_arrays c {X} (o : op X) st x st' :
  keeps_arrays o → exec c o st = Ok x st' → heap_kept (heap st) (heap st').
Proof.
  intros Ho Hx. destruct o; cbn in *; try done;
    repeat (case_match; try done); simplify_eq; cbn;
    try apply heap_kept_refl; apply heap_kept_fresh.
Qed.

Lemma run_keeps_arrays {A} (p : prog A) st :
  only (@keeps_arrays) p → heap_kept (heap st) (heap (state_of (run p st))).
Proof.
  revert st. induction p as [a|X o k IH|]; intros st Hp; cbn in *;
    try apply heap_kept_refl.
  destruct Hp as [Ho Hk].
  destruct (exec SelStop o st) as [x st'| |] eqn:Hx; cbn; try apply heap_kept_refl.
  eapply heap_kept_trans; [by eapply exec_keeps_arrays|by apply IH].
Qed.

(** A pass overwrites no array, however it ends. *)
Lemma refreshOnce_heap_kept fuel st :
  heap_kept (heap st) (heap (state_of (run (refreshOnce fuel) st))).
Proof.
  rewrite refreshOnce_run. apply andthen_heap_kept.
  { destruct (refreshOnce_gather_run (src st) fuel st) as ((_&_&_&_&->&_) & _).
    apply heap_kept_refl. }
  intros [err|all] st1; [apply heap_kept_refl|].
  unfold refreshOnce_install. destruct (decide (length all = 0)).
  - prog_simpl. rewrite run_bind. apply andthen_heap_kept; [apply snapshot_heap_kept|].
    intros prev st2. apply run_keeps_arrays. only_tac.
  - apply run_keeps_arrays. only_tac.
Qed.

(** C9. A read, be it by [GetIPRanges] or by [snapshot], returns a slice on
    an array of its own, allocated by the read, that holds the published
    elements.  A store into the returned slice leaves [s.current] and the
    published elements as they are, and a later pass, from any state that
    still has the returned array, leaves the returned elements as they are,
    however the pass ends. *)
Theorem C9_read_returns_own_copy st :
  writer (mu st) = false → slice_ok (heap st) (current st) →
  ∀ read, read = GetIPRanges ∨ read = snapshot →
  ∃ out l st1,
    run read st = Done out st1 ∧
    s_ptr out = Some l ∧ heap st !! l = None ∧ s_ptr (current st1) ≠ Some l ∧
    elems (heap st1) out = published st ∧
    current st1 = current st ∧ published st1 = published st ∧
    (∀ i v st2,
       run (call (SliceSet out i v)) st1 = Done tt st2 →
       elems (heap st2) out = <[i := v]> (published st) ∧
       current st2 = current st1 ∧ published st2 = published st1) ∧
    (∀ fuel st2,
       slice_ok (heap st2) out →
       elems (heap (state_of (run (refreshOnce fuel) st2))) out = elems (heap st2) out).
Proof.
  intros Hw Hok read Hread.
  assert (Hrun : run read st
                 = Done {| s_ptr := Some (fresh (dom (heap st))); s_len := s_len (current st) |}
                     (set_heap (<[fresh (dom (heap st)) := published st]> (heap st)) st)).
  { destruct Hread as [->| ->]; [rewrite GetIPRanges_snapshot|]; by apply snapshot_run. }
  rewrite Hrun. clear Hrun Hread read.
  set (l := fresh (dom (heap st))).
  assert (Hl : heap st !! l = None) by apply fresh_heap.
  assert (Hcur : s_ptr (current st) ≠ Some l).
  { intros E. unfold slice_ok in Hok. rewrite E in Hok.
    destruct Hok as (a & Ha & _). congruence. }
  destruct (elems_ok _ _ Hok) as [_ Hlen].
  eexists _, l, _. split; [done|]. cbn [s_ptr current heap set_heap].
  split; [done|]. split; [done|]. split; [done|].
  assert (Hout : elems (<[l := published st]> (heap st))
                   {| s_ptr := Some l; s_len := s_len (current st) |} = published st).
  { unfold elems. cbn. rewrite lookup_insert_eq. cbn.
    apply firstn_all2. unfold published. lia. }
  split; [done|]. split; [done|].
  split; [by apply published_set_heap_fresh|]. split.
  - intros i v st2. cbn. rewrite lookup_insert_eq.
    destruct (decide (i < s_len (current st))); [|done].
    intros [= <-]. cbn. rewrite insert_insert_eq. split; [|split; [done|]].
    + unfold elems. cbn. rewrite lookup_insert_eq. cbn.
      apply firstn_all2. rewrite length_insert. unfold published. lia.
    + unfold published. cbn. by rewrite !elems_insert_ne.
  - intros fuel st2 Hout2. apply heap_kept_elems; [|done].
    apply refreshOnce_heap_kept.
Qed.

(** ** After the stop signal *)













(** ** Reads that race with installs *)

Lemma go_read_at : go_read = prog_at (AtSnapshot ByRead).
Proof. reflexivity. Qed.

Lemma go_refresh_at fuel : go_refresh fuel = prog_at (AtPass fuel).
Proof. reflexivity. Qed.

(** The next operation of a goroutine inside [snapshot]. *)
Lemma prog_at_snapshot k :
  prog_at (AtSnapshot k) = Vis RLock (λ _, prog_at (AtLocked k)).
Proof. by destruct k. Qed.

Lemma prog_at_locked k :
  prog_at (AtLocked k) = Vis LoadCurrent (λ c, prog_at (AtLoaded k c)).
Proof. by destruct k. Qed.

Lemma prog_at_loaded k c :
  prog_at (AtLoaded k c) = Vis (MakeSlice (s_len c)) (λ out, prog_at (AtMade k out)).
Proof. by destruct k. Qed.

Lemma prog_at_made k out :
  prog_at (AtMade k out)
  = Vis LoadCurrent (λ c, prog_at (AtCopying k out c 0 (s_len out `min` s_len c))).
Proof. by destruct k. Qed.

Lemma prog_at_copying k out c i n :
  prog_at (AtCopying k out c i (S n))
  = Vis (CopyElem out c i) (λ _, prog_at (AtCopying k out c (S i) n)).
Proof. by destruct k. Qed.

Lemma prog_at_copied k out c i :
  prog_at (AtCopying k out c i 0) = Vis RUnlock (λ _, resume k out).
Proof. by destruct k. Qed.

Lemma sum_list_insert (f : point → nat) pts i pt pt' :
  pts !! i = Some pt →
  sum_list (f <$> <[i := pt']> pts) + f pt = sum_list (f <$> pts) + f pt'.
Proof.
  revert i. induction pts as [|p pts IH]; intros [|i] Hi; simplify_eq/=; [lia|].
  specialize (IH i Hi). lia.
Qed.

Lemma sum_list_zero (f : point → nat) pts j pj :
  sum_list (f <$> pts) = 0 → pts !! j = Some pj → f pj = 0.
Proof.
  revert j. induction pts as [|p pts IH]; intros [|j] Hs Hj; simplify_eq/=; [lia|].
  apply (IH j); [lia|done].
Qed.

(** What a goroutine knows stays true while [s.current], the published
    elements and its own array are left alone. *)
Lemma knows_frame st st' h h' pt :
  current st' = current st → published st' = published st →
  (∀ l, cell_of pt = Some l → heap st' !! l = heap st !! l) →
  h ⊆ h' → knows st h pt → knows st' h' pt.
Proof.
  intros Hc Hpub Hl Hh. destruct pt; cbn in *; try done.
  - by rewrite Hc.
  - rewrite Hc. intros (? & l & a & Hp & Ha & ?). split; [done|].
    exists l, a. by rewrite (Hl l Hp).
  - rewrite Hc, Hpub. intros (? & ? & ? & l & a & Hp & Ha & ?).
    do 3 (split; [done|]). exists l, a. by rewrite (Hl l Hp).
  - intros [[l Hp] Hin]. split; [by eauto|]. apply Hh.
    unfold elems in *. destruct (s_ptr out) as [l'|]; [|done].
    by rewrite (Hl l' eq_refl).
  - unfold slice_ok. destruct (s_ptr sl) as [l|]; [|done]. by rewrite (Hl l eq_refl).
  - unfold slice_ok. destruct (s_ptr sl) as [l|]; [|done]. by rewrite (Hl l eq_refl).
Qed.

(** A goroutine that does not hold the read lock knows nothing of
    [s.current]. *)
Lemma knows_frame_store st st' h h' pt :
  reading pt = 0 → heap st' = heap st → h ⊆ h' → knows st h pt → knows st' h' pt.
Proof.
  intros Hr Hheap Hh. destruct pt; cbn in *; try done; rewrite Hheap; try done.
  intros [? ?]. split; [done|]. by apply Hh.
Qed.

Lemma history_grows (h : list (list Prefix)) x : h ⊆ h ++ [x].
Proof. intros y. rewrite elem_of_app. auto. Qed.

Lemma history_last (h : list (list Prefix)) x : x ∈ h ++ [x].
Proof. rewrite elem_of_app, list_elem_of_singleton. auto. Qed.

(** The invariant after goroutine [i] has gone from [pt] to [pt'] and the
    state from [st] to [st']. *)
Lemma consistent_update pts st h i pt pt' st' :
  consistent pts st h → pts !! i = Some pt →
  readers (mu st') + reading pt = readers (mu st) + reading pt' →
  (if writer (mu st') then 1 else 0) + writing pt
    = (if writer (mu st) then 1 else 0) + writing pt' →
  (writer (mu st') = true → readers (mu st') = 0) →
  knows st' (h ++ [published st']) pt' →
  (∀ l, cell_of pt' = Some l →
        is_Some (heap st' !! l) ∧ s_ptr (current st') ≠ Some l ∧
        (cell_of pt = Some l ∨ heap st !! l = None)) →
  (∀ j pj, j ≠ i → pts !! j = Some pj →
           knows st' (h ++ [published st']) pj ∧
           ∀ l, cell_of pj = Some l →
                is_Some (heap st' !! l) ∧ s_ptr (current st') ≠ Some l) →
  slice_ok (heap st') (current st') →
  consistent (<[i := pt']> pts) st' (h ++ [published st']).
Proof.
  intros [Hk Hc Ha Hcur Hr Hw Hx Hp] Hi Hrd Hwr Hex Hk' Hc' Ho Hcur'.
  assert (Hlt : i < length pts) by (by eapply lookup_lt_Some).
  split; try done.
  - intros j pj Hj. destruct (decide (j = i)) as [->|Hne].
    + rewrite list_lookup_insert_eq in Hj by done. by simplify_eq.
    + rewrite list_lookup_insert_ne in Hj by done. by apply (Ho j pj).
  - intros j pj l Hj Hl. destruct (decide (j = i)) as [->|Hne].
    + rewrite list_lookup_insert_eq in Hj by done. simplify_eq.
      destruct (Hc' l Hl) as (? & ? & _). done.
    + rewrite list_lookup_insert_ne in Hj by done. by apply (Ho j pj).
  - intros j1 j2 p1 p2 l H1 H2 Hl1 Hl2.
    destruct (decide (j1 = i)) as [->|Hne1], (decide (j2 = i)) as [->|Hne2]; [done|..].
    + rewrite list_lookup_insert_eq in H1 by done.
      rewrite list_lookup_insert_ne in H2 by done. simplify_eq.
      destruct (Hc' l Hl1) as (_ & _ & [Hold|Hnew]).
      * by apply (Ha i j2 pt p2 l).
      * destruct (Hc j2 p2 l H2 Hl2) as [[? ?] _]. congruence.
    + rewrite list_lookup_insert_ne in H1 by done.
      rewrite list_lookup_insert_eq in H2 by done. simplify_eq.
      destruct (Hc' l Hl2) as (_ & _ & [Hold|Hnew]).
      * by apply (Ha j1 i p1 pt l).
      * destruct (Hc j1 p1 l H1 Hl1) as [[? ?] _]. congruence.
    + rewrite list_lookup_insert_ne in H1, H2 by done. by apply (Ha j1 j2 p1 p2 l).
  - pose proof (sum_list_insert reading pts i pt pt' Hi). lia.
  - pose proof (sum_list_insert writing pts i pt pt' Hi). lia.
  - apply history_last.
Qed.

Lemma sum_list_ge (f : point → nat) pts i pt :
  pts !! i = Some pt → f pt ≤ sum_list (f <$> pts).
Proof.
  revert i. induction pts as [|p pts IH]; intros [|i] Hi; simplify_eq/=; [lia|].
  specialize (IH i Hi). lia.
Qed.

Lemma slice_ok_frame (h h' : gmap loc (list Prefix)) sl :
  (∀ l, s_ptr sl = Some l → h' !! l = h !! l) → slice_ok h sl → slice_ok h' sl.
Proof.
  unfold slice_ok. intros Hl. destruct (s_ptr sl) as [l|]; [|done].
  by rewrite (Hl l eq_refl).
Qed.

Lemma elems_frame (h h' : gmap loc (list Prefix)) sl :
  (∀ l, s_ptr sl = Some l → h' !! l = h !! l) → elems h' sl = elems h sl.
Proof.
  unfold elems. intros Hl. destruct (s_ptr sl) as [l|]; [|done].
  by rewrite (Hl l eq_refl).
Qed.

(** The other goroutines, when goroutine [i] has stored into no array but
    its own and new ones and has left [s.current] alone. *)
Lemma others_frame pts st h i pt st' :
  consistent pts st h → pts !! i = Some pt →
  current st' = current st →
  (∀ l, is_Some (heap st !! l) → cell_of pt ≠ Some l → heap st' !! l = heap st !! l) →
  (∀ j pj, j ≠ i → pts !! j = Some pj →
           knows st' (h ++ [published st']) pj ∧
           ∀ l, cell_of pj = Some l →
                is_Some (heap st' !! l) ∧ s_ptr (current st') ≠ Some l) ∧
  slice_ok (heap st') (current st') ∧ published st' = published st.
Proof.
  intros [Hk Hc Ha Hcur Hr Hw Hx Hp] Hi Hcur' Hheap.
  assert (Hcell : ∀ l, s_ptr (current st) = Some l → heap st' !! l = heap st !! l).
  { intros l Hl. pose proof Hcur as Hok. unfold slice_ok in Hok. rewrite Hl in Hok.
    destruct Hok as (a & Ha' & _). apply Hheap; [by eauto|].
    intros Hl'. by destruct (Hc i pt l Hi Hl'). }
  assert (Hpub : published st' = published st).
  { unfold published. rewrite Hcur'. by apply elems_frame. }
  split; [|split; [|done]].
  - intros j pj Hne Hj.
    assert (Hsame : ∀ l, cell_of pj = Some l → heap st' !! l = heap st !! l).
    { intros l Hl. destruct (Hc j pj l Hj Hl) as [Hs _]. apply Hheap; [done|].
      intros Hl'. by destruct Hne; apply (Ha j i pj pt l). }
    split.
    + eapply knows_frame; [done|done|done|apply history_grows|by eapply Hk].
    + intros l Hl. destruct (Hc j pj l Hj Hl) as [Hs Hn].
      by rewrite (Hsame l Hl), Hcur'.
  - rewrite Hcur'. by eapply slice_ok_frame.
Qed.

(** The other goroutines, when goroutine [i] has assigned [s.current] under
    the write lock. *)
Lemma others_frame_store pts st h i sl st' :
  consistent pts st h → pts !! i = Some (AtStore sl) →
  heap st' = heap st → current st' = sl →
  (∀ j pj, j ≠ i → pts !! j = Some pj →
           knows st' (h ++ [published st']) pj ∧
           ∀ l, cell_of pj = Some l →
                is_Some (heap st' !! l) ∧ s_ptr (current st') ≠ Some l) ∧
  slice_ok (heap st') (current st').
Proof.
  intros [Hk Hc Ha Hcur Hr Hw Hx Hp] Hi Hheap Hcur'.
  pose proof (sum_list_ge writing pts i _ Hi) as Hge. cbn in Hge.
  destruct (writer (mu st)) eqn:Hwr; [|lia].
  specialize (Hx eq_refl). rewrite Hx in Hr. split.
  - intros j pj Hne Hj. split.
    + eapply knows_frame_store; [|done|apply history_grows|by eapply Hk].
      by apply (sum_list_zero reading pts j).
    + intros l Hl. destruct (Hc j pj l Hj Hl) as [Hs Hn].
      rewrite Hheap, Hcur'. split; [done|].
      intros Hl'. by destruct Hne; apply (Ha j i pj (AtStore sl) l).
  - rewrite Hcur', Hheap. apply (Hk i _ Hi).
Qed.

(** The invariant after a step of goroutine [i] that has left [s.current]
    alone and has stored into no array but its own and new ones. *)
Lemma consistent_move pts st h i pt pt' st' :
  consistent pts st h → pts !! i = Some pt →
  current st' = current st →
  (∀ l, is_Some (heap st !! l) → cell_of pt ≠ Some l → heap st' !! l = heap st !! l) →
  readers (mu st') + reading pt = readers (mu st) + reading pt' →
  (if writer (mu st') then 1 else 0) + writing pt
    = (if writer (mu st) then 1 else 0) + writing pt' →
  (writer (mu st') = true → readers (mu st') = 0) →
  knows st' (h ++ [published st']) pt' →
  (∀ l, cell_of pt' = Some l →
        is_Some (heap st' !! l) ∧ (cell_of pt = Some l ∨ heap st !! l = None)) →
  consistent (<[i := pt']> pts) st' (h ++ [published st']).
Proof.
  intros Hcons Hi Hcur Hheap Hrd Hwr Hex Hk' Hc'.
  destruct (others_frame pts st h i pt st' Hcons Hi Hcur Hheap) as (Ho & Hcur' & _).
  eapply consistent_update; try done.
  intros l Hl. destruct (Hc' l Hl) as [Hs Hor]. split; [done|]. split; [|done].
  rewrite Hcur. destruct Hor as [Hold|Hnew].
  - by destruct (cons_cells _ _ _ Hcons i pt l Hi Hold).
  - intros Hl'. pose proof (cons_current _ _ _ Hcons) as Hok.
    unfold slice_ok in Hok. rewrite Hl' in Hok. destruct Hok as (a & ? & _). congruence.
Qed.

Lemma consistent_tick pts st h t :
  consistent pts st h →
  consistent pts (set_tick t st) (h ++ [published (set_tick t st)]).
Proof.
  intros [Hk Hc Ha Hcur Hr Hw Hx Hp]. split; try done.
  - intros i pt Hi. eapply knows_frame; [done|done|done|apply history_grows|by eapply Hk].
  - apply history_last.
Qed.

Ltac goes pts i pt' :=
  exists (<[i := pt']> pts); eexists;
  split; [by rewrite list_fmap_insert, app_nil_r|].

(** Where [snapshot] returns to. *)
Lemma resume_at k out :
  ∃ pt', resume k out = prog_at pt' ∧ reading pt' = 0 ∧ writing pt' = 0 ∧
         (cell_of pt' = None ∨ cell_of pt' = s_ptr out) ∧
         ∀ st h, is_Some (s_ptr out) ∧ elems (heap st) out ∈ h → knows st h pt'.
Proof.
  destruct k as [|s]; [exists (AtReturned out); cbn; by auto 10|].
  unfold resume, install_after.
  destruct (bool_decide (s_len out = 0) && RequireNonEmpty s);
    [exists (AtDone (Some ErrResolvedZero)); cbn; by auto 10|].
  destruct (decide (s_len out = 0));
    [exists AtWarnLock|exists AtWarnKeep]; cbn; by auto 10.
Qed.

Lemma consistent_step rounds fuel pts st h s' :
  consistent pts st h →
  step rounds fuel (Running (prog_at <$> pts) st) s' →
  ∃ pts' st', s' = Running (prog_at <$> pts') st' ∧
              consistent pts' st' (h ++ [published st']).
Proof.
  intros Hcons [[i c|] Hd]; cbn [schedule] in Hd.
  - rewrite list_lookup_fmap in Hd.
    destruct (pts !! i) as [pt|] eqn:Hi; cbn [fmap option_fmap option_map] in Hd; [|done].
    pose proof (sum_list_ge reading pts i pt Hi) as Hrge.
    pose proof (sum_list_ge writing pts i pt Hi) as Hwge.
    rewrite <- (cons_readers _ _ _ Hcons) in Hrge.
    rewrite (cons_writer _ _ _ Hcons) in Hwge.
    pose proof (cons_exclusive _ _ _ Hcons) as Hex.
    pose proof (cons_knows _ _ _ Hcons i pt Hi) as Hk.
    pose proof (λ l, cons_cells _ _ _ Hcons i pt l Hi) as Hcell.
    pose proof (cons_current _ _ _ Hcons) as Hok.
    destruct pt as [k|k|k c0|k out|k out c0 j n|out|fuel0|s p| |sl|sl| | |err];
      cbn in Hrge, Hwge, Hk, Hcell.
    + (* RLock *)
      rewrite prog_at_snapshot in Hd. cbn in Hd. destruct (writer (mu st)) eqn:Hwr; simplify_eq.
      goes pts i (AtLocked k).
      eapply consistent_move; try done; cbn; rewrite ?Hwr; try done; lia.
    + (* s.current is read for its length *)
      rewrite prog_at_locked in Hd. cbn in Hd. simplify_eq. goes pts i (AtLoaded k (current st)).
      eapply consistent_move; try done; cbn; lia.
    + (* make *)
      rewrite prog_at_loaded in Hd. cbn in Hd. simplify_eq.
      goes pts i (AtMade k {| s_ptr := Some (fresh (dom (heap st))); s_len := s_len (current st) |}).
      eapply consistent_move; try done; cbn; try lia.
      * intros l [a Ha] _. rewrite lookup_insert_ne; [done|].
        intros <-. by rewrite fresh_heap in Ha.
      * split; [done|]. eexists _, _. split; [done|].
        rewrite lookup_insert_eq. split; [done|]. by rewrite length_replicate.
      * intros l [= <-]. rewrite lookup_insert_eq. split; [by eauto|].
        right. apply fresh_heap.
    + (* s.current is read for the copy *)
      destruct Hk as (Hlen & l & a & Hp & Ha & Hla).
      rewrite prog_at_made in Hd. cbn in Hd. simplify_eq.
      goes pts i (AtCopying k out (current st) 0 (s_len out `min` s_len (current st))).
      eapply consistent_move; try done; cbn; try lia.
      * split; [done|]. split; [done|]. split; [lia|]. by exists l, a.
      * intros l' Hl'. split; [by apply Hcell|by left].
    + (* copy, then RUnlock *)
      destruct Hk as (-> & Hlen & Hin & l & a & Hp & Ha & Hla & Hpre).
      destruct (Hcell l Hp) as [_ Hne].
      destruct (elems_ok _ _ Hok) as [Hel Hplen]. fold (published st) in Hel, Hplen.
      destruct n as [|n].
      * (* all elements are copied: RUnlock *)
        rewrite prog_at_copied in Hd. cbn in Hd.
        destruct (readers (mu st)) as [|m] eqn:Hrd; [lia|]. simplify_eq.
        destruct (resume_at k out) as (pt' & Hpt' & Hr' & Hw' & Hc' & Hk').
        rewrite Hpt'. goes pts i pt'.
        eapply consistent_move; try done; cbn; rewrite ?Hr', ?Hw', ?Hrd; try lia.
        -- intros Hwr. specialize (Hex Hwr). lia.
        -- apply Hk'. split; [by rewrite Hp|]. apply history_grows.
           change (elems (heap st) out ∈ h).
           replace (elems (heap st) out) with (published st);
             [apply (cons_published _ _ _ Hcons)|].
           unfold elems. rewrite Hp, Ha. cbn.
           rewrite take_ge by lia. rewrite <- (take_ge a j), Hpre by lia.
           by rewrite take_ge by lia.
        -- intros l' Hl'. destruct Hc' as [Hc'|Hc']; rewrite Hc' in Hl'; [done|].
           split; [by apply Hcell|by left].
      * (* one element *)
        unfold slice_ok in Hok.
        destruct (s_ptr (current st)) as [lf|] eqn:Hlf; [|lia].
        destruct Hok as (b & Hb & Hlb).
        destruct (lookup_lt_is_Some_2 b j) as [v Hv]; [lia|].
        assert (Hpb : published st = b).
        { unfold published, elems. rewrite Hlf, Hb. cbn. apply take_ge. lia. }
        rewrite prog_at_copying in Hd. cbn in Hd. rewrite Hp, Hlf, Ha, Hb, Hv in Hd.
        rewrite decide_True in Hd by lia. simplify_eq.
        goes pts i (AtCopying k out (current st) (S j) n).
        assert (Hpub : published (set_heap (<[l := <[j := v]> a]> (heap st)) st)
                       = published st).
        { unfold published. cbn. apply elems_frame. intros l' Hl'.
          rewrite lookup_insert_ne; [done|congruence]. }
        eapply consistent_move; try done; cbn; try lia.
        -- intros l' _ Hl'. rewrite lookup_insert_ne; [done|congruence].
        -- split; [done|]. split; [done|]. split; [lia|]. exists l, (<[j := v]> a).
           rewrite lookup_insert_eq, length_insert. do 3 (split; [done|]).
           fold (published (set_heap (<[l := <[j := v]> a]> (heap st)) st)).
           rewrite Hpub.
           rewrite (take_S_r _ _ v) by (apply list_lookup_insert_eq; lia).
           rewrite take_insert_ge by lia. by rewrite (take_S_r _ j v), Hpre.
        -- intros l' Hl'. rewrite Hp in Hl'. simplify_eq.
           rewrite lookup_insert_eq. split; [by eauto|by left].
    + (* a read that has returned *)
      done.
    + (* the Source is read *)
      cbn in Hd. simplify_eq.
      goes pts i (AtGather (src st) (refreshOnce_gather (src st) fuel0)).
      eapply consistent_move; try done; cbn; try lia.
      apply refreshOnce_gather_world.
    + (* gathering *)
      destruct p as [[err|[|a all]]|X o k|].
      * done.
      * (* nothing gathered: RLock of snapshot *)
        change (prog_at (AtGather s (Ret (inr [])))) with (prog_at (AtSnapshot (ByPass s))) in Hd.
        rewrite prog_at_snapshot in Hd. cbn in Hd. destruct (writer (mu st)) eqn:Hwr; simplify_eq.
        goes pts i (AtLocked (ByPass s)).
        eapply consistent_move; try done; cbn; rewrite ?Hwr; try done; lia.
      * (* the gathered slice *)
        change (prog_at (AtGather s (Ret (inr (a :: all)))))
          with (Vis (AllocSlice (a :: all)) (λ sl, prog_at (AtLock sl))) in Hd.
        cbn in Hd. simplify_eq.
        goes pts i (AtLock {| s_ptr := Some (fresh (dom (heap st)));
                              s_len := S (length all) |}).
        eapply consistent_move; try done; cbn; try lia.
        -- intros l [a' Ha] _. rewrite lookup_insert_ne; [done|].
           intros <-. by rewrite fresh_heap in Ha.
        -- unfold slice_ok. cbn. rewrite lookup_insert_eq. by eauto.
        -- intros l [= <-]. rewrite lookup_insert_eq. split; [by eauto|].
           right. apply fresh_heap.
      * (* a call to the world *)
        destruct Hk as [Ho Hk].
        destruct (exec_world_op c o st Ho) as (x & st' & Hx & Hm).
        cbn in Hd. rewrite Hx in Hd.
        assert (Hsp : spawned rounds fuel o = []) by (by destruct o).
        rewrite Hsp in Hd. simplify_eq.
        destruct Hm as (_ & Hmu & Hcur & _ & Hheap & _).
        goes pts i (AtGather s (k x)).
        eapply consistent_move; try done; cbn; rewrite ?Hmu, ?Hheap; try done; lia.
      * done.
    + (* Warn, then Lock *)
      cbn in Hd. simplify_eq. goes pts i (AtLock nil_slice).
      eapply consistent_move; try done; cbn; lia.
    + (* Lock *)
      cbn in Hd. destruct (writer (mu st)) eqn:Hwr; [done|].
      destruct (readers (mu st)) as [|n] eqn:Hrd; [|done]. simplify_eq.
      goes pts i (AtStore sl).
      eapply consistent_move; try done; cbn; rewrite ?Hwr, ?Hrd; try done.
      intros l Hl. split; [by apply Hcell|by left].
    + (* s.current is assigned *)
      cbn in Hd. simplify_eq. goes pts i AtUnlock.
      destruct (others_frame_store pts st h i sl (set_current sl st) Hcons Hi)
        as [Ho Hcur']; [done..|].
      eapply consistent_update; try done.
    + (* Unlock *)
      cbn in Hd. destruct (writer (mu st)) eqn:Hwr; [|lia]. simplify_eq.
      goes pts i (AtDone None).
      eapply consistent_move; try done; cbn; rewrite ?Hwr; try done.
    + (* Warn, then return *)
      cbn in Hd. simplify_eq. goes pts i (AtDone None).
      eapply consistent_move; try done; cbn; lia.
    + (* a pass that has returned *)
      done.
  - destruct (tick st); simplify_eq.
    exists pts. eexists. split; [done|]. by apply consistent_tick.
Qed.

Lemma history_trans rounds fuel s1 h1 s2 ds s3 :
  history rounds fuel s1 h1 s2 → schedules rounds fuel ds s2 = Some s3 →
  history rounds fuel s1 (h1 ++ trail rounds fuel ds s2) s3.
Proof.
  intros Hh. revert h1 s2 Hh. induction ds as [|d ds IH]; intros h1 s2 Hh Hs; cbn in *.
  - simplify_eq. by rewrite app_nil_r.
  - destruct (schedule rounds fuel d s2) as [s2'|] eqn:Hd; [|done].
    rewrite cons_middle, app_assoc. apply IH; [|done].
    eapply history_step; [done|by exists d].
Qed.

Lemma schedules_history rounds fuel ds s s' :
  schedules rounds fuel ds s = Some s' →
  history rounds fuel s (published (state_in s) :: trail rounds fuel ds s) s'.
Proof.
  intros Hs. apply (history_trans _ _ s [published (state_in s)] s ds s'); [|done].
  apply history_start.
Qed.

Lemma history_consistent rounds fuel pts0 st0 h s :
  consistent pts0 st0 [published st0] →
  history rounds fuel (Running (prog_at <$> pts0) st0) h s →
  ∃ pts st, s = Running (prog_at <$> pts) st ∧ consistent pts st h.
Proof.
  intros Hcons Hh.
  remember (Running (prog_at <$> pts0) st0) as s0 eqn:Hs0.
  induction Hh as [s|s h s1 s2 Hh IH Hstep]; subst s.
  - by exists pts0, st0.
  - destruct (IH eq_refl) as (pts1 & st1 & -> & Hc1).
    destruct (consistent_step _ _ _ _ _ _ Hc1 Hstep) as (pts2 & st2 & -> & Hc2).
    by exists pts2, st2.
Qed.

Lemma consistent_start pts st :
  mutex_free st → slice_ok (heap st) (current st) →
  Forall (λ pt, pt = AtSnapshot ByRead ∨ ∃ f, pt = AtPass f) pts →
  consistent pts st [published st].
Proof.
  intros Hmu Hok Hpts. rewrite Forall_lookup in Hpts. unfold mutex_free in Hmu.
  assert (Hz : ∀ f : point → nat,
             (∀ pt, (pt = AtSnapshot ByRead ∨ ∃ g, pt = AtPass g) → f pt = 0) →
             sum_list (f <$> pts) = 0).
  { intros f Hf. clear Hok Hmu. induction pts as [|pt pts IH]; [done|]. cbn.
    rewrite (Hf pt (Hpts 0 pt eq_refl)). apply IH. intros i. apply (Hpts (S i)). }
  split.
  - intros i pt Hi. by destruct (Hpts i pt Hi) as [->|[f ->]].
  - intros i pt l Hi. by destruct (Hpts i pt Hi) as [->|[f ->]].
  - intros i j pi pj l Hi. by destruct (Hpts i pi Hi) as [->|[f ->]].
  - done.
  - rewrite Hmu. cbn. symmetry. apply Hz. by intros pt [->|[f ->]].
  - rewrite Hmu. cbn. apply Hz. by intros pt [->|[f ->]].
  - by rewrite Hmu.
  - apply list_elem_of_singleton. done.
Qed.

Lemma prog_at_returned pt out : prog_at pt = Ret (VSlice out) → pt = AtReturned out.
Proof.
  destruct pt as [k|k|k c|k o|k o c i n|o|f|s p| |sl|sl| | |e];
    try (by destruct k); try done.
  - by destruct k, n.
  - cbn. by intros [= ->].
  - destruct p as [[err|[|a all]]|X o k|]; done.
Qed.

(** C2. Reads and refresh passes that run at the same time, in any
    interleaving of their operations: the process does not panic, the write
    lock is never held together with a read lock, and every read that has
    returned holds exactly the elements that were published in one of the
    states the run went through, the snapshot before an install or the one
    after it, never a mixture. *)
Theorem C2_atomic_visibility rounds fuel ts0 st0 h s :
  mutex_free st0 → slice_ok (heap st0) (current st0) →
  Forall (λ t, t = go_read ∨ ∃ f, t = go_refresh f) ts0 →
  history rounds fuel (Running ts0 st0) h s →
  ∃ ts st,
    s = Running ts st ∧
    (writer (mu st) = true → readers (mu st) = 0) ∧
    ∀ i out, ts !! i = Some (Ret (VSlice out)) → elems (heap st) out ∈ h.
Proof.
  intros Hmu Hok Hts Hh.
  assert (Hpts : ∃ pts0, ts0 = prog_at <$> pts0 ∧
                         Forall (λ pt, pt = AtSnapshot ByRead ∨ ∃ f, pt = AtPass f) pts0).
  { clear Hh. induction Hts as [|t ts0 Ht _ (pts0 & -> & Hpts0)]; [by exists []|].
    destruct Ht as [->|[f ->]].
    - exists (AtSnapshot ByRead :: pts0). split; [done|]. constructor; auto.
    - exists (AtPass f :: pts0). split; [done|]. constructor; eauto. }
  destruct Hpts as (pts0 & -> & Hpts0).
  destruct (history_consistent rounds fuel pts0 st0 h s) as (pts & st & -> & Hc);
    [by apply consistent_start|done|].
  exists (prog_at <$> pts), st. split; [done|]. split; [apply Hc|].
  intros i out Hi. rewrite list_lookup_fmap in Hi.
  destruct (pts !! i) as [pt|] eqn:Hpt; [|done]. cbn in Hi.
  injection Hi as Hi. apply prog_at_returned in Hi as ->.
  by destruct (cons_knows _ _ _ Hc i _ Hpt) as [_ ?].
Qed.

(** * The life cycle: [Provision], the refresher, [Cleanup] *)

Lemma exec_quiet c {X} (o : op X) st x st' :
  quiet_op o → exec c o st = Ok x st' → same_control st st'.
Proof.
  unfold same_control. destruct o; cbn; try done; intros _ Hx;
    repeat case_match; simplify_eq; done.
Qed.

Lemma same_control_refl st : same_control st st.
Proof. by unfold same_control. Qed.

Lemma same_control_trans st1 st2 st3 :
  same_control st1 st2 → same_control st2 st3 → same_control st1 st3.
Proof.
  unfold same_control. intros (?&?&?&?) (?&?&?&?). repeat split; congruence.
Qed.

Lemma run_quiet {A} (p : prog A) st :
  only (@quiet_op) p → same_control st (state_of (run p st)).
Proof.
  revert st. induction p as [a|X o k IH|]; intros st Hp; cbn;
    [apply same_control_refl| |apply same_control_refl].
  destruct Hp as [Ho Hk]. destruct (exec SelStop o st) as [x st'| |] eqn:Hx;
    [|apply same_control_refl..].
  eapply same_control_trans; [by eapply exec_quiet|by apply IH].
Qed.

Lemma world_quiet {A} (p : prog A) : only (@world_op) p → only (@quiet_op) p.
Proof. apply only_weaken. by intros X []. Qed.

Lemma refreshOnce_quiet fuel : only (@quiet_op) (refreshOnce fuel).
Proof.
  unfold refreshOnce. prog_simpl. split; [done|]. intros s.
  apply only_bind; [apply world_quiet, refreshOnce_gather_world|].
  intros [err|all]; [done|]. by apply refreshOnce_install_only.
Qed.

Lemma snapshot_quiet : only (@quiet_op) snapshot.
Proof. by apply snapshot_only. Qed.

Lemma same_memory_control st st' : same_memory st st' → same_control st st'.
Proof. unfold same_memory, same_control. intros (?&?&?&?&?&?&?). done. Qed.

(** All a pass can do when it runs alone from a state in which nobody holds
    [s.mu]. *)
Lemma refreshOnce_cases fuel st :
  mutex_free st → slice_ok (heap st) (current st) →
  match run (refreshOnce fuel) st with
  | Done r st' =>
      same_control st st' ∧ mutex_free st' ∧ slice_ok (heap st') (current st') ∧
      match r with
      | Some e =>
          pass_error e ∧ current st' = current st ∧ published st' = published st ∧
          (e = ErrResolvedZero → published st = [] ∧ RequireNonEmpty (src st) = true)
      | None =>
          published st' = [] → published st = [] ∧ RequireNonEmpty (src st) = false
      end
  | OutOfFuel st' => same_memory st st'
  | _ => False
  end.
Proof.
  intros Hmu Hok. rewrite refreshOnce_run.
  destruct (refreshOnce_gather_run (src st) fuel st) as (Hsame & evs & _ & Hspec).
  destruct (same_memory_ok _ _ Hsame) as (Hok1 & Hmu1 & Hpub1).
  destruct (run (refreshOnce_gather (src st) fuel) st) as [[err|all] st1|?|?|?];
    cbn in *; try done.
  - split; [by apply same_memory_control|]. do 2 (split; [by auto|]).
    destruct Hsame as (?&?&Hc&?).
    assert (He : pass_error err ∧ err ≠ ErrResolvedZero).
    { destruct Hspec as [[_ [e ->]]|(evs0 & ev & _ & Hev & _)]; [done|].
      destruct ev as [| |c id tok [e|out]|]; by simplify_eq/=. }
    destruct He as [He1 He2]. done.
  - specialize (Hok1 Hok). specialize (Hmu1 Hmu).
    assert (Hctl : same_control st st1) by (by apply same_memory_control).
    assert (Hsrc : src st1 = src st) by apply Hsame.
    assert (Hcur : current st1 = current st) by apply Hsame.
    destruct all as [|a all].
    + rewrite install_empty_run by done.
      assert (Hz : s_len (current st1) = 0 ↔ published st = []).
      { rewrite <- Hpub1. symmetry. by apply published_nil_iff. }
      set (st2 := set_heap _ st1).
      assert (Hok2 : slice_ok (heap st2) (current st2)).
      { subst st2. cbn. unfold slice_ok in *. destruct (s_ptr (current st1)) as [l|]; [|done].
        destruct Hok1 as (b & Hb & ?). exists b. split; [|done].
        rewrite lookup_insert_ne; [done|]. intros <-. by rewrite fresh_heap in Hb. }
      assert (Hpub2 : published st2 = published st).
      { subst st2. by rewrite published_set_heap_fresh. }
      destruct (bool_decide (s_len (current st1) = 0)) eqn:Hb;
        [apply bool_decide_eq_true in Hb|apply bool_decide_eq_false in Hb].
      * destruct (RequireNonEmpty (src st)) eqn:Hreq; cbn.
        -- split; [done|]. split; [done|]. split; [done|].
           split; [done|]. split; [done|]. split; [done|]. intros _. split; [by apply Hz|done].
        -- destruct (decide (s_len (current st1) = 0)); [|done]. cbn.
           split; [done|]. split; [done|]. split; [done|].
           intros _. split; [by apply Hz|done].
      * cbn. destruct (decide (s_len (current st1) = 0)); [done|]. cbn.
        split; [done|]. split; [done|]. split; [done|].
        change (published (log _ st2)) with (published st2). rewrite Hpub2.
        intros Hnil. by destruct Hb; apply Hz.
    + rewrite install_nonempty_run by done.
      split; [done|]. split; [done|]. split.
      { unfold slice_ok. cbn. rewrite lookup_insert_eq. by eauto. }
      by rewrite published_install.
Qed.

(** [Provision] is the initial pass on the fields with their defaults, then
    a look at what it published, then the start of the refresher. *)
Lemma Provision_run fuel st :
  run (Provision fuel) st =
  andthen (run (refreshOnce fuel) (set_src (λ _, with_defaults (world st) (src st)) st))
    (λ err st1,
       match err with
       | Some e => Done (Some e) st1
       | None =>
           andthen (run snapshot st1)
             (λ snap st2,
                if decide (s_len snap = 0) then
                  if RequireNonEmpty (src st) then Done (Some ErrNoPrefixesInitial) st2
                  else Done None
                         (refresher_started
                            (log (EvWarn "cloudfront_origin_pl: initial fetch returned zero prefixes; running with empty set") st2))
                else Done None (refresher_started st2))
       end).
Proof.
  assert (Hrest : ∀ region st0,
    st0 = set_src (λ _, with_defaults (world st) (src st)) st →
    region = region_of (world st) (src st) →
    run (_ ← call (SetSource
                     {| Region := region; PrefixListID := PrefixListID (src st);
                        PrefixListName :=
                          if bool_decide (PrefixListID (src st) = ""%string)
                             && bool_decide (PrefixListName (src st) = ""%string)
                          then defaultPLNameV4 else PrefixListName (src st);
                        IncludeIPv6 := IncludeIPv6 (src st);
                        Refresh := if decide (Refresh (src st) = 0%Z)
                                   then defaultRefresh else Refresh (src st);
                        AWSProfile := AWSProfile (src st);
                        RoleARN := RoleARN (src st);
                        RequireNonEmpty := RequireNonEmpty (src st) |});
         err ← refreshOnce fuel;
         match err with
         | Some e => Ret (Some e)
         | None =>
             snap ← snapshot;
             if decide (s_len snap = 0) then
               if RequireNonEmpty (src st) then Ret (Some ErrNoPrefixesInitial)
               else
                 _ ← call (Warn "cloudfront_origin_pl: initial fetch returned zero prefixes; running with empty set"%string);
                 _ ← call MakeStopCh; _ ← call GoRefresher; Ret None
             else _ ← call MakeStopCh; _ ← call GoRefresher; Ret None
         end) st
    = andthen (run (refreshOnce fuel) st0)
    (λ err st1,
       match err with
       | Some e => Done (Some e) st1
       | None =>
           andthen (run snapshot st1)
             (λ snap st2,
                if decide (s_len snap = 0) then
                  if RequireNonEmpty (src st) then Done (Some ErrNoPrefixesInitial) st2
                  else Done None
                         (refresher_started
                            (log (EvWarn "cloudfront_origin_pl: initial fetch returned zero prefixes; running with empty set") st2))
                else Done None (refresher_started st2))
       end)).
  { intros region st0 -> ->. prog_simpl. cbn [run exec]. rewrite run_bind.
    change (set_src _ st) with (set_src (λ _, with_defaults (world st) (src st)) st).
    destruct (run (refreshOnce fuel) _) as [[e|] st1|?|?|?]; cbn [andthen]; try done.
    rewrite run_bind.
    destruct (run snapshot st1) as [snap st2|?|?|?]; cbn [andthen]; try done.
    destruct (decide (s_len snap = 0)); [destruct (RequireNonEmpty (src st))|]; done. }
  unfold Provision. prog_simpl. cbn [run exec].
  unfold region_of in Hrest.
  destruct (decide (Region (src st) = ""%string)) as [Hr|Hr].
  - cbn [bind run exec].
    destruct (decide (Getenv (world st) "AWS_REGION" = ""%string)) as [He|He].
    + cbn [bind run exec].
      destruct (decide (Getenv (world st) "AWS_DEFAULT_REGION" = ""%string)) as [Hd|Hd];
        cbn [bind]; by apply Hrest.
    + cbn [bind]. by apply Hrest.
  - cbn [bind]. by apply Hrest.
Qed.

Lemma Provision_src fuel st :
  src (state_of (run (Provision fuel) st)) = with_defaults (world st) (src st).
Proof.
  rewrite Provision_run.
  set (st0 := set_src _ st).
  assert (Hs0 : src st0 = with_defaults (world st) (src st)) by done.
  pose proof (run_quiet (refreshOnce fuel) st0 (refreshOnce_quiet fuel)) as (Hsrc & _).
  destruct (run (refreshOnce fuel) st0) as [[e|] st1|?|?|?];
    cbn [andthen state_of] in *; try congruence.
  pose proof (run_quiet snapshot st1 snapshot_quiet) as (Hsrc2 & _).
  destruct (run snapshot st1) as [snap st2|?|?|?];
    cbn [andthen state_of] in *; try congruence.
  destruct (decide (s_len snap = 0)); [destruct (RequireNonEmpty (src st))|];
    cbn; congruence.
Qed.

(** All [Provision] can do when it runs alone from a state in which nobody
    holds [s.mu]. *)
Lemma Provision_cases fuel st :
  mutex_free st → slice_ok (heap st) (current st) →
  match run (Provision fuel) st with
  | Done r st' =>
      mutex_free st' ∧ slice_ok (heap st') (current st') ∧ tick st' = tick st ∧
      match r with
      | Some e =>
          pass_error e ∧ stopCh st' = stopCh st ∧ started st' = started st ∧
          current st' = current st ∧ published st' = published st
      | None => stopCh st' = ChOpen ∧ started st' = S (started st)
      end
  | OutOfFuel st' =>
      stopCh st' = stopCh st ∧ started st' = started st ∧ current st' = current st
  | _ => False
  end.
Proof.
  intros Hmu Hok. rewrite Provision_run.
  set (st0 := set_src _ st).
  pose proof (refreshOnce_cases fuel st0 Hmu Hok) as Hc.
  destruct (run (refreshOnce fuel) st0) as [[e|] st1|?|?|st1]; cbn [andthen]; try done.
  - destruct Hc as ((_ & Hch & Htk & Hn) & Hmu1 & Hok1 & He & Hcur & Hpub & _). done.
  - destruct Hc as ((_ & Hch & Htk & Hn) & Hmu1 & Hok1 & Hnil).
    rewrite snapshot_run by (done || by rewrite Hmu1). cbn [andthen s_len].
    set (st2 := set_heap _ st1).
    assert (Hok2 : slice_ok (heap st2) (current st2)).
    { subst st2. cbn. unfold slice_ok in *. destruct (s_ptr (current st1)) as [l|]; [|done].
      destruct Hok1 as (b & Hb & ?). exists b. split; [|done].
      rewrite lookup_insert_ne; [done|]. intros <-. by rewrite fresh_heap in Hb. }
    destruct (decide (s_len (current st1) = 0)) as [Hz|Hz].
    + apply (published_nil_iff st1 Hok1) in Hz. destruct (Hnil Hz) as [_ Hreq].
      change (RequireNonEmpty (src st0)) with (RequireNonEmpty (src st)) in Hreq.
      rewrite Hreq. unfold mutex_free in *.
      repeat split; cbn; try done; try congruence. by rewrite Hn.
    + unfold mutex_free in *.
      repeat split; cbn; try done; try congruence. by rewrite Hn.
  - destruct Hc as (_ & _ & Hcur & Hch & _ & _ & Hn). done.
Qed.

(** ** What [Provision] makes of the configuration *)

(** X1. Whatever comes of the initial pass, [Provision] leaves the exported
    fields like this: a configured region is kept, else the region is
    [AWS_REGION], else [AWS_DEFAULT_REGION], else us-east-1; a zero refresh
    period becomes twelve hours; the list name becomes the IPv4 default when
    neither an id nor a name is configured; the other fields are kept.  So
    afterwards the region is not empty, the period is not zero and an id or
    a name is there. *)
Theorem Provision_fills_defaults fuel st :
  let s := src st in
  let s' := src (state_of (run (Provision fuel) st)) in
  let env := Getenv (world st) in
  Region s' = (if decide (Region s ≠ "") then Region s
               else if decide (env "AWS_REGION" ≠ "") then env "AWS_REGION"
               else if decide (env "AWS_DEFAULT_REGION" ≠ "") then env "AWS_DEFAULT_REGION"
               else "us-east-1")%string ∧
  Refresh s' = (if decide (Refresh s = 0) then 43200000000000 else Refresh s)%Z ∧
  PrefixListName s' =
    (if decide (PrefixListID s = "" ∧ PrefixListName s = "")
     then "com.amazonaws.global.cloudfront.origin-facing" else PrefixListName s)%string ∧
  PrefixListID s' = PrefixListID s ∧ IncludeIPv6 s' = IncludeIPv6 s ∧
  AWSProfile s' = AWSProfile s ∧ RoleARN s' = RoleARN s ∧
  RequireNonEmpty s' = RequireNonEmpty s ∧
  Region s' ≠ ""%string ∧ Refresh s' ≠ 0%Z ∧
  (PrefixListID s' = ""%string → PrefixListName s' ≠ ""%string).
Proof.
  intros s s' env. subst s'. rewrite Provision_src. fold s. fold env.
  unfold with_defaults, region_of. cbn. fold env.
  repeat split; repeat (case_decide || case_bool_decide); cbn in *;
    try done; try naive_solver.
Qed.

(** X2. [Provision] that runs alone on a [Source] whose lock is free
    neither panics nor blocks.  When it returns nil it has made the stop
    channel and started one refresher; when it returns an error, or when the
    bound of the paging loop cuts it short, it has made no channel and
    started no goroutine, and an error leaves what is published as it was.
    The lock is free again in both cases. *)
Theorem Provision_starts_refresher_iff_nil fuel st :
  mutex_free st → slice_ok (heap st) (current st) →
  match run (Provision fuel) st with
  | Done None st' =>
      stopCh st' = ChOpen ∧ started st' = S (started st) ∧ mutex_free st'
  | Done (Some e) st' =>
      stopCh st' = stopCh st ∧ started st' = started st ∧ mutex_free st' ∧
      current st' = current st ∧ published st' = published st
  | OutOfFuel st' => stopCh st' = stopCh st ∧ started st' = started st
  | Panicked _ | Blocked _ => False
  end.
Proof.
  intros Hmu Hok. pose proof (Provision_cases fuel st Hmu Hok) as Hc.
  destruct (run (Provision fuel) st) as [[e|] st'|?|?|st']; try done.
  - destruct Hc as (? & _ & _ & _ & ? & ? & ? & ?). done.
  - destruct Hc as (? & _ & _ & ? & ?). done.
  - destruct Hc as (? & ? & _). done.
Qed.

(** X3. The error of line 105, no prefixes found on initial fetch, is never
    returned by a [Provision] that runs alone: a pass that found nothing
    with [RequireNonEmpty] set has already failed with the error of line
    261.  The errors [Provision] does return are those of the pass: the
    configuration could not be loaded, a page request failed, or zero
    prefixes were resolved. *)
Theorem Provision_initial_empty_unreachable fuel st e st' :
  mutex_free st → slice_ok (heap st) (current st) →
  run (Provision fuel) st = Done (Some e) st' →
  e ≠ ErrNoPrefixesInitial ∧
  ((∃ err, e = ErrAwsConfig err) ∨ (∃ id err, e = ErrGetEntries id err) ∨
   e = ErrResolvedZero).
Proof.
  intros Hmu Hok Hrun. pose proof (Provision_cases fuel st Hmu Hok) as Hc.
  rewrite Hrun in Hc. destruct Hc as (_ & _ & _ & He & _).
  destruct e; cbn in He; try done; split; try done; eauto.
Qed.

(** X4. With a provider that serves one list in at most [fuel] pages, and
    at least one prefix on them, [Provision] returns nil: what is published
    afterwards are the prefixes of these pages, the stop channel is open and
    one refresher is started. *)
Theorem Provision_installs_and_starts fuel st id outs :
  let st0 := set_src (λ _, with_defaults (world st) (src st)) st in
  single_list_pass st0 id outs → length outs ≤ fuel →
  mutex_free st → slice_ok (heap st) (current st) →
  (scanEntries (entries_of outs) ∅ []).2 ≠ [] →
  ∃ st', run (Provision fuel) st = Done None st' ∧
         published st' = (scanEntries (entries_of outs) ∅ []).2 ∧
         stopCh st' = ChOpen ∧ started st' = S (started st) ∧ mutex_free st'.
Proof.
  intros st0 Hpass Hfuel Hmu Hok Hne.
  destruct (single_list_refresh fuel st0 id outs Hpass Hfuel Hmu Hne) as (st1 & Hrun & Hpub).
  pose proof (refreshOnce_cases fuel st0 Hmu Hok) as Hc. rewrite Hrun in Hc.
  destruct Hc as ((_ & Hch & Htk & Hn) & Hmu1 & Hok1 & _).
  rewrite Provision_run. fold st0. rewrite Hrun. cbn [andthen].
  rewrite snapshot_run by (done || by rewrite Hmu1). cbn [andthen s_len].
  destruct (decide (s_len (current st1) = 0)) as [Hz|Hz].
  { apply (published_nil_iff st1 Hok1) in Hz. congruence. }
  eexists. split; [done|]. unfold mutex_free in *.
  repeat split; cbn; try done.
  - change (published (set_heap (<[fresh (dom (heap st1)) := published st1]> (heap st1)) st1)
            = (scanEntries (entries_of outs) ∅ []).2).
    by rewrite published_set_heap_fresh.
  - by rewrite Hn.
Qed.

(** X5. [Provision] on a new [Source], then [Cleanup], as the host calls
    them also when [Provision] failed: the two never panic.  After a
    [Provision] that returned nil the channel is closed; after one that
    failed there is no channel and [Cleanup] does nothing. *)
Theorem Provision_then_Cleanup fuel st :
  stopCh st = ChNil → mutex_free st → slice_ok (heap st) (current st) →
  match run (Provision fuel) st with
  | Done None st1 =>
      ∃ st2, run Cleanup st1 = Done None st2 ∧ stopCh st2 = ChClosed
  | Done (Some _) st1 => run Cleanup st1 = Done None st1 ∧ stopCh st1 = ChNil
  | OutOfFuel st1 => stopCh st1 = ChNil
  | Panicked _ | Blocked _ => False
  end.
Proof.
  intros Hnil Hmu Hok. pose proof (Provision_cases fuel st Hmu Hok) as Hc.
  destruct (run (Provision fuel) st) as [[e|] st'|?|?|st']; try done.
  - destruct Hc as (_ & _ & _ & _ & Hch & _). rewrite Hnil in Hch.
    by rewrite Cleanup_run, Hch.
  - destruct Hc as (_ & _ & _ & Hch & _). rewrite Cleanup_run, Hch. by eexists.
  - destruct Hc as (Hch & _). congruence.
Qed.

(** X22. By default a start with nothing to serve is allowed.  When the
    initial pass gathers no prefix on a [Source] that publishes nothing and
    does not have [RequireNonEmpty] set, [Provision] returns nil all the
    same: it publishes the empty list, logs that it runs with an empty set
    as its last message, opens the stop channel and starts the refresher. *)
Theorem Provision_runs_with_empty_set fuel st st1 :
  let st0 := set_src (λ _, with_defaults (world st) (src st)) st in
  mutex_free st → slice_ok (heap st) (current st) →
  published st = [] → RequireNonEmpty (src st) = false →
  run (refreshOnce_gather (src st0) fuel) st0 = Done (inr []) st1 →
  ∃ st', run (Provision fuel) st = Done None st' ∧
         current st' = nil_slice ∧ published st' = [] ∧
         stopCh st' = ChOpen ∧ started st' = S (started st) ∧
         last (trace st')
         = Some (EvWarn "cloudfront_origin_pl: initial fetch returned zero prefixes; running with empty set").
Proof.
  intros st0 Hmu Hok Hpub Hreq Hg.
  destruct (refreshOnce_gather_run (src st0) fuel st0) as (Hsame & _).
  rewrite Hg in Hsame. cbn [state_of] in Hsame.
  destruct (same_memory_ok _ _ Hsame) as (Hok1 & Hmu1 & Hpub1).
  specialize (Hok1 Hok). specialize (Hmu1 Hmu).
  change (published st0) with (published st) in Hpub1.
  assert (Hz : s_len (current st1) = 0).
  { apply (published_nil_iff st1 Hok1). congruence. }
  destruct Hsame as (_ & _ & _ & Hch & _ & _ & Hn).
  rewrite Provision_run. fold st0. rewrite refreshOnce_run, Hg. cbn [andthen].
  rewrite install_empty_run by done.
  change (RequireNonEmpty (src st0)) with (RequireNonEmpty (src st)). rewrite Hreq.
  rewrite andb_false_r. rewrite decide_True by done. cbn [andthen].
  rewrite snapshot_run.
  - cbn [andthen s_len current set_current nil_slice]. rewrite decide_True by done.
    rewrite ?Hreq. eexists. split; [done|].
    repeat split; cbn; try done.
    + by rewrite Hn.
    + by rewrite last_snoc.
  - cbn. unfold mutex_free in Hmu1. by rewrite Hmu1.
  - done.
Qed.

(** ** What a pass never does *)

(** X6. A pass that runs alone with the lock free neither panics nor
    blocks, and leaves the lock free.  The errors it returns are three: the
    configuration could not be loaded, a page request failed, zero prefixes
    were resolved with [RequireNonEmpty] set; a name lookup that fails or
    finds nothing is never returned as an error.  With any error
    [s.current] and the elements it publishes are as before the pass. *)
Theorem refreshOnce_alone fuel st :
  mutex_free st → slice_ok (heap st) (current st) →
  match run (refreshOnce fuel) st with
  | Done None st' => mutex_free st' ∧ slice_ok (heap st') (current st')
  | Done (Some e) st' =>
      mutex_free st' ∧ current st' = current st ∧ published st' = published st ∧
      ((∃ err, e = ErrAwsConfig err) ∨ (∃ id err, e = ErrGetEntries id err) ∨
       e = ErrResolvedZero) ∧
      (∀ err, e ≠ ErrDescribe err) ∧ (∀ n r, e ≠ ErrNotFound n r)
  | OutOfFuel st' => mutex_free st' ∧ current st' = current st
  | Panicked _ | Blocked _ => False
  end.
Proof.
  intros Hmu Hok. pose proof (refreshOnce_cases fuel st Hmu Hok) as Hc.
  destruct (run (refreshOnce fuel) st) as [[e|] st'|?|?|st']; try done.
  - destruct Hc as (_ & ? & _ & He & ? & ? & _).
    do 3 (split; [done|]). destruct e; cbn in He; try done; eauto 10.
  - by destruct Hc as (_ & ? & ? & _).
  - destruct Hc as (_ & Hm & ? & _). unfold mutex_free in *. by rewrite Hm.
Qed.

(** X7. When the AWS configuration cannot be loaded, the pass returns that
    error wrapped and has asked the provider nothing else: the failed load
    is its only event, whatever the bound of the loops and whoever holds the
    lock.  The profile is passed to the loader only when one is
    configured. *)
Theorem refreshOnce_config_failure fuel st err w :
  let profile := if decide (AWSProfile (src st) = ""%string) then None
                 else Some (AWSProfile (src st)) in
  LoadDefaultConfig (world st) (Region (src st)) profile = (Some err, w) →
  run (refreshOnce fuel) st
  = Done (Some (ErrAwsConfig err))
      (set_world w (EvLoadDefaultConfig (Region (src st)) profile (Some err)) st) ∧
  events_since st (state_of (run (refreshOnce fuel) st))
  = [EvLoadDefaultConfig (Region (src st)) profile (Some err)].
Proof.
  intros profile Hload.
  assert (Hrun : run (refreshOnce fuel) st
    = Done (Some (ErrAwsConfig err))
        (set_world w (EvLoadDefaultConfig (Region (src st)) profile (Some err)) st)).
  { unfold refreshOnce, refreshOnce_gather, loadAWSConfig. prog_simpl. cbn [run exec].
    fold profile. by rewrite Hload. }
  split; [done|]. rewrite Hrun. cbn [state_of]. by apply events_since_app.
Qed.

(** ** What a pass asks of the provider *)

Lemma only_bind_leaf P {A B} (p : prog A) (f : A → prog B) :
  only P p → (∀ a, leaf p a → only P (f a)) → only P (bind p f).
Proof.
  induction p as [a|X o k IH|]; cbn; [by auto| |done].
  intros [Ho Hk] Hf. split; [done|]. intros x. apply IH; [done|]. eauto.
Qed.

Lemma fetchPages_only (P : ∀ X, op X → Prop) fuel c id tok seen all :
  (∀ t, P _ (Ec2GetEntries c id maxResultsPerPage t)) →
  only P (fetchPages fuel c id tok seen all).
Proof.
  intros HP. revert tok seen all. induction fuel as [|fuel IH]; intros tok seen all; [done|].
  cbn. split; [done|]. intros [err|out]; cbn; [done|].
  destruct (scanEntries _ _ _) as [seen' all'].
  repeat case_match; try done; apply IH.
Qed.

Lemma fetchLists_only (P : ∀ X, op X → Prop) fuel c ids seen all :
  (∀ id t, id ∈ ids → P _ (Ec2GetEntries c id maxResultsPerPage t)) →
  only P (fetchLists fuel c ids seen all).
Proof.
  revert seen all. induction ids as [|id ids IH]; intros seen all HP; [done|].
  cbn. apply only_bind.
  - apply fetchPages_only. intros t. apply HP. by left.
  - intros [err|[seen' all']]; [done|]. apply IH. intros id' t Hin. apply HP. by right.
Qed.

Lemma loadAWSConfig_leaf s c : leaf (loadAWSConfig s) (inr c) → c = config_of s.
Proof.
  unfold loadAWSConfig. prog_simpl. intros [[err|] Hl]; cbn in Hl; by simplify_eq.
Qed.

Lemma resolvePrefixListID_leaf s c e n d id err :
  leaf (resolvePrefixListID s c e n d) (id, err) → e ≠ ""%string → id = e.
Proof.
  unfold resolvePrefixListID. intros Hl He.
  destruct (decide (e = ""%string)); [done|]. cbn in Hl. by simplify_eq.
Qed.

Lemma resolvePrefixListID_request s e n d :
  (e = ""%string → (if decide (n = ""%string) then d else n) = name_of s ∨
                   (if decide (n = ""%string) then d else n) = defaultPLNameV6) →
  only (@request_op s) (resolvePrefixListID s (config_of s) e n d).
Proof.
  unfold resolvePrefixListID. intros Hn.
  destruct (decide (e = ""%string)) as [He|He]; [|done].
  prog_simpl. cbn. split; [by auto|]. intros [err|pls]; [done|].
  by destruct (scanPrefixLists _ _).
Qed.

Lemma leaf_bind {A B} (p : prog A) (f : A → prog B) b :
  leaf (bind p f) b → ∃ a, leaf p a ∧ leaf (f a) b.
Proof.
  induction p as [a|X o k IH|]; cbn; [by eauto| |done].
  intros [x Hl]. destruct (IH x Hl) as (a & ? & ?). by eauto.
Qed.

(** The ids a pass fetches: none is empty, and with a configured id and
    IPv6 off there is that id alone. *)
Lemma refreshOnce_resolve_leaf s c ids :
  leaf (refreshOnce_resolve s c) ids →
  (""%string ∉ ids) ∧
  (PrefixListID s ≠ ""%string → IncludeIPv6 s = false → ids = [PrefixListID s]).
Proof.
  unfold refreshOnce_resolve. intros Hl.
  apply leaf_bind in Hl as ([idV4 err] & H4 & Hl).
  apply leaf_bind in Hl as ([] & _ & Hl).
  assert (Hids : ""%string ∉ (if decide (idV4 = ""%string) then [] else [idV4])).
  { case_decide; set_solver. }
  destruct (IncludeIPv6 s).
  - apply leaf_bind in Hl as ([idV6 err'] & _ & Hl).
    apply leaf_bind in Hl as ([] & _ & Hl). cbn in Hl. subst ids. split; [|done].
    repeat case_decide; set_solver.
  - cbn in Hl. subst ids. split; [done|]. intros He _.
    apply resolvePrefixListID_leaf in H4 as ->; [|done]. by rewrite decide_False.
Qed.

Lemma refreshOnce_gather_request s fuel :
  only (@request_op s) (refreshOnce_gather s fuel).
Proof.
  unfold refreshOnce_gather. apply only_bind_leaf.
  { unfold loadAWSConfig. prog_simpl. cbn. split; [done|]. by intros [err|]. }
  intros [err|c] Hc; [done|]. apply loadAWSConfig_leaf in Hc as ->.
  apply only_bind_leaf.
  - unfold refreshOnce_resolve. apply only_bind.
    { apply resolvePrefixListID_request. intros _. by left. }
    intros [idV4 err]. apply only_bind; [by case_match|]. intros _.
    case_match; [|done]. apply only_bind.
    { apply resolvePrefixListID_request. intros _. by right. }
    intros [idV6 err']. apply only_bind; [by case_match|]. intros _. by case_match.
  - intros ids Hids. unfold refreshOnce_fetch. apply only_bind.
    + apply fetchLists_only. intros id t Hin. cbn. do 2 (split; [done|]).
      destruct (refreshOnce_resolve_leaf _ _ _ Hids) as [Hne Hex]. split.
      * by intros ->.
      * intros He H6. rewrite (Hex He H6) in Hin. by apply list_elem_of_singleton in Hin.
    + by intros [err|[seen all]].
Qed.

Lemma exec_request s c {X} (o : op X) st x st' :
  request_op s o → exec c o st = Ok x st' → Forall (request_ok s) (events_since st st').
Proof.
  intros Ho Hx. destruct o; cbn in Hx;
    repeat case_match; simplify_eq;
    try (by unfold events_since; rewrite drop_all);
    (erewrite events_since_app; [|by cbn]); apply Forall_singleton; cbn in *; tauto.
Qed.

(** X8. Every request of a pass goes through the client made of the
    region, profile and role of the [Source].  A page request names a list
    id that is not empty, and with a configured id and IPv6 off it names
    that id.  A name lookup asks for the configured name, for the IPv4
    default name when none is configured, or for the IPv6 default name. *)
Theorem refreshOnce_requests fuel st :
  Forall (request_ok (src st)) (events_since st (state_of (run (refreshOnce fuel) st))).
Proof.
  apply refreshOnce_events.
  - intros st0. apply (run_only_events (@request_op (src st))).
    + intros X o c st1 x st2. apply exec_request.
    + apply refreshOnce_gather_request.
  - intros all st1. apply (run_only_events (@request_op (src st))).
    + intros X o c st2 x st3. apply exec_request.
    + by apply refreshOnce_install_only.
Qed.

(** ** Name lookups *)

Lemma resolvePrefixListID_nothing s c n d st r w :
  let n' := if decide (n = ""%string) then d else n in
  DescribeManagedPrefixLists (world st) c n' 100 = (r, w) → finds_nothing n' r →
  ∃ err, run (resolvePrefixListID s c ""%string n d) st
         = Done (""%string, Some err) (set_world w (EvDescribe c n' r) st).
Proof.
  intros n' Hd Hr. unfold resolvePrefixListID. cbn [decide]. rewrite decide_True by done.
  prog_simpl. cbn [run exec]. fold n'. rewrite Hd.
  destruct r as [err|pls]; cbn in *; [by eauto|]. rewrite Hr. cbn. by eauto.
Qed.

(** X9. Name lookups that give nothing do not fail the pass.  With no
    configured id, when the lookup of the IPv4 name fails or finds no list
    of that name with an id (and, with IPv6 on, the lookup of the IPv6
    default name does as well), the pass logs a warning for each, asks for
    no page at all, whatever the bound of the paging loop, and goes on with
    an empty result, which the install policy then decides on. *)
Theorem lookups_fail_empty_pass fuel st w1 r4 w2 :
  let s := src st in
  let c := config_of s in
  PrefixListID s = ""%string →
  LoadDefaultConfig (world st) (Region s) (cfg_profile c) = (None, w1) →
  DescribeManagedPrefixLists w1 c (name_of s) 100 = (r4, w2) →
  finds_nothing (name_of s) r4 →
  (IncludeIPv6 s = false →
     run (refreshOnce_gather s fuel) st
     = Done (inr [])
         (advance w2 [EvLoadDefaultConfig (Region s) (cfg_profile c) None;
                      EvDescribe c (name_of s) r4; warn_v4] st)) ∧
  (∀ r6 w3,
     IncludeIPv6 s = true →
     DescribeManagedPrefixLists w2 c defaultPLNameV6 100 = (r6, w3) →
     finds_nothing defaultPLNameV6 r6 →
     run (refreshOnce_gather s fuel) st
     = Done (inr [])
         (advance w3 [EvLoadDefaultConfig (Region s) (cfg_profile c) None;
                      EvDescribe c (name_of s) r4; warn_v4;
                      EvDescribe c defaultPLNameV6 r6; warn_v6] st)).
Proof.
  intros s c Hid Hload H4 Hr4.
  assert (Hstart :
    run (refreshOnce_gather s fuel) st
    = andthen (run (refreshOnce_resolve s c)
                 (set_world w1 (EvLoadDefaultConfig (Region s) (cfg_profile c) None) st))
        (λ ids st2, run (refreshOnce_fetch fuel c ids) st2)).
  { unfold refreshOnce_gather, loadAWSConfig. prog_simpl. cbn [run exec].
    change (if decide (AWSProfile s = ""%string) then None else Some (AWSProfile s))
      with (cfg_profile c).
    rewrite Hload. cbn [bind]. by rewrite run_bind. }
  rewrite Hstart. clear Hstart.
  set (st1 := set_world w1 _ st).
  destruct (resolvePrefixListID_nothing s c (PrefixListName s) defaultPLNameV4 st1 r4 w2)
    as [e4 Hrun4]; [done..|].
  unfold refreshOnce_resolve. fold s. rewrite Hid. prog_simpl.
  rewrite !run_bind, Hrun4. cbn [andthen]. rewrite run_bind. cbn [run exec andthen].
  rewrite decide_True by done. split.
  - intros ->. cbn [run andthen]. unfold refreshOnce_fetch. prog_simpl. cbn [fetchLists bind run].
    f_equal. subst st1. rewrite !set_world_advance. unfold log.
    rewrite set_world_advance, !advance_advance. done.
  - intros r6 w3 -> H6 Hr6.
    set (st2 := log _ _).
    destruct (resolvePrefixListID_nothing s c defaultPLNameV6 defaultPLNameV6 st2 r6 w3)
      as [e6 Hrun6]; [done..|].
    rewrite !run_bind. cbn [decide] in Hrun6.
    rewrite Hrun6. cbn [andthen]. rewrite run_bind. cbn [run exec andthen].
    rewrite decide_True by done.
    unfold refreshOnce_fetch. prog_simpl. cbn [fetchLists bind run].
    f_equal. subst st2 st1. unfold log. rewrite !set_world_advance, !advance_advance. done.
Qed.

Lemma scanPrefixLists_first n pre pl post id :
  Forall (passed_over n) pre →
  ec2types.PrefixListName pl = Some n → ec2types.PrefixListId pl = Some id →
  scanPrefixLists n (pre ++ pl :: post) = Some id.
Proof.
  intros Hpre Hn Hid. induction Hpre as [|p pre Hp _ IH]; cbn.
  - by rewrite Hn, Hid, decide_True.
  - destruct Hp as [Hp|Hp].
    + destruct (ec2types.PrefixListName p) as [nm|]; [|done].
      destruct (ec2types.PrefixListId p); [|done].
      rewrite decide_False; [done|congruence].
    + rewrite Hp. by destruct (ec2types.PrefixListName p).
Qed.

(** X10. Among the lists a name lookup returns, the first one that has the
    name asked for and an id gives the resolved id: lists before it with
    another name, no name or no id are passed over, and lists after it are
    not looked at, whatever their names and ids. *)
Theorem resolve_takes_first_match s c name d st pre pl post id w :
  let n := if decide (name = ""%string) then d else name in
  DescribeManagedPrefixLists (world st) c n 100 = (inr (pre ++ pl :: post), w) →
  Forall (passed_over n) pre →
  ec2types.PrefixListName pl = Some n → ec2types.PrefixListId pl = Some id →
  run (resolvePrefixListID s c ""%string name d) st
  = Done (id, None) (set_world w (EvDescribe c n (inr (pre ++ pl :: post))) st).
Proof.
  intros n Hd Hpre Hn Hid. unfold resolvePrefixListID. rewrite decide_True by done.
  prog_simpl. cbn [run exec]. fold n. rewrite Hd. cbn [run].
  by rewrite (scanPrefixLists_first n pre pl post id).
Qed.

(** ** Paging without end *)

(** X11. The paging loop has no bound of its own and does not notice a
    token it has seen: with a provider that answers every page request for
    a list with a page and a further token, the loop asks on and on.  For
    every bound [fuel] it has made [fuel] requests and has not returned. *)
Theorem paging_has_no_end fuel c id ids st :
  (∀ w t, ∃ out w',
     GetManagedPrefixListEntries w c id maxResultsPerPage t = (inr out, w') ∧
     ¬ last_page out) →
  ∃ st', run (refreshOnce_fetch fuel c (id :: ids)) st = OutOfFuel st' ∧
         same_memory st st' ∧
         length (events_since st st') = fuel ∧
         Forall (λ e, ∃ t out, e = EvGetEntries c id t (inr out)) (events_since st st').
Proof.
  intros Hmore.
  assert (Hloop : ∀ tok seen all st,
    ∃ w evs, run (fetchPages fuel c id tok seen all) st = OutOfFuel (advance w evs st) ∧
             length evs = fuel ∧
             Forall (λ e, ∃ t out, e = EvGetEntries c id t (inr out)) evs).
  { induction fuel as [|fuel IH]; intros tok seen all st1.
    - exists (world st1), []. split; [|done]. cbn. f_equal.
      unfold advance. rewrite app_nil_r. by destruct st1.
    - destruct (Hmore (world st1) (pageTokenOrNil tok)) as (out & w' & Hget & Hlast).
      cbn [fetchPages]. prog_simpl. cbn [run exec]. rewrite Hget.
      destruct (scanEntries (ec2.Entries out) seen all) as [seen' all'] eqn:Hscan.
      cbn [run]. unfold last_page in Hlast.
      destruct (ec2.NextToken out) as [t|] eqn:Htok; [|tauto].
      destruct (decide (t = ""%string)) as [->|Hne]; [tauto|].
      destruct (IH (Some t) seen' all' (set_world w' (EvGetEntries c id (pageTokenOrNil tok) (inr out)) st1))
        as (w2 & evs & Hrun & Hlen & Hall).
      exists w2, (EvGetEntries c id (pageTokenOrNil tok) (inr out) :: evs).
      rewrite Hrun. split; [|split].
      + f_equal. rewrite set_world_advance, advance_advance. done.
      + cbn. by rewrite Hlen.
      + constructor; [by eauto|done]. }
  destruct (Hloop (Some ""%string) ∅ [] st) as (w & evs & Hrun & Hlen & Hall).
  exists (advance w evs st). split; [|split; [|split]].
  - unfold refreshOnce_fetch. prog_simpl. cbn [fetchLists]. prog_simpl.
    rewrite !run_bind, Hrun. done.
  - apply advance_same_memory.
  - by rewrite (events_since_app st (advance w evs st) evs).
  - by rewrite (events_since_app st (advance w evs st) evs).
Qed.

(** ** The refresher *)

(** X12. [time.NewTicker] panics on a period that is not positive, and
    nothing checks the sign of [Refresh]: [Provision] replaces a zero period
    only.  With such a period the refresher panics at its second operation,
    alone or among other goroutines, and the process dies. *)
Theorem refresher_bad_period_panics rounds fuel st :
  (Refresh (src st) ≤ 0)%Z →
  run (refresher rounds fuel) st = Panicked st ∧
  ∀ ts i c c',
    ts !! i = Some (go_refresher rounds fuel) →
    schedules rounds fuel [Go i c; Go i c'] (Running ts st) = Some (Crashed st).
Proof.
  intros Hneg. split.
  - unfold refresher. prog_simpl. cbn [run exec]. by rewrite decide_False by lia.
  - intros ts i c c' Hi. cbn [schedules schedule]. rewrite Hi.
    unfold go_refresher, refresher. prog_simpl. cbn [exec spawned]. rewrite app_nil_r.
    cbn [schedule]. rewrite list_lookup_insert_eq by (by eapply lookup_lt_Some).
    cbn [exec]. by rewrite decide_False by lia.
Qed.

Lemma refresher_loop_done rounds fuel st st' :
  (∃ p, tick st = TkRunning p) →
  run (refresher_loop rounds fuel) st = Done tt st' →
  (∃ p, tick st' = TkRunning p) ∧ stopCh st' = ChClosed.
Proof.
  revert st. induction rounds as [|rounds IH]; intros st [p Htk] Hrun; [done|].
  cbn [refresher_loop] in Hrun. prog_simpl. cbn [run exec] in Hrun. rewrite Htk in Hrun.
  destruct p, (stopCh st) eqn:Hch; cbn [run] in Hrun; try done;
    try (by simplify_eq; eauto).
  all: rewrite run_bind in Hrun;
    pose proof (run_quiet (refreshOnce fuel) (set_tick (TkRunning false) st)
                  (refreshOnce_quiet fuel)) as (_ & _ & Htk1 & _);
    destruct (run (refreshOnce fuel) _) as [r st1|?|?|?]; try done;
    cbn in Hrun, Htk1; apply (IH st1); by eauto.
Qed.

(** X13. A refresher that runs alone returns only through the stop case of
    its [select]: when it has returned the stop channel is closed, its
    period was positive, and its ticker is stopped, as the deferred [Stop]
    has run. *)
Theorem refresher_returns_stopped rounds fuel st st' :
  run (refresher rounds fuel) st = Done tt st' →
  stopCh st' = ChClosed ∧ (0 < Refresh (src st))%Z ∧ ∃ p, tick st' = TkStopped p.
Proof.
  unfold refresher. prog_simpl. cbn [run exec]. intros Hrun.
  destruct (decide (0 < Refresh (src st))%Z) as [Hpos|]; [|done].
  rewrite run_bind in Hrun.
  destruct (run (refresher_loop rounds fuel) _) as [[] st1|?|?|?] eqn:Hloop; try done.
  apply refresher_loop_done in Hloop as [[p Htk] Hch]; [|by eexists].
  cbn in Hrun. rewrite Htk in Hrun. simplify_eq. cbn. by eauto.
Qed.

(** X14. A pass of the refresher that fails does not end the refresher:
    with a tick waiting and the stop channel open, the loop takes the tick,
    runs the pass, drops its error and is back at its [select], where it
    waits; [s.current] and what it publishes are as before. *)
Theorem refresher_survives_failed_pass rounds fuel st e st1 :
  tick st = TkRunning true → stopCh st = ChOpen →
  mutex_free st → slice_ok (heap st) (current st) →
  run (refreshOnce fuel) (set_tick (TkRunning false) st) = Done (Some e) st1 →
  run (refresher_loop (S (S rounds)) fuel) st = Blocked st1 ∧
  current st1 = current st ∧ published st1 = published st.
Proof.
  intros Htk Hch Hmu Hok Hrun.
  pose proof (refreshOnce_cases fuel (set_tick (TkRunning false) st) Hmu Hok) as Hc.
  rewrite Hrun in Hc. destruct Hc as ((_ & Hch1 & Htk1 & _) & _ & _ & _ & Hcur & Hpub & _).
  split; [|done].
  cbn [refresher_loop]. prog_simpl. cbn [run exec]. rewrite Htk, Hch.
  rewrite run_bind, Hrun. cbn [andthen run exec]. cbn in Hch1, Htk1.
  by rewrite Htk1, Hch1, Hch.
Qed.

(** * Reads and passes together: the lock *)

(** The invariant of the reads and passes holds all along their runs. *)
Lemma reads_and_passes_consistent rounds fuel ts0 st0 h s :
  mutex_free st0 → slice_ok (heap st0) (current st0) →
  Forall (λ t, t = go_read ∨ ∃ f, t = go_refresh f) ts0 →
  history rounds fuel (Running ts0 st0) h s →
  ∃ pts st, s = Running (prog_at <$> pts) st ∧ consistent pts st h.
Proof.
  intros Hmu Hok Hts Hh.
  assert (Hpts : ∃ pts0, ts0 = prog_at <$> pts0 ∧
                         Forall (λ pt, pt = AtSnapshot ByRead ∨ ∃ f, pt = AtPass f) pts0).
  { clear Hh. induction Hts as [|t ts0 Ht _ (pts0 & -> & Hpts0)]; [by exists []|].
    destruct Ht as [->|[f ->]].
    - exists (AtSnapshot ByRead :: pts0). split; [done|]. constructor; auto.
    - exists (AtPass f :: pts0). split; [done|]. constructor; eauto. }
  destruct Hpts as (pts0 & -> & Hpts0).
  apply (history_consistent rounds fuel pts0 st0 h s); [by apply consistent_start|done].
Qed.

Lemma prog_at_finished pt :
  ¬ unfinished (prog_at pt) → reading pt = 0 ∧ writing pt = 0.
Proof.
  destruct pt as [k|k|k c|k o|k o c i n|o|f|s p| |sl|sl| | |e]; try done.
  - rewrite prog_at_locked. cbn. tauto.
  - rewrite prog_at_loaded. cbn. tauto.
  - rewrite prog_at_made. cbn. tauto.
  - destruct n; [rewrite prog_at_copied|rewrite prog_at_copying]; cbn; tauto.
Qed.

Lemma sum_list_all_zero (f : point → nat) pts :
  (∀ i pt, pts !! i = Some pt → f pt = 0) → sum_list (f <$> pts) = 0.
Proof.
  induction pts as [|pt pts IH]; intros Hf; [done|]. cbn.
  rewrite (Hf 0 pt eq_refl). apply IH. intros i. apply (Hf (S i)).
Qed.

(** X15. Reads and passes that run together leave no lock behind: in
    whatever order their operations were interleaved, once every goroutine
    has returned nobody holds [s.mu], for reading or for writing. *)
Theorem lock_free_when_all_returned rounds fuel ts0 st0 h ts st :
  mutex_free st0 → slice_ok (heap st0) (current st0) →
  Forall (λ t, t = go_read ∨ ∃ f, t = go_refresh f) ts0 →
  history rounds fuel (Running ts0 st0) h (Running ts st) →
  Forall (λ t, ∃ v, t = Ret v) ts →
  mutex_free st.
Proof.
  intros Hmu Hok Hts Hh Hret.
  destruct (reads_and_passes_consistent _ _ _ _ _ _ Hmu Hok Hts Hh)
    as (pts & st' & Heq & Hc).
  injection Heq as -> <-.
  assert (Hz : ∀ i pt, pts !! i = Some pt → reading pt = 0 ∧ writing pt = 0).
  { intros i pt Hi. apply prog_at_finished.
    rewrite Forall_lookup in Hret.
    assert (Hv : ∃ v, prog_at pt = Ret v).
    { apply (Hret i). by rewrite list_lookup_fmap, Hi. }
    destruct Hv as [v ->]. cbn. tauto. }
  pose proof (cons_readers _ _ _ Hc) as Hr. pose proof (cons_writer _ _ _ Hc) as Hw.
  rewrite sum_list_all_zero in Hr by (intros i pt Hi; apply (Hz i pt Hi)).
  rewrite sum_list_all_zero in Hw by (intros i pt Hi; apply (Hz i pt Hi)).
  unfold mutex_free, unlocked. destruct (mu st) as [[] n]; cbn in *; [done|by subst].
Qed.

Lemma sum_list_pos (f : point → nat) pts :
  0 < sum_list (f <$> pts) → ∃ j pt, pts !! j = Some pt ∧ 0 < f pt.
Proof.
  induction pts as [|pt pts IH]; cbn; [lia|]. intros Hs.
  destruct (decide (0 < f pt)) as [Hf|Hf]; [by exists 0, pt|].
  destruct IH as (j & pj & Hj & Hpos); [lia|]. by exists (S j), pj.
Qed.

(** A goroutine that holds the lock can go on, and so can any goroutine
    when nobody holds it. *)
Lemma point_can_step pts st h i pt :
  consistent pts st h → pts !! i = Some pt → unfinished (prog_at pt) →
  0 < reading pt ∨ 0 < writing pt ∨ mutex_free st →
  can_step st (prog_at pt) ∧ (at_lock (prog_at pt) → mutex_free st).
Proof.
  intros Hcons Hi Hun Hd.
  pose proof (sum_list_ge reading pts i pt Hi) as Hrge.
  pose proof (sum_list_ge writing pts i pt Hi) as Hwge.
  rewrite <- (cons_readers _ _ _ Hcons) in Hrge.
  rewrite (cons_writer _ _ _ Hcons) in Hwge.
  pose proof (cons_knows _ _ _ Hcons i pt Hi) as Hk.
  pose proof (λ l, cons_cells _ _ _ Hcons i pt l Hi) as Hcell.
  pose proof (cons_current _ _ _ Hcons) as Hok.
  assert (Hfree : mutex_free st → can_step st (Vis RLock (λ _, Ret VUnit)) ∧
                                  can_step st (Vis Lock (λ _, Ret VUnit))).
  { unfold mutex_free. intros Hmu. cbn. rewrite Hmu. cbn. split; by eauto. }
  destruct pt as [k|k|k c0|k out|k out c0 j n|out|f|s p| |sl|sl| | |e];
    cbn [reading writing] in Hd, Hrge, Hwge; cbn in Hk, Hcell.
  - assert (Hmu : mutex_free st) by (destruct Hd as [?|[?|?]]; [lia|lia|done]).
    rewrite prog_at_snapshot. split; [apply (Hfree Hmu)|done].
  - rewrite prog_at_locked. cbn. split; [by eauto|done].
  - rewrite prog_at_loaded. cbn. split; [by eauto|done].
  - rewrite prog_at_made. cbn. split; [by eauto|done].
  - destruct Hk as (-> & Hlen & Hin & l & a & Hp & Ha & Hla & Hpre).
    destruct n as [|n].
    + rewrite prog_at_copied. cbn. destruct (readers (mu st)); [lia|]. split; [by eauto|done].
    + rewrite prog_at_copying. cbn. split; [|done].
      unfold slice_ok in Hok.
      destruct (s_ptr (current st)) as [lf|] eqn:Hlf; [|lia].
      destruct Hok as (b & Hb & Hlb).
      destruct (lookup_lt_is_Some_2 b j) as [v Hv]; [lia|].
      rewrite Hp, Ha, Hb, Hv. rewrite decide_True by lia. by eauto.
  - done.
  - cbn. split; [by eauto|done].
  - destruct p as [[err|[|a all]]|X o k|]; try done.
    + assert (Hmu : mutex_free st) by (destruct Hd as [?|[?|?]]; [lia|lia|done]).
      change (prog_at (AtGather s (Ret (inr [])))) with (prog_at (AtSnapshot (ByPass s))).
      rewrite prog_at_snapshot. split; [apply (Hfree Hmu)|done].
    + change (prog_at (AtGather s (Ret (inr (a :: all)))))
        with (Vis (AllocSlice (a :: all)) (λ sl, prog_at (AtLock sl))).
      cbn. split; [by eauto|done].
    + destruct Hk as [Ho _]. cbn. split; [|by destruct o].
      destruct (exec_world_op SelStop o st Ho) as (x & st' & Hx & _). by eauto.
  - cbn. split; [by eauto|done].
  - assert (Hmu : mutex_free st) by (destruct Hd as [?|[?|?]]; [lia|lia|done]).
    split; [apply (Hfree Hmu)|done].
  - cbn. split; [by eauto|done].
  - cbn. destruct (writer (mu st)); [|lia]. split; [by eauto|done].
  - cbn. split; [by eauto|done].
  - done.
Qed.

Lemma can_step_schedule rounds fuel ts st j t :
  ts !! j = Some t → can_step st t →
  ∃ ts' st', schedule rounds fuel (Go j SelStop) (Running ts st) = Some (Running ts' st').
Proof.
  intros Hj Hstep. cbn. rewrite Hj. destruct t as [a|X o k|]; [done| |done].
  destruct Hstep as (x & st' & ->). by eauto.
Qed.

(** X16. Reads and passes that run together cannot all be stuck: as long
    as one of them has an operation left, one of them can perform its next
    operation, whatever the interleaving so far.  That goroutine is not one
    that is about to take [s.mu] unless nobody holds it: when the lock is
    held, a holder can go on. *)
Theorem reads_and_passes_progress rounds fuel ts0 st0 h ts st :
  mutex_free st0 → slice_ok (heap st0) (current st0) →
  Forall (λ t, t = go_read ∨ ∃ f, t = go_refresh f) ts0 →
  history rounds fuel (Running ts0 st0) h (Running ts st) →
  Exists unfinished ts →
  ∃ j t ts' st',
    ts !! j = Some t ∧
    schedule rounds fuel (Go j SelStop) (Running ts st) = Some (Running ts' st') ∧
    (at_lock t → mutex_free st).
Proof.
  intros Hmu Hok Hts Hh Hex.
  destruct (reads_and_passes_consistent _ _ _ _ _ _ Hmu Hok Hts Hh)
    as (pts & st' & Heq & Hc).
  injection Heq as -> <-.
  assert (Hgo : ∀ j pt, pts !! j = Some pt → unfinished (prog_at pt) →
                        0 < reading pt ∨ 0 < writing pt ∨ mutex_free st →
                        ∃ j t ts' st',
                          (prog_at <$> pts) !! j = Some t ∧
                          schedule rounds fuel (Go j SelStop) (Running (prog_at <$> pts) st)
                            = Some (Running ts' st') ∧
                          (at_lock t → mutex_free st)).
  { intros j pt Hj Hun Hd.
    destruct (point_can_step pts st h j pt Hc Hj Hun Hd) as [Hstep Hat].
    assert (Hjt : (prog_at <$> pts) !! j = Some (prog_at pt))
      by (by rewrite list_lookup_fmap, Hj).
    destruct (can_step_schedule rounds fuel _ st j _ Hjt Hstep) as (ts' & st' & Hs).
    by exists j, (prog_at pt), ts', st'. }
  assert (Hun : ∀ pt, 0 < reading pt ∨ 0 < writing pt → unfinished (prog_at pt)).
  { intros pt Hpos.
    assert (Hdec : unfinished (prog_at pt) ∨ ¬ unfinished (prog_at pt))
      by (destruct (prog_at pt); cbn; tauto).
    destruct Hdec as [|Hn]; [done|]. apply prog_at_finished in Hn. lia. }
  destruct (decide (0 < sum_list (reading <$> pts))) as [Hr|Hr].
  { destruct (sum_list_pos _ _ Hr) as (j & pt & Hj & Hpos). apply (Hgo j pt); auto. }
  destruct (decide (0 < sum_list (writing <$> pts))) as [Hw|Hw].
  { destruct (sum_list_pos _ _ Hw) as (j & pt & Hj & Hpos). apply (Hgo j pt); auto. }
  assert (Hfree : mutex_free st).
  { pose proof (cons_readers _ _ _ Hc). pose proof (cons_writer _ _ _ Hc).
    unfold mutex_free, unlocked. destruct (mu st) as [[] n]; cbn in *; [lia|].
    f_equal. lia. }
  apply Exists_exists in Hex as (t & Hin & Hun').
  apply list_elem_of_lookup in Hin as [i Hi].
  rewrite list_lookup_fmap in Hi.
  destruct (pts !! i) as [pt|] eqn:Hpt; [|done]. cbn in Hi. injection Hi as <-.
  apply (Hgo i pt); auto.
Qed.

End Model.

Arguments Ret {_ A} a.
Arguments Vis {_ A X} o k.
Arguments Spin {_ A}.
Arguments Done {_ _ A} a st.
Arguments Panicked {_ _ A} st.
Arguments Blocked {_ _ A} st.
Arguments OutOfFuel {_ _ A} st.

(** * The code on concrete inputs *)

Definition state_of_source (s : Source) (w : Script) : state :=
  {| src := s; mu := unlocked; current := nil_slice; stopCh := ChNil;
     heap := ∅; tick := TkNone; started := 0; world := w; trace := [] |}.

(** Region us-east-1, nothing else configured. *)
Definition plain_source : Source :=
  {| Region := "us-east-1"; PrefixListID := ""; PrefixListName := "";
     IncludeIPv6 := false; Refresh := 0; AWSProfile := ""; RoleARN := "";
     RequireNonEmpty := false |}.

(** An explicit identifier together with IPv6. *)
Definition explicit_v6_source : Source :=
  {| Region := "us-east-1"; PrefixListID := "pl-1"; PrefixListName := "";
     IncludeIPv6 := true; Refresh := 0; AWSProfile := ""; RoleARN := "";
     RequireNonEmpty := false |}.

Definition explicit_source : Source :=
  {| Region := "us-east-1"; PrefixListID := "pl-1"; PrefixListName := "";
     IncludeIPv6 := false; Refresh := 0; AWSProfile := ""; RoleARN := "";
     RequireNonEmpty := false |}.

Definition origin_facing : ec2types.ManagedPrefixList :=
  {| ec2types.PrefixListId := Some "pl-1"%string;
     ec2types.PrefixListName := Some defaultPLNameV4 |}.

Definition page (cs : list string) (tok : option string)
  : ec2.GetManagedPrefixListEntriesOutput :=
  {| ec2.Entries := entry <$> cs; ec2.NextToken := tok |}.

(** The provider of the end-to-end scenario: page [A, B] with a token, then
    page [B, C] without. *)
Definition two_pages : Script :=
  {| sc_env := []; sc_load := None; sc_describe := inr [origin_facing];
     sc_pages := [inr (page ["10.0.0.0/8"; "11.0.0.0/8"]%string (Some "t1"%string));
                  inr (page ["11.0.0.0/8"; "12.0.0.0/8"]%string None)] |}.

(** One page with a text that does not parse. *)
Definition one_malformed : Script :=
  {| sc_env := []; sc_load := None; sc_describe := inr [origin_facing];
     sc_pages := [inr (page ["10.0.0.0/8"; "bogus"; "11.0.0.0/8"]%string None)] |}.

(** A first page, then a failure. *)
Definition second_page_fails : Script :=
  {| sc_env := []; sc_load := None; sc_describe := inr [origin_facing];
     sc_pages := [inr (page ["10.0.0.0/8"]%string (Some "t1"%string));
                  inl "ThrottlingException"%string] |}.

(** An existing list without entries. *)
Definition no_entries : Script :=
  {| sc_env := []; sc_load := None; sc_describe := inr [origin_facing];
     sc_pages := [] |}.

(** A provider that knows no list by name. *)
Definition no_lists : Script :=
  {| sc_env := []; sc_load := None; sc_describe := inr []; sc_pages := [] |}.

Lemma C1_empty_result_policy_witness :
  ∃ st', run (refreshOnce 1) (state_of_source plain_source no_entries) = Done None st' ∧
         current st' = nil_slice ∧ published st' = [].
Proof.
  refine (proj2 (proj2 (C1_empty_result_policy 1
            (state_of_source plain_source no_entries) _ eq_refl eq_refl _)) eq_refl eq_refl).
  vm_compute. reflexivity.
Defined.

Lemma C3_accumulated_distinct_witness :
  NoDup ["10.0.0.0/8"; "11.0.0.0/8"; "12.0.0.0/8"]%string ∧
  ∃ st', run (refreshOnce 2) (state_of_source plain_source two_pages) = Done None st' ∧
         published st' = ["10.0.0.0/8"; "11.0.0.0/8"; "12.0.0.0/8"]%string.
Proof.
  eassert (Hg : run (refreshOnce_gather plain_source 2)
                   (state_of_source plain_source two_pages) = Done (inr _) _)
    by (vm_compute; reflexivity).
  destruct (C3_accumulated_distinct 2 (state_of_source plain_source two_pages) _ _ Hg)
    as (Hnd & _ & _ & Hrun).
  split; [exact Hnd|]. apply Hrun; [reflexivity|discriminate].
Defined.

(** A stand-in for [netip.ParsePrefix] that, like it, reads the hexadecimal
    digits of an IPv6 address in either case: two texts that differ in case
    only are the same prefix. *)
Definition hex_lower (c : Ascii.ascii) : Ascii.ascii :=
  match c with
  | Ascii.Ascii b0 b1 b2 false false false true false =>
      (* the capitals A to F *)
      if (b0 || b1 || b2) && negb (b0 && b1 && b2)
      then Ascii.Ascii b0 b1 b2 false false true true false
      else c
  | _ => c
  end.

Fixpoint hex_fold (s : string) : string :=
  match s with
  | EmptyString => EmptyString
  | String c rest => String (hex_lower c) (hex_fold rest)
  end.

Definition folding_parse (s : string) : option string :=
  match String.index 0 "/" s with
  | Some _ => Some (hex_fold s)
  | None => None
  end.

Definition folding_netip : NetIP :=
  {| Prefix := string; ParsePrefix := folding_parse; zeroPrefix := ""%string |}.

(** One page on which the same range is written twice, in capitals and in
    small letters. *)
Definition two_spellings : Script :=
  {| sc_env := []; sc_load := None; sc_describe := inr [origin_facing];
     sc_pages := [inr (page ["2001:DB8::/32"; "2001:db8::/32"]%string None)] |}.

Definition two_spellings_state : @state folding_netip Script :=
  {| src := plain_source; mu := unlocked; current := nil_slice; stopCh := ChNil;
     heap := ∅; tick := TkNone; started := 0; world := two_spellings; trace := [] |}.

(** C3 as the claim has it fails: the key of the deduplication is the text
    of the entry as it is delivered, line 245, not the canonical string of
    the prefix it parses to.  Two texts for one prefix are two keys, and the
    pass publishes the prefix twice. *)
Lemma C3_one_prefix_under_two_texts :
  ∃ st',
    run (H := folding_netip) (refreshOnce 1) two_spellings_state = Done None st' ∧
    published st' = ["2001:db8::/32"; "2001:db8::/32"]%string ∧
    ¬ NoDup (published st').
Proof.
  exists (state_of (run (H := folding_netip) (refreshOnce 1) two_spellings_state)).
  split; [vm_compute; reflexivity|].
  assert (Hpub : published (state_of (run (H := folding_netip) (refreshOnce 1)
                                        two_spellings_state))
                 = ["2001:db8::/32"; "2001:db8::/32"]%string)
    by (vm_compute; reflexivity).
  split; [exact Hpub|]. rewrite Hpub.
  intros Hnd. apply NoDup_cons in Hnd as [Hin _]. apply Hin. apply list_elem_of_here.
Qed.

Lemma C4_page_failure_aborts_witness :
  ∃ st' evs0,
    run (refreshOnce 2) (state_of_source plain_source second_page_fails)
      = Done (Some (ErrGetEntries "pl-1" "ThrottlingException")) st' ∧
    same_memory (state_of_source plain_source second_page_fails) st' ∧
    published st' = [] ∧
    events_since (state_of_source plain_source second_page_fails) st'
      = evs0 ++ [EvGetEntries (config_of plain_source) "pl-1" (Some "t1"%string)
                   (inl "ThrottlingException"%string)].
Proof.
  apply (C4_page_failure_aborts 2 (state_of_source plain_source second_page_fails)).
  vm_compute. do 3 apply list_elem_of_further. apply list_elem_of_here.
Defined.

Lemma two_pages_single_list :
  single_list_pass (state_of_source plain_source two_pages) "pl-1"
    [page ["10.0.0.0/8"; "11.0.0.0/8"]%string (Some "t1"%string);
     page ["11.0.0.0/8"; "12.0.0.0/8"]%string None].
Proof.
  split; [reflexivity|]. split; [reflexivity|]. split; [discriminate|].
  eexists _, _, _, _. split; [reflexivity|]. split; [reflexivity|].
  split; [reflexivity|].
  eapply answers_more; [reflexivity| |].
  - intros [|]; discriminate.
  - eapply answers_last; [reflexivity|]. by left.
Defined.

Lemma C7_paging_and_install_witness :
  ∃ st', run (refreshOnce 2) (state_of_source plain_source two_pages) = Done None st' ∧
         published st' = ["10.0.0.0/8"; "11.0.0.0/8"; "12.0.0.0/8"]%string.
Proof.
  refine (proj2 (proj2 C7_paging_and_install) 2
            (state_of_source plain_source two_pages) "pl-1"%string _ _
            "10.0.0.0/8"%string "11.0.0.0/8"%string "12.0.0.0/8"%string _ _ _
            eq_refl eq_refl two_pages_single_list _ eq_refl eq_refl eq_refl
            eq_refl eq_refl eq_refl _ _ _); (lia || discriminate).
Defined.

(** The malformed-entry scenario on the code: three entries, two prefixes,
    no error. *)
Example one_malformed_installs_two :
  ∃ st', run (refreshOnce 1) (state_of_source plain_source one_malformed) = Done None st' ∧
         published st' = ["10.0.0.0/8"; "11.0.0.0/8"]%string.
Proof.
  eexists. split.
  - vm_compute. reflexivity.
  - vm_compute. reflexivity.
Qed.

(** C8 as the claim has it fails: with an explicit identifier and
    [IncludeIPv6] the pass looks up the IPv6 name. *)
Lemma C8_explicit_id_with_ipv6_describes :
  PrefixListID explicit_v6_source ≠ ""%string ∧
  describe_calls
    (events_since (state_of_source explicit_v6_source no_lists)
       (state_of (run (refreshOnce 1) (state_of_source explicit_v6_source no_lists)))) = 1.
Proof. split; [discriminate|]. vm_compute. reflexivity. Qed.

Lemma C8_identifier_bypass_witness :
  describe_calls
    (events_since (state_of_source explicit_source two_pages)
       (state_of (run (refreshOnce 2) (state_of_source explicit_source two_pages)))) = 0.
Proof.
  refine (proj1 (proj2 (C8_identifier_bypass 2
            (state_of_source explicit_source two_pages) _)) eq_refl).
  discriminate.
Defined.

Lemma C10_exact_name_match_witness :
  ∃ id err,
    run (resolvePrefixListID plain_source (config_of plain_source) ""%string ""%string
           defaultPLNameV4) (state_of_source plain_source two_pages)
      = Done (id, err)
          (set_world two_pages
             (EvDescribe (config_of plain_source) defaultPLNameV4 (inr [origin_facing]))
             (state_of_source plain_source two_pages)) ∧
    (err = None →
       ∃ pl, pl ∈ [origin_facing] ∧ ec2types.PrefixListName pl = Some defaultPLNameV4 ∧
             ec2types.PrefixListId pl = Some id).
Proof.
  destruct (C10_exact_name_match plain_source (config_of plain_source) ""%string
              defaultPLNameV4 (state_of_source plain_source two_pages)
              [origin_facing] two_pages) as (id & err & Hrun & Hok & _);
    [reflexivity|].
  exists id, err. split; [exact Hrun|exact Hok].
Defined.

(** The state after a pass has published the three prefixes of the
    end-to-end scenario. *)
Definition three_published : state :=
  state_of (run (refreshOnce 2) (state_of_source plain_source two_pages)).

Lemma C9_read_returns_own_copy_witness :
  (∃ out st1,
     run GetIPRanges three_published = Done out st1 ∧
     elems (heap st1) out = ["10.0.0.0/8"; "11.0.0.0/8"; "12.0.0.0/8"]%string ∧
     published st1 = ["10.0.0.0/8"; "11.0.0.0/8"; "12.0.0.0/8"]%string) ∧
  (∃ out st1,
     run snapshot three_published = Done out st1 ∧
     elems (heap st1) out = ["10.0.0.0/8"; "11.0.0.0/8"; "12.0.0.0/8"]%string ∧
     published st1 = ["10.0.0.0/8"; "11.0.0.0/8"; "12.0.0.0/8"]%string).
Proof.
  assert (Hw : writer (mu three_published) = false) by reflexivity.
  assert (Hok : slice_ok (heap three_published) (current three_published)).
  { vm_compute. eexists. split; reflexivity. }
  split.
  - destruct (C9_read_returns_own_copy three_published Hw Hok GetIPRanges (or_introl eq_refl))
      as (out & l & st1 & Hrun & _ & _ & _ & Hout & _ & Hpub & _).
    exists out, st1. split; [exact Hrun|]. split; [exact Hout|exact Hpub].
  - destruct (C9_read_returns_own_copy three_published Hw Hok snapshot (or_intror eq_refl))
      as (out & l & st1 & Hrun & _ & _ & _ & Hout & _ & Hpub & _).
    exists out, st1. split; [exact Hrun|]. split; [exact Hout|exact Hpub].
Defined.

(** C5 on the code: after a [Provision] that started the refresher, the first
    [Cleanup] returns nil and the second one panics. *)
Theorem C5_second_cleanup_panics :
  ∃ st1 st2,
    run (Provision 2) (state_of_source plain_source two_pages) = Done None st1 ∧
    run Cleanup st1 = Done None st2 ∧
    run Cleanup st2 = Panicked st2.
Proof.
  eexists _, _. split; [|split].
  - vm_compute. reflexivity.
  - vm_compute. reflexivity.
  - vm_compute. reflexivity.
Qed.







(** A read starts and holds the read lock; a pass gathers three prefixes and
    has to wait for the lock; the read returns; the pass installs; a second
    read runs. *)
Definition race : list decision :=
  replicate 3 (Go 0 SelStop) ++ replicate 6 (Go 1 SelStop) ++
  replicate 2 (Go 0 SelStop) ++ replicate 3 (Go 1 SelStop) ++
  replicate 8 (Go 2 SelStop).

Definition racers : system :=
  Running [go_read; go_refresh 2; go_read] (state_of_source plain_source two_pages).

(** While the read holds the read lock the pass cannot take the write
    lock. *)
Example race_lock_waits :
  ∃ s, schedules 0 2 (replicate 3 (Go 0 SelStop) ++ replicate 6 (Go 1 SelStop)) racers
         = Some s ∧
       schedule 0 2 (Go 1 SelStop) s = None.
Proof.
  eexists. split.
  - vm_compute. reflexivity.
  - vm_compute. reflexivity.
Qed.

Lemma C2_atomic_visibility_witness :
  ∃ ts st out1 out2,
    schedules 0 2 race racers = Some (Running ts st) ∧
    ts !! 0 = Some (Ret (VSlice out1)) ∧ ts !! 2 = Some (Ret (VSlice out2)) ∧
    elems (heap st) out1 ∈ published (state_in racers) :: trail 0 2 race racers ∧
    elems (heap st) out2 ∈ published (state_in racers) :: trail 0 2 race racers ∧
    elems (heap st) out1 = [] ∧
    elems (heap st) out2 = ["10.0.0.0/8"; "11.0.0.0/8"; "12.0.0.0/8"]%string.
Proof.
  eassert (Hs : schedules 0 2 race racers = Some (Running _ _))
    by (vm_compute; reflexivity).
  assert (Hts : Forall (λ t, t = go_read ∨ ∃ f, t = go_refresh f)
                  [go_read; go_refresh 2; go_read]).
  { repeat apply Forall_cons_2; [by left|right; by exists 2|by left|apply Forall_nil_2]. }
  destruct (C2_atomic_visibility 0 2 [go_read; go_refresh 2; go_read]
              (state_of_source plain_source two_pages) _ _
              eq_refl eq_refl Hts
              (schedules_history 0 2 race racers _ Hs))
    as (ts & st & Heq & _ & Hread).
  injection Heq as <- <-.
  eexists _, _, _, _. split; [exact Hs|].
  split; [reflexivity|]. split; [reflexivity|].
  split; [exact (Hread 0 _ eq_refl)|]. split; [exact (Hread 2 _ eq_refl)|].
  split; reflexivity.
Defined.

(** * The life cycle on concrete inputs *)

(** Empty results are an error for this one. *)
Definition strict_source : Source :=
  {| Region := "us-east-1"; PrefixListID := ""; PrefixListName := "";
     IncludeIPv6 := false; Refresh := 0; AWSProfile := ""; RoleARN := "";
     RequireNonEmpty := true |}.

(** A period of minus five seconds. *)
Definition negative_period_source : Source :=
  {| Region := "us-east-1"; PrefixListID := ""; PrefixListName := "";
     IncludeIPv6 := false; Refresh := -5000000000; AWSProfile := ""; RoleARN := "";
     RequireNonEmpty := false |}.

(** IPv6 as well, no id. *)
Definition v6_source : Source :=
  {| Region := "us-east-1"; PrefixListID := ""; PrefixListName := "";
     IncludeIPv6 := true; Refresh := 0; AWSProfile := ""; RoleARN := "";
     RequireNonEmpty := false |}.

(** A provider without credentials. *)
Definition no_credentials : Script :=
  {| sc_env := []; sc_load := Some "no credentials"%string;
     sc_describe := inr [origin_facing]; sc_pages := [] |}.

(** A provider that returns three lists for the name: one of another name,
    one of the name without an id, and two that match. *)
Definition several_lists : Script :=
  {| sc_env := []; sc_load := None;
     sc_describe :=
       inr [{| ec2types.PrefixListId := Some "pl-0"%string;
               ec2types.PrefixListName := Some "other"%string |};
            {| ec2types.PrefixListId := None;
               ec2types.PrefixListName := Some defaultPLNameV4 |};
            origin_facing;
            {| ec2types.PrefixListId := Some "pl-2"%string;
               ec2types.PrefixListName := Some defaultPLNameV4 |}];
     sc_pages := [] |}.

Lemma Provision_starts_refresher_iff_nil_witness :
  ∃ st', run (Provision 2) (state_of_source plain_source two_pages) = Done None st' ∧
         stopCh st' = ChOpen ∧ started st' = 1 ∧ mutex_free st'.
Proof.
  eassert (Hrun : run (Provision 2) (state_of_source plain_source two_pages) = Done None _)
    by (vm_compute; reflexivity).
  pose proof (Provision_starts_refresher_iff_nil 2 (state_of_source plain_source two_pages)
                eq_refl eq_refl) as Hw.
  rewrite Hrun in Hw. eexists. split; [exact Hrun|exact Hw].
Defined.

Lemma Provision_initial_empty_unreachable_witness :
  ErrResolvedZero ≠ ErrNoPrefixesInitial ∧
  ((∃ err, ErrResolvedZero = ErrAwsConfig err) ∨
   (∃ id err, ErrResolvedZero = ErrGetEntries id err) ∨
   ErrResolvedZero = ErrResolvedZero).
Proof.
  eapply (Provision_initial_empty_unreachable 1 (state_of_source strict_source no_entries)).
  - reflexivity.
  - reflexivity.
  - vm_compute. reflexivity.
Defined.

Lemma Provision_installs_and_starts_witness :
  ∃ st', run (Provision 2) (state_of_source plain_source two_pages) = Done None st' ∧
         published st' = ["10.0.0.0/8"; "11.0.0.0/8"; "12.0.0.0/8"]%string ∧
         stopCh st' = ChOpen ∧ started st' = 1 ∧ mutex_free st'.
Proof.
  apply (Provision_installs_and_starts 2 (state_of_source plain_source two_pages) "pl-1"
           [page ["10.0.0.0/8"; "11.0.0.0/8"]%string (Some "t1"%string);
            page ["11.0.0.0/8"; "12.0.0.0/8"]%string None]).
  - split; [reflexivity|]. split; [reflexivity|]. split; [discriminate|].
    eexists _, _, _, _. split; [reflexivity|]. split; [reflexivity|].
    split; [reflexivity|].
    eapply answers_more; [reflexivity| |].
    + intros [|]; discriminate.
    + eapply answers_last; [reflexivity|]. by left.
  - cbn. lia.
  - reflexivity.
  - reflexivity.
  - discriminate.
Defined.

Lemma Provision_runs_with_empty_set_witness :
  ∃ st', run (Provision 1) (state_of_source plain_source no_entries) = Done None st' ∧
         current st' = nil_slice ∧ published st' = [] ∧
         stopCh st' = ChOpen ∧ started st' = 1 ∧
         last (trace st')
         = Some (EvWarn "cloudfront_origin_pl: initial fetch returned zero prefixes; running with empty set").
Proof.
  eapply (Provision_runs_with_empty_set 1 (state_of_source plain_source no_entries)).
  - reflexivity.
  - reflexivity.
  - reflexivity.
  - reflexivity.
  - vm_compute. reflexivity.
Defined.

Lemma Provision_then_Cleanup_witness :
  match run (Provision 1) (state_of_source plain_source no_credentials) with
  | Done None st1 => ∃ st2, run Cleanup st1 = Done None st2 ∧ stopCh st2 = ChClosed
  | Done (Some _) st1 => run Cleanup st1 = Done None st1 ∧ stopCh st1 = ChNil
  | OutOfFuel st1 => stopCh st1 = ChNil
  | Panicked _ | Blocked _ => False
  end.
Proof.
  exact (Provision_then_Cleanup 1 (state_of_source plain_source no_credentials)
           eq_refl eq_refl eq_refl).
Defined.

(** The two outcomes on the code: no credentials, and two pages. *)
Example Provision_fails_Cleanup_idles :
  ∃ st1, run (Provision 1) (state_of_source plain_source no_credentials)
         = Done (Some (ErrAwsConfig "no credentials")) st1 ∧
         run Cleanup st1 = Done None st1.
Proof. eexists. split; vm_compute; reflexivity. Qed.

Lemma refreshOnce_alone_witness :
  match run (refreshOnce 2) (state_of_source plain_source second_page_fails) with
  | Done None st' => mutex_free st' ∧ slice_ok (heap st') (current st')
  | Done (Some e) st' =>
      mutex_free st' ∧ current st' = nil_slice ∧ published st' = [] ∧
      ((∃ err, e = ErrAwsConfig err) ∨ (∃ id err, e = ErrGetEntries id err) ∨
       e = ErrResolvedZero) ∧
      (∀ err, e ≠ ErrDescribe err) ∧ (∀ n r, e ≠ ErrNotFound n r)
  | OutOfFuel st' => mutex_free st' ∧ current st' = nil_slice
  | Panicked _ | Blocked _ => False
  end.
Proof.
  exact (refreshOnce_alone 2 (state_of_source plain_source second_page_fails)
           eq_refl eq_refl).
Defined.

Lemma refreshOnce_config_failure_witness :
  run (refreshOnce 0) (state_of_source plain_source no_credentials)
  = Done (Some (ErrAwsConfig "no credentials"))
      (set_world no_credentials
         (EvLoadDefaultConfig "us-east-1" None (Some "no credentials"%string))
         (state_of_source plain_source no_credentials)) ∧
  events_since (state_of_source plain_source no_credentials)
    (state_of (run (refreshOnce 0) (state_of_source plain_source no_credentials)))
  = [EvLoadDefaultConfig "us-east-1" None (Some "no credentials"%string)].
Proof.
  exact (refreshOnce_config_failure 0 (state_of_source plain_source no_credentials)
           "no credentials"%string no_credentials eq_refl).
Defined.

Lemma lookups_fail_empty_pass_witness :
  run (refreshOnce_gather plain_source 0) (state_of_source plain_source no_lists)
  = Done (inr [])
      (advance no_lists
         [EvLoadDefaultConfig "us-east-1" None None;
          EvDescribe (config_of plain_source) defaultPLNameV4 (inr []); warn_v4]
         (state_of_source plain_source no_lists)).
Proof.
  exact (proj1 (lookups_fail_empty_pass 0 (state_of_source plain_source no_lists)
                  no_lists (inr []) no_lists eq_refl eq_refl eq_refl eq_refl) eq_refl).
Defined.

(** The same with IPv6 on: two lookups, two warnings, no page request. *)
Example lookups_fail_with_ipv6 :
  run (refreshOnce_gather v6_source 0) (state_of_source v6_source no_lists)
  = Done (inr [])
      (advance no_lists
         [EvLoadDefaultConfig "us-east-1" None None;
          EvDescribe (config_of v6_source) defaultPLNameV4 (inr []); warn_v4;
          EvDescribe (config_of v6_source) defaultPLNameV6 (inr []); warn_v6]
         (state_of_source v6_source no_lists)).
Proof. vm_compute. reflexivity. Qed.

Lemma resolve_takes_first_match_witness :
  ∃ st', run (resolvePrefixListID plain_source (config_of plain_source) ""%string
                ""%string defaultPLNameV4)
             (state_of_source plain_source several_lists)
         = Done ("pl-1"%string, None) st'.
Proof.
  eexists.
  apply (resolve_takes_first_match plain_source (config_of plain_source) ""%string
           defaultPLNameV4 (state_of_source plain_source several_lists)
           [{| ec2types.PrefixListId := Some "pl-0"%string;
               ec2types.PrefixListName := Some "other"%string |};
            {| ec2types.PrefixListId := None;
               ec2types.PrefixListName := Some defaultPLNameV4 |}]
           origin_facing
           [{| ec2types.PrefixListId := Some "pl-2"%string;
               ec2types.PrefixListName := Some defaultPLNameV4 |}]
           "pl-1"%string several_lists).
  - reflexivity.
  - repeat apply Forall_cons_2; [left; discriminate|right; reflexivity|apply Forall_nil_2].
  - reflexivity.
  - reflexivity.
Defined.

Lemma refresher_bad_period_panics_witness :
  run (refresher 1 1) (state_of_source negative_period_source two_pages)
  = Panicked (state_of_source negative_period_source two_pages).
Proof.
  refine (proj1 (refresher_bad_period_panics 1 1
                   (state_of_source negative_period_source two_pages) _)).
  cbn. lia.
Defined.

(** The host provisions a [Source] with a negative period: [Provision]
    returns nil, and the refresher it started kills the process at its
    second operation. *)
Example negative_period_crashes_after_Provision :
  ∃ st1 st2,
    run (Provision 2) (state_of_source negative_period_source two_pages) = Done None st1 ∧
    Refresh (src st1) = (-5000000000)%Z ∧
    schedules 1 2 (replicate 21 (Go 0 SelStop) ++ replicate 2 (Go 1 SelStop))
      (Running [go_provision 2] (state_of_source negative_period_source two_pages))
    = Some (Crashed st2).
Proof.
  eexists _, _. split; [vm_compute; reflexivity|]. split; [reflexivity|].
  vm_compute. reflexivity.
Qed.

(** A provisioned [Source] with a tick waiting, and with the stop channel
    closed. *)
Definition ticking (w : Script) : state :=
  set_tick (TkRunning true) (set_stopCh ChOpen (state_of_source plain_source w)).

Definition stopped : state :=
  set_stopCh ChClosed
    (set_src (λ _, with_defaults two_pages plain_source)
       (state_of_source plain_source two_pages)).

Lemma refresher_returns_stopped_witness :
  stopCh (state_of (run (refresher 1 1) stopped)) = ChClosed ∧
  (0 < Refresh (src stopped))%Z ∧
  ∃ p, tick (state_of (run (refresher 1 1) stopped)) = TkStopped p.
Proof.
  apply (refresher_returns_stopped 1 1 stopped). vm_compute. reflexivity.
Defined.

Lemma refresher_survives_failed_pass_witness :
  ∃ st1, run (refresher_loop 2 1) (ticking no_credentials) = Blocked st1 ∧
         current st1 = nil_slice ∧ published st1 = [].
Proof.
  eexists.
  apply (refresher_survives_failed_pass 0 1 (ticking no_credentials)
           (ErrAwsConfig "no credentials")); try reflexivity.
Defined.

(** A provider that never announces a last page. *)
#[global] Instance endless_aws : AWS unit :=
  {| LoadDefaultConfig _ _ _ := (None, tt);
     DescribeManagedPrefixLists _ _ _ _ := (inr [origin_facing], tt);
     GetManagedPrefixListEntries _ _ _ _ _ :=
       (inr (page ["10.0.0.0/8"]%string (Some "more"%string)), tt);
     Getenv _ _ := ""%string |}.

Definition endless_state : @state text_netip unit :=
  {| src := plain_source; mu := unlocked; current := nil_slice; stopCh := ChNil;
     heap := ∅; tick := TkNone; started := 0; world := tt; trace := [] |}.

Lemma paging_has_no_end_witness :
  ∃ st', run (refreshOnce_fetch 7 (config_of plain_source) ["pl-1"%string]) endless_state
         = OutOfFuel st' ∧
         same_memory endless_state st' ∧
         length (events_since endless_state st') = 7 ∧
         Forall (λ e, ∃ t out, e = EvGetEntries (config_of plain_source) "pl-1" t (inr out))
           (events_since endless_state st').
Proof.
  apply (paging_has_no_end 7 (config_of plain_source) "pl-1"%string [] endless_state).
  intros w t. eexists _, _. split; [reflexivity|]. intros [|]; discriminate.
Defined.

(** * Reads and passes on concrete inputs *)

Lemma racers_are_reads_and_passes :
  Forall (λ t, t = go_read ∨ ∃ f, t = go_refresh f) [go_read; go_refresh 2; go_read].
Proof.
  repeat apply Forall_cons_2; [by left|right; by exists 2|by left|apply Forall_nil_2].
Defined.

Lemma lock_free_when_all_returned_witness :
  ∃ ts st, schedules 0 2 race racers = Some (Running ts st) ∧ mutex_free st.
Proof.
  eassert (Hs : schedules 0 2 race racers = Some (Running _ _))
    by (vm_compute; reflexivity).
  eexists _, _. split; [exact Hs|].
  apply (lock_free_when_all_returned 0 2 [go_read; go_refresh 2; go_read]
           (state_of_source plain_source two_pages) _ _ _
           eq_refl eq_refl racers_are_reads_and_passes
           (schedules_history 0 2 race racers _ Hs)).
  repeat apply Forall_cons_2; [by eexists..|apply Forall_nil_2].
Defined.

(** The read holds the read lock and the pass waits for the write lock:
    the read can go on. *)
Definition race_start : list decision :=
  replicate 3 (Go 0 SelStop) ++ replicate 6 (Go 1 SelStop).

Lemma reads_and_passes_progress_witness :
  ∃ ts st j t ts' st',
    schedules 0 2 race_start racers = Some (Running ts st) ∧
    ts !! j = Some t ∧
    schedule 0 2 (Go j SelStop) (Running ts st) = Some (Running ts' st') ∧
    (at_lock t → mutex_free st).
Proof.
  eassert (Hs : schedules 0 2 race_start racers = Some (Running _ _))
    by (vm_compute; reflexivity).
  eexists _, _.
  edestruct (reads_and_passes_progress 0 2 [go_read; go_refresh 2; go_read]
               (state_of_source plain_source two_pages) _ _ _
               eq_refl eq_refl racers_are_reads_and_passes
               (schedules_history 0 2 race_start racers _ Hs))
    as (j & t & ts' & st' & Hj & Hstep & Hat).
  - apply Exists_cons_hd. exact I.
  - exists j, t, ts', st'. split; [exact Hs|]. split; [exact Hj|]. split; [exact Hstep|exact Hat].
Defined.

(** * The Caddyfile: [UnmarshalCaddyfile] *)

Section CaddyfileFacts.
Context {D : Type} `{Dispenser D} `{GoText}.

Lemma truthy_spec (val : string) :
  bool_decide (val = "true"%string) || bool_decide (val = "1"%string)
  || bool_decide (val = "yes"%string) = truthy val.
Proof.
  unfold truthy. apply eq_true_iff_eq.
  rewrite !orb_true_iff, !bool_decide_eq_true. set_solver.
Qed.

(** X17. The two flags accept any argument and never fail.  The flag
    becomes true without an argument and with an argument that is true, 1 or
    yes once in lower case; every other argument, no and off among them,
    makes it false.  No other field changes. *)
Theorem flag_option_never_fails s d ok d1 :
  Val d ∈ flag_options → NextArg d = (ok, d1) →
  let b := negb ok || truthy (ToLower (Val d1)) in
  ∃ s', option_case s d = (None, s', d1) ∧
        (Val d = "include_ipv6"%string → s' = set_IncludeIPv6 b s) ∧
        (Val d = "require_nonempty"%string → s' = set_RequireNonEmpty b s).
Proof.
  intros Hv Harg b. unfold option_case. rewrite Harg. subst b.
  unfold flag_options in Hv.
  apply elem_of_cons in Hv as [Hv|Hv]; [|apply list_elem_of_singleton in Hv];
    rewrite Hv; cbn; destruct ok; cbn; rewrite ?truthy_spec;
    eexists; (split; [done|]); split; done.
Qed.

Lemma option_case_error s d e s' d' :
  option_case s d = (Some e, s', d') →
  s' = s ∧
  match e with
  | ArgErr => Val d ∈ text_options ∧ NextArg d = (false, d')
  | ErrInvalidRefresh err =>
      Val d = "refresh"%string ∧ NextArg d = (true, d') ∧
      ParseDuration (Val d') = inl err
  | ErrUnknownOption v =>
      v = Val d ∧ (v ∉ text_options) ∧ (v ∉ flag_options) ∧ d' = d
  end.
Proof.
  unfold option_case, text_options, flag_options. intros Hc.
  destruct (NextArg d) as [ok d1].
  repeat case_decide; destruct ok; try destruct (ParseDuration (Val d1)) eqn:Hp;
    simplify_eq; (split; [done|]); try (split; [set_solver|done]); try done.
  all: repeat split; try done; set_solver.
Qed.

(** X18. An option that is rejected leaves the [Source] as it was.  The
    argument error is for a text option with no argument, the
    invalid-refresh error for a refresh period that [time.ParseDuration]
    rejects, and the unknown-option error for a name that is none of the
    eight, in which case no argument is read. *)
Theorem option_error_keeps_source s d e s' d' :
  option_case s d = (Some e, s', d') →
  s' = s ∧
  match e with
  | ArgErr => Val d ∈ text_options ∧ NextArg d = (false, d')
  | ErrInvalidRefresh err =>
      Val d = "refresh"%string ∧ NextArg d = (true, d') ∧
      ParseDuration (Val d') = inl err
  | ErrUnknownOption v =>
      v = Val d ∧ (v ∉ text_options) ∧ (v ∉ flag_options) ∧ d' = d
  end.
Proof. apply option_case_error. Qed.

Lemma option_case_accepted s d1 ok d2 :
  NextArg d1 = (ok, d2) →
  accepted_item {| i_name := Val d1; i_arg := if ok then Some (Val d2) else None |} →
  option_case s d1
  = (None, apply_item {| i_name := Val d1; i_arg := if ok then Some (Val d2) else None |} s, d2).
Proof.
  intros Harg Hacc. unfold option_case, apply_item. rewrite Harg. cbn [i_name i_arg].
  unfold accepted_item, flag_options, text_options in Hacc. cbn [i_name i_arg] in Hacc.
  destruct Hacc as [Hv|[(Hv & v & dur & Hok & Hdur)|(Hv & Hne & Hsome)]].
  - apply elem_of_cons in Hv as [Hv|Hv]; [|apply list_elem_of_singleton in Hv];
      rewrite Hv; cbn; destruct ok; cbn; by rewrite ?truthy_spec.
  - rewrite Hv. cbn. destruct ok; [|done]. simplify_eq. by rewrite Hdur.
  - destruct ok; [|by destruct Hsome].
    repeat (apply elem_of_cons in Hv as [Hv|Hv]; [by rewrite Hv|]).
    by apply elem_of_nil in Hv.
Qed.

(** The loop over a run of accepted options. *)
Lemma block_loop_reads fuel s d items d1 :
  reads_items d items d1 → Forall accepted_item items →
  block_loop (length items + fuel) s d = block_loop fuel (foldl (flip apply_item) s items) d1.
Proof.
  intros Hr. revert s. induction Hr as [d|d d1 ok d2 items d' Hb Ha _ IH]; intros s Hacc.
  - done.
  - apply Forall_cons in Hacc as [Hit Hacc]. cbn [length Nat.add block_loop].
    rewrite Hb, (option_case_accepted s d1 ok d2 Ha Hit). by apply IH.
Qed.

Lemma UnmarshalCaddyfile_reads segs fuel s d0 d items d1 d' d'' :
  Next d0 = (true, d) → reads_items d items d1 → NextBlock d1 0 = (false, d') →
  Next d' = (false, d'') →
  Forall accepted_item items →
  UnmarshalCaddyfile (S (S segs)) (length items + S fuel) s d0
  = Returned None (foldl (flip apply_item) s items) d''.
Proof.
  intros Hn Hr Hb Hn' Hacc. cbn [UnmarshalCaddyfile]. rewrite Hn.
  rewrite (block_loop_reads (S fuel) s d items d1 Hr Hacc). cbn [block_loop].
  rewrite Hb. by rewrite Hn'.
Qed.

(** X19. A block of options that are all accepted is applied in the order
    of the file: the call returns nil with the [Source] on which each option
    in turn has set its field, so that of two options for one field the
    later one counts and options for different fields do not interfere; the
    cursor is past the block. *)
Theorem UnmarshalCaddyfile_applies_in_order segs fuel s d0 d items d1 d' d'' :
  Next d0 = (true, d) → reads_items d items d1 → NextBlock d1 0 = (false, d') →
  Next d' = (false, d'') →
  Forall accepted_item items →
  UnmarshalCaddyfile (S (S segs)) (length items + S fuel) s d0
  = Returned None (foldl (flip apply_item) s items) d''.
Proof. apply UnmarshalCaddyfile_reads. Qed.

(** X20. The call stops at the first option it rejects and returns its
    error; the options before it stay applied, nothing is undone, and the
    options after it are not read. *)
Theorem UnmarshalCaddyfile_stops_at_first_error segs fuel s d0 d items d1 d2 e s' d3 :
  Next d0 = (true, d) → reads_items d items d1 → Forall accepted_item items →
  NextBlock d1 0 = (true, d2) →
  option_case (foldl (flip apply_item) s items) d2 = (Some e, s', d3) →
  UnmarshalCaddyfile (S segs) (length items + S fuel) s d0
  = Returned (Some e) (foldl (flip apply_item) s items) d3.
Proof.
  intros Hn Hr Hacc Hb Hc. cbn [UnmarshalCaddyfile]. rewrite Hn.
  rewrite (block_loop_reads (S fuel) s d items d1 Hr Hacc). cbn [block_loop].
  rewrite Hb, Hc. by destruct (option_case_error _ _ _ _ _ Hc) as [-> _].
Qed.

End CaddyfileFacts.

(** * From the Caddyfile to the refresher *)

Section EndToEnd.
Context `{NetIP} {W : Type} `{AWS W} {D : Type} `{Dispenser D} `{GoText}.

(** X21. Nothing between the Caddyfile and the ticker checks the sign of
    the refresh period.  A block whose only option is a refresh period that
    parses to a negative duration is accepted, and the call returns nil with
    that period in the [Source]; [Provision] on this [Source] keeps the
    period, whatever comes of its initial pass; the refresher it would start
    panics when it makes its ticker. *)
Theorem negative_refresh_accepted_then_panics segs fuel s d0 d1 d2 d3 d4 d5 dur :
  Next d0 = (true, d1) → NextBlock d1 0 = (true, d2) → Val d2 = "refresh"%string →
  NextArg d2 = (true, d3) → ParseDuration (Val d3) = inr dur → (dur < 0)%Z →
  NextBlock d3 0 = (false, d4) → Next d4 = (false, d5) →
  UnmarshalCaddyfile (S (S segs)) (S (S fuel)) s d0 = Returned None (set_Refresh dur s) d5 ∧
  ∀ (st : @state _ W) pfuel rounds,
    src st = set_Refresh dur s →
    let st' := state_of (run (Provision pfuel) st) in
    Refresh (src st') = dur ∧ run (refresher rounds pfuel) st' = Panicked st'.
Proof.
  intros Hn Hb Hv Ha Hp Hneg Hb' Hn'. split.
  - rewrite (UnmarshalCaddyfile_reads segs fuel s d0 d1
               [{| i_name := Val d2; i_arg := Some (Val d3) |}] d3 d4 d5);
      try done.
    + unfold apply_item. cbn. rewrite Hv. cbn. by rewrite Hp.
    + by apply (reads_cons d1 d2 true d3 [] d3 Hb Ha), reads_nil.
    + apply Forall_singleton. right. left. cbn. by eauto.
  - intros st pfuel rounds Hsrc st'.
    assert (Hr : Refresh (src st') = dur).
    { subst st'. rewrite Provision_src, Hsrc. cbn. by rewrite decide_False by lia. }
    split; [done|].
    unfold refresher, mbind, prog_bind, call. cbn [bind run exec]. rewrite Hr.
    by rewrite decide_False by lia.
Qed.

End EndToEnd.

(** * The Caddyfile on concrete inputs *)

Lemma flag_option_never_fails_witness :
  ∃ s' : Source,
    option_case plain_source
      {| t_entered := true; t_val := "include_ipv6"; t_line := ["Off"%string];
         t_lines := [] |}
    = (None, s',
       {| t_entered := true; t_val := "Off"; t_line := []; t_lines := [] |}) ∧
    IncludeIPv6 s' = false.
Proof.
  destruct (flag_option_never_fails plain_source
              {| t_entered := true; t_val := "include_ipv6"; t_line := ["Off"%string];
                 t_lines := [] |} true
              {| t_entered := true; t_val := "Off"; t_line := []; t_lines := [] |})
    as (s' & Hc & H6 & _).
  - apply list_elem_of_here.
  - reflexivity.
  - exists s'. split; [exact Hc|]. rewrite (H6 eq_refl). reflexivity.
Defined.

(** Option names are matched as they are written: a capital letter makes
    an unknown option. *)
Lemma option_error_keeps_source_witness :
  option_case plain_source
    {| t_entered := true; t_val := "Region"; t_line := ["us-west-2"%string]; t_lines := [] |}
  = (Some (ErrUnknownOption "Region"), plain_source,
     {| t_entered := true; t_val := "Region"; t_line := ["us-west-2"%string];
        t_lines := [] |}) ∧
  ("Region"%string ∉ text_options) ∧ ("Region"%string ∉ flag_options).
Proof.
  split; [reflexivity|].
  destruct (option_error_keeps_source plain_source
              {| t_entered := true; t_val := "Region"; t_line := ["us-west-2"%string];
                 t_lines := [] |}
              (ErrUnknownOption "Region") plain_source
              {| t_entered := true; t_val := "Region"; t_line := ["us-west-2"%string];
                 t_lines := [] |}) as (_ & _ & Ht & Hf & _); [reflexivity|].
  split; [exact Ht|exact Hf].
Defined.

(** One option of a block at a time. *)
Ltac read_item :=
  lazymatch goal with
  | |- reads_items ?d (_ :: _) _ =>
      let d1 := eval vm_compute in (snd (NextBlock d 0)) in
      let ok := eval vm_compute in (fst (NextArg d1)) in
      let d2 := eval vm_compute in (snd (NextArg d1)) in
      refine (reads_cons d d1 ok d2 _ _ eq_refl eq_refl _)
  | |- reads_items _ [] _ => apply reads_nil
  end.

(** An id and a name together, the region twice, IPv6 on. *)
Definition mixed_block : tape :=
  block_of [["region"; "eu-west-1"]; ["prefix_list_id"; "pl-9"];
            ["prefix_list_name"; "mine"]; ["include_ipv6"]; ["refresh"; "30s"];
            ["region"; "us-west-2"]]%string.

Definition mixed_items : list item :=
  [{| i_name := "region"; i_arg := Some "eu-west-1"%string |};
   {| i_name := "prefix_list_id"; i_arg := Some "pl-9"%string |};
   {| i_name := "prefix_list_name"; i_arg := Some "mine"%string |};
   {| i_name := "include_ipv6"; i_arg := None |};
   {| i_name := "refresh"; i_arg := Some "30s"%string |};
   {| i_name := "region"; i_arg := Some "us-west-2"%string |}].

Lemma UnmarshalCaddyfile_applies_in_order_witness :
  ∃ d, UnmarshalCaddyfile 2 7 plain_source mixed_block
       = Returned None
           {| Region := "us-west-2"; PrefixListID := "pl-9"; PrefixListName := "mine";
              IncludeIPv6 := true; Refresh := 30000000000; AWSProfile := "";
              RoleARN := ""; RequireNonEmpty := false |} d.
Proof.
  exists {| t_entered := true; t_val := "us-west-2"; t_line := []; t_lines := [] |}.
  change (UnmarshalCaddyfile 2 (length mixed_items + 1) plain_source mixed_block
          = Returned None (foldl (flip apply_item) plain_source mixed_items)
              {| t_entered := true; t_val := "us-west-2"; t_line := []; t_lines := [] |}).
  eapply (UnmarshalCaddyfile_applies_in_order 0 0 plain_source mixed_block _ mixed_items).
  - reflexivity.
  - unfold mixed_items. repeat read_item.
  - reflexivity.
  - reflexivity.
  - unfold mixed_items, accepted_item, flag_options, text_options. cbn.
    repeat apply Forall_cons_2; try apply Forall_nil_2.
    + right. right. split; [apply list_elem_of_here|]. split; [discriminate|by eexists].
    + right. right. split; [do 2 apply list_elem_of_further; apply list_elem_of_here|].
      split; [discriminate|by eexists].
    + right. right. split; [do 3 apply list_elem_of_further; apply list_elem_of_here|].
      split; [discriminate|by eexists].
    + left. apply list_elem_of_here.
    + right. left. split; [reflexivity|]. eexists _, _. split; reflexivity.
    + right. right. split; [apply list_elem_of_here|]. split; [discriminate|by eexists].
Defined.

Lemma UnmarshalCaddyfile_stops_at_first_error_witness :
  ∃ d, UnmarshalCaddyfile 1 2 plain_source
         (block_of [["region"; "eu-west-1"]; ["refresh"; "soon"]; ["include_ipv6"]]%string)
       = Returned (Some (ErrInvalidRefresh "time: invalid duration soon"))
           (set_Region "eu-west-1" plain_source) d.
Proof.
  exists {| t_entered := true; t_val := "soon"; t_line := [];
            t_lines := [["include_ipv6"%string]] |}.
  eapply (UnmarshalCaddyfile_stops_at_first_error 0 0 plain_source _ _
            [{| i_name := "region"; i_arg := Some "eu-west-1"%string |}]).
  - reflexivity.
  - repeat read_item.
  - apply Forall_cons_2; [|apply Forall_nil_2].
    right. right. split; [apply list_elem_of_here|]. split; [discriminate|by eexists].
  - reflexivity.
  - reflexivity.
Defined.

Lemma negative_refresh_accepted_then_panics_witness :
  (∃ d, UnmarshalCaddyfile 2 2 plain_source (block_of [["refresh"; "-5s"]]%string)
        = Returned None negative_period_source d) ∧
  let st' := state_of (run (Provision 2) (state_of_source negative_period_source two_pages)) in
  Refresh (src st') = (-5000000000)%Z ∧ run (refresher 1 2) st' = Panicked st'.
Proof.
  pose (d1 := {| t_entered := true; t_val := "cloudfront_origin_pl"; t_line := [];
                 t_lines := [["refresh"; "-5s"]]%string |}).
  pose (d2 := {| t_entered := true; t_val := "refresh"; t_line := ["-5s"%string];
                 t_lines := [] |}).
  pose (d3 := {| t_entered := true; t_val := "-5s"; t_line := []; t_lines := [] |}).
  destruct (negative_refresh_accepted_then_panics (W := Script) 0 0 plain_source
              (block_of [["refresh"; "-5s"]]%string) d1 d2 d3 d3 d3 (-5000000000))
    as [Hparse Hrun]; [reflexivity..|].
  split.
  - eexists. exact Hparse.
  - exact (Hrun (state_of_source negative_period_source two_pages) 2 1 eq_refl).
Defined.
